(** * dropblox: a shallow embedding of [main.py] and its specification

    The program is a move planner for a falling-block game.  The embedding
    follows the Python source function by function.

    - Python integers are unbounded: [Z].
    - Python objects that the program mutates live in a store: the row lists
      of a bitmap ([row_objs]) and the [Block] objects ([block_objs]).  A
      reference is the index at which the object was allocated.
    - A [Board] holds references only; its three attributes are assigned
      once, in [__init__], so a board is an immutable value.
    - Exceptions, non-termination of [while] loops (fuel) and what is
      written to standard output are explicit. *)

From Stdlib Require Import ZArith Lia Ascii String.
From stdpp Require Import base option list gmap strings.

(** ** Outcomes *)

(** The exceptions the program can raise ([InvalidMoveError] is its own;
    the others are Python's). *)
Inductive exn :=
  | InvalidMoveError | IndexError | AssertionError | AttributeError | ValueError
  | KeyError.

#[global] Instance exn_eq_dec : EqDecision exn.
Proof. solve_decision. Defined.

(** Why a computation yields no value: a Python exception, a [while] loop
    that used up its fuel, or a reference to an object that is not in the
    store (which no Python program can hold). *)
Inductive failure := Exn (e : exn) | OutOfFuel | Dangling.

Inductive outcome (A : Type) := Ok (a : A) | Fail (f : failure).
Arguments Ok {A} a.
Arguments Fail {A} f.

#[global] Instance outcome_ret : MRet outcome := λ A a, Ok a.
#[global] Instance outcome_bind : MBind outcome := λ A B f m,
  match m with Ok a => f a | Fail e => Fail e end.

(** ** Data model *)

(** [class Point]: an (i, j) position. *)
Record Point := mkPoint { Point_i : Z; Point_j : Z }.

(** [class Block]: [center] and [offsets] are fixed at construction;
    [translation] and [rotation] are the pose, changed in place. *)
Record Block := mkBlock {
  center : Point;
  offsets : list Point;
  translation : Point;
  rotation : Z
}.

(** References into the store. *)
Definition row_ref := nat.
Definition block_ref := nat.

(** [class Board]: the bitmap is a list of row objects. *)
Record Board := mkBoard {
  bitmap : list row_ref;
  block : block_ref;
  preview : list block_ref
}.

Record State := mkState {
  row_objs : list (list Z);
  block_objs : list Block;
  stdout : list string
}.

(** ** The state and exception monad *)

Definition M (A : Type) : Type := State → outcome A * State.

#[global] Instance M_ret : MRet M := λ A a s, (Ok a, s).
#[global] Instance M_bind : MBind M := λ A B f m s,
  match m s with
  | (Ok a, s') => f a s'
  | (Fail e, s') => (Fail e, s')
  end.

Definition raise {A} (e : exn) : M A := λ s, (Fail (Exn e), s).

(** A computation that only reads the state. *)
Definition read {A} (r : State → outcome A) : M A := λ s, (r s, s).

(** [try: m except e: handler]; the state reached when the exception was
    raised is kept. *)
Definition try_except {A} (m : M A) (e : exn) (handler : M A) : M A := λ s,
  match m s with
  | (Fail (Exn e'), s') => if decide (e' = e) then handler s' else (Fail (Exn e'), s')
  | r => r
  end.

(** [while cond: body], cut off after [fuel] evaluations of [cond]; [acc]
    is the local variable the body assigns. *)
Fixpoint while {B} (fuel : nat) (cond : M bool) (body : B → M B) (acc : B) : M B :=
  match fuel with
  | O => λ s, (Fail OutOfFuel, s)
  | S fuel' =>
      c ← cond;
      if c : bool then acc' ← body acc; while fuel' cond body acc' else mret acc
  end.

(** [for x in xs: acc = body(x, acc)], in either monad. *)
Fixpoint for_each {Mo : Type → Type} `{!MBind Mo, !MRet Mo} {A B}
    (xs : list A) (body : A → B → Mo B) (acc : B) : Mo B :=
  match xs with
  | [] => mret acc
  | x :: xs' => acc' ← body x acc; for_each xs' body acc'
  end.

(** ** Python lists *)

(** [l[i]]: a negative index counts from the end. *)
Definition py_norm (n : nat) (i : Z) : option nat :=
  let k := (if i <? 0 then i + Z.of_nat n else i)%Z in
  if (k <? 0)%Z then None else
  if (k <? Z.of_nat n)%Z then Some (Z.to_nat k) else None.

Definition py_index {A} (l : list A) (i : Z) : outcome A :=
  match py_norm (length l) i with
  | Some k => match l !! k with Some x => Ok x | None => Fail (Exn IndexError) end
  | None => Fail (Exn IndexError)
  end.

(** Truth value of an integer. *)
Definition truthy (x : Z) : bool := negb (x =? 0)%Z.

(** ** Store access *)

Definition get_row (r : row_ref) (s : State) : outcome (list Z) :=
  match row_objs s !! r with Some row => Ok row | None => Fail Dangling end.

Definition get_block (r : block_ref) (s : State) : outcome Block :=
  match block_objs s !! r with Some b => Ok b | None => Fail Dangling end.

(** A new list object. *)
Definition alloc_row (row : list Z) : M row_ref := λ s,
  (Ok (length (row_objs s)),
   mkState (row_objs s ++ [row]) (block_objs s) (stdout s)).

(** [row[j] = v] on the row object [r]. *)
Definition set_cell (r : row_ref) (j : Z) (v : Z) : M unit := λ s,
  match row_objs s !! r with
  | None => (Fail Dangling, s)
  | Some row =>
      match py_norm (length row) j with
      | None => (Fail (Exn IndexError), s)
      | Some k =>
          (Ok tt, mkState (<[r := <[k := v]> row]> (row_objs s)) (block_objs s) (stdout s))
      end
  end.

(** An in-place change of the block object [r]. *)
Definition update_block (r : block_ref) (f : Block → Block) : M unit := λ s,
  match block_objs s !! r with
  | None => (Fail Dangling, s)
  | Some b => (Ok tt, mkState (row_objs s) (<[r := f b]> (block_objs s)) (stdout s))
  end.

(** [print text]. *)
Definition print (text : string) : M unit := λ s,
  (Ok tt, mkState (row_objs s) (block_objs s) (stdout s ++ [text])).

(** ** [class Block] *)

Section block_methods.
Local Open Scope Z_scope.

(** The cells of a block value, by the formula of [Block.squares]. *)
Definition squares_of (b : Block) : list Point :=
  if negb (rotation b mod 2 =? 0) then
    map (λ offset,
           mkPoint
             (Point_i (center b) + Point_i (translation b) + (2 - rotation b) * Point_j offset)
             (Point_j (center b) + Point_j (translation b) - (2 - rotation b) * Point_i offset))
        (offsets b)
  else
    map (λ offset,
           mkPoint
             (Point_i (center b) + Point_i (translation b) + (1 - rotation b) * Point_i offset)
             (Point_j (center b) + Point_j (translation b) + (1 - rotation b) * Point_j offset))
        (offsets b).

(** [Block.squares]: the generator reads the block when it is iterated;
    nothing changes the block while the program iterates it. *)
Definition Block_squares (self : block_ref) (s : State) : outcome (list Point) :=
  b ← get_block self s; mret (squares_of b).

Definition shift (di dj : Z) (b : Block) : Block :=
  mkBlock (center b) (offsets b)
          (mkPoint (Point_i (translation b) + di) (Point_j (translation b) + dj))
          (rotation b).

Definition turn (dr : Z) (b : Block) : Block :=
  mkBlock (center b) (offsets b) (translation b) (rotation b + dr).

Definition Block_left (self : block_ref) : M unit := update_block self (shift 0 (-1)).
Definition Block_right (self : block_ref) : M unit := update_block self (shift 0 1).
Definition Block_up (self : block_ref) : M unit := update_block self (shift (-1) 0).
Definition Block_down (self : block_ref) : M unit := update_block self (shift 1 0).
Definition Block_rotate (self : block_ref) : M unit := update_block self (turn 1).
Definition Block_unrotate (self : block_ref) : M unit := update_block self (turn (-1)).

Definition Block_reset_position (self : block_ref) : M unit :=
  update_block self (λ b, mkBlock (center b) (offsets b) (mkPoint 0 0) 0).
End block_methods.

(** [Block.do_command]: the assertion, then [getattr(self, command)()]. *)
Definition Block_do_command (self : block_ref) (command : string) : M unit :=
  if decide (command ∈ ["left"; "right"; "up"; "down"; "rotate"]) then
    if decide (command = "left") then Block_left self
    else if decide (command = "right") then Block_right self
    else if decide (command = "up") then Block_up self
    else if decide (command = "down") then Block_down self
    else Block_rotate self
  else raise AssertionError.

(** [Block.do_commands]. *)
Definition Block_do_commands (self : block_ref) (commands : list string) : M unit :=
  for_each commands (λ command _, Block_do_command self command) tt.

(** ** [class Board]: legality *)

Definition Board_rows : Z := 33.
Definition Board_cols : Z := 12.

(** [self.bitmap[i][j]]. *)
Definition cell (self : Board) (i j : Z) (s : State) : outcome Z :=
  r ← py_index (bitmap self) i; row ← get_row r s; py_index row j.

(** The loop of [Board.check] over the squares of the block: the four
    bounds are tested first, and [or] stops at the first true operand, so
    the bitmap is indexed only when all four are false. *)
Fixpoint check_squares (self : Board) (squares : list Point) (s : State) : outcome bool :=
  match squares with
  | [] => Ok true
  | square :: rest =>
      if ((Point_i square <? 0) || (Point_i square >=? Board_rows)
          || (Point_j square <? 0) || (Point_j square >=? Board_cols))%Z
      then Ok false
      else
        v ← cell self (Point_i square) (Point_j square) s;
        if truthy v then Ok false else check_squares self rest s
  end.

Definition Board_check (self : Board) (block : block_ref) (s : State) : outcome bool :=
  squares ← Block_squares block s; check_squares self squares s.

(** ** [class Block]: the checked moves *)

Definition Block_checked_left (self : block_ref) (board : Board) : M bool :=
  Block_left self;;
  ok ← read (Board_check board self);
  if ok : bool then mret true else Block_right self;; mret false.

Definition Block_checked_right (self : block_ref) (board : Board) : M bool :=
  Block_right self;;
  ok ← read (Board_check board self);
  if ok : bool then mret true else Block_left self;; mret false.

Definition Block_checked_down (self : block_ref) (board : Board) : M bool :=
  Block_down self;;
  ok ← read (Board_check board self);
  if ok : bool then mret true else Block_up self;; mret false.

Definition Block_checked_up (self : block_ref) (board : Board) : M bool :=
  Block_up self;;
  ok ← read (Board_check board self);
  if ok : bool then mret true else Block_down self;; mret false.

Definition Block_checked_rotate (self : block_ref) (board : Board) : M bool :=
  Block_rotate self;;
  ok ← read (Board_check board self);
  if ok : bool then mret true else Block_unrotate self;; mret false.

(** The five directions of a checked move. *)
Inductive direction := Left | Right | Up | Down | Rotate.

Definition checked_move (d : direction) : block_ref → Board → M bool :=
  match d with
  | Left => Block_checked_left
  | Right => Block_checked_right
  | Up => Block_checked_up
  | Down => Block_checked_down
  | Rotate => Block_checked_rotate
  end.

(** ** [class Board]: row removal and commit *)

(** [[row for row in bitmap if not all(row)]]: the rows kept are the same
    objects. *)
Fixpoint keep_rows (bitmap : list row_ref) (s : State) : outcome (list row_ref) :=
  match bitmap with
  | [] => Ok []
  | r :: rest =>
      row ← get_row r s;
      kept ← keep_rows rest s;
      mret (if forallb truthy row then kept else r :: kept)
  end.

(** [[row for i in range(n)]] with a new list object each time. *)
Fixpoint alloc_rows (n : nat) (row : list Z) : M (list row_ref) :=
  match n with
  | O => mret []
  | S n' => r ← alloc_row row; rs ← alloc_rows n' row; mret (r :: rs)
  end.

Definition Board_remove_rows (bitmap : list row_ref) : M (list row_ref) :=
  first ← read (λ s, r ← py_index bitmap 0; get_row r s);
  let rows := length bitmap in
  let cols := length first in
  new_bitmap ← read (keep_rows bitmap);
  fresh ← alloc_rows (rows - length new_bitmap) (replicate cols 0%Z);
  mret (fresh ++ new_bitmap).

(** [[list(row) for row in self.bitmap]]. *)
Fixpoint copy_rows (bitmap : list row_ref) : M (list row_ref) :=
  match bitmap with
  | [] => mret []
  | r :: rest =>
      row ← read (get_row r);
      r' ← alloc_row row;
      rest' ← copy_rows rest;
      mret (r' :: rest')
  end.

(** [new_bitmap[square.i][square.j] = 1]. *)
Definition mark (new_bitmap : list row_ref) (square : Point) : M unit :=
  r ← read (λ _, py_index new_bitmap (Point_i square));
  set_cell r (Point_j square) 1.

Definition no_preview_message : string :=
  "There are no blocks left in the preview list! You can't look that far ahead.".

Definition Board_place (fuel : nat) (self : Board) : M (option Board) :=
  while fuel (read (Board_check self (block self))) (λ _, Block_down (block self)) tt;;
  Block_up (block self);;
  new_bitmap ← copy_rows (bitmap self);
  squares ← read (Block_squares (block self));
  for_each squares (λ square _, mark new_bitmap square) tt;;
  new_bitmap ← Board_remove_rows new_bitmap;
  match preview self with
  | [] => print no_preview_message;; mret None
  | next :: rest => mret (Some (mkBoard new_bitmap next rest))
  end.

(** The loop of [Board.do_commands]. *)
Fixpoint run_commands (fuel : nat) (self : Board) (commands : list string) : M (option Board) :=
  match commands with
  | [] => mret None
  | command :: rest =>
      if decide (command = "drop") then Board_place fuel self
      else
        Block_do_command (block self) command;;
        ok ← read (Board_check self (block self));
        if ok : bool then run_commands fuel self rest else raise InvalidMoveError
  end.

(** [Board.do_commands]: the caller's list gets ['drop'] appended; every
    caller in the program passes a copy it does not use again. *)
Definition Board_do_commands (fuel : nat) (self : Board) (commands : list string)
  : M (option Board) :=
  Block_reset_position (block self);;
  ok ← read (Board_check self (block self));
  if ok : bool then run_commands fuel self (commands ++ ["drop"])
  else raise InvalidMoveError.

(** ** [class Board]: the heuristic *)

Definition Board_size (self : Board) (s : State) : outcome (nat * nat) :=
  r ← py_index (bitmap self) 0;
  first ← get_row r s;
  mret (length (bitmap self), length first).

Definition Board_num_holes (self : Board) (s : State) : outcome Z :=
  '(rows, cols) ← Board_size self s;
  '(holes, _) ←
    for_each (seq 0 rows) (λ row acc,
      for_each (seq 0 cols) (λ col '(holes, column_occupied),
        v ← cell self (Z.of_nat row) (Z.of_nat col) s;
        if (v =? 0)%Z then
          occupied ← py_index column_occupied (Z.of_nat col);
          mret (if truthy occupied then (holes + 1)%Z else holes, column_occupied)
        else
          occupied ← py_index column_occupied (Z.of_nat col);
          mret (holes, <[col := (occupied + 1)%Z]> column_occupied))
      acc)
    (0%Z, replicate cols 0%Z);
  mret holes.

(** The loop of [Board.col_height], over the row numbers still to scan. *)
Fixpoint col_height_scan (self : Board) (col : Z) (rows : nat) (todo : list nat) (s : State)
  : outcome Z :=
  match todo with
  | [] => Ok 0%Z
  | row :: rest =>
      v ← cell self (Z.of_nat row) col s;
      if negb (v =? 0)%Z then Ok (Z.of_nat rows - Z.of_nat row)%Z
      else col_height_scan self col rows rest s
  end.

Definition Board_col_height (self : Board) (col : Z) (s : State) : outcome Z :=
  '(rows, _) ← Board_size self s;
  col_height_scan self col rows (seq 0 rows) s.

Definition Board_max_height (self : Board) (s : State) : outcome Z :=
  '(rows, cols) ← Board_size self s;
  for_each (seq 0 cols) (λ col m_height,
    h ← Board_col_height self (Z.of_nat col) s;
    mret (Z.max m_height h)) 0%Z.

Definition Board_height_variance (self : Board) (s : State) : outcome Z :=
  '(rows, cols) ← Board_size self s;
  prev ← Board_col_height self 0 s;
  '(variance, _) ←
    for_each (seq 0 cols) (λ col '(variance, prev),
      cur ← Board_col_height self (Z.of_nat col) s;
      mret ((variance + Z.abs (cur - prev))%Z, cur)) (0%Z, prev);
  mret variance.

Definition Board_height_penalty (self : Board) (s : State) : outcome Z :=
  '(rows, cols) ← Board_size self s;
  for_each (seq 0 rows) (λ row penalty,
    for_each (seq 0 cols) (λ col penalty,
      v ← cell self (Z.of_nat row) (Z.of_nat col) s;
      mret (if negb (v =? 0)%Z then (penalty + (Z.of_nat rows - Z.of_nat row))%Z
            else penalty)) penalty) 0%Z.

Definition Board_evaluate (self : Board) (s : State) : outcome Z :=
  holes ← Board_num_holes self s;
  height ← Board_max_height self s;
  variance ← Board_height_variance self s;
  mret (- holes - height - variance)%Z.

(** The rows of [test_board]; the heuristic reads nothing else of a board. *)
Definition test_rows : list (list Z) := [[1; 1; 1]; [1; 0; 1]; [1; 1; 1]]%Z.

(** ** The placement search (the body of [__main__]) *)

(** [max(choices)]: the greatest key, [ValueError] on an empty dict. *)
Definition max_key (choices : gmap Z (list string)) : outcome Z :=
  match (map_to_list choices).*1 with
  | [] => Fail (Exn ValueError)
  | k :: ks => Ok (foldr Z.max k ks)
  end.

Definition newline : string := String "010"%char EmptyString.

(** What one pass through the [try] block did: the move list it ran and
    the score it recorded, if the list ran without [InvalidMoveError].
    The program keeps no such record; the search returns the sequence of
    them next to its answer so that its passes can be counted. *)
Record probe := mkProbe { probe_moves : list string; probe_score : option Z }.

(** The [try] statement of the inner loop.  [new_board] is [None] when the
    preview list was empty, and [None.evaluate()] raises [AttributeError]. *)
Definition attempt (fuel : nat) (board : Board) (moves : list string)
    (choices : gmap Z (list string)) : M (gmap Z (list string) * option Z) :=
  try_except
    (new_board ← Board_do_commands fuel board moves;
     cur ← match new_board with
           | Some b => read (Board_evaluate b)
           | None => raise AttributeError
           end;
     mret (<[cur := moves]> choices, Some cur))
    InvalidMoveError
    (mret (choices, None)).

(** The body of the loop [for _ in xrange(0, 3)]. *)
Definition rotation_variant (fuel : nat) (board : Board)
    (acc : list string * gmap Z (list string) * list probe)
  : M (list string * gmap Z (list string) * list probe) :=
  let '(moves, choices, log) := acc in
  let moves := moves ++ ["rotate"] in
  Block_reset_position (block board);;
  '(choices, score) ← attempt fuel board moves choices;
  mret (moves, choices, log ++ [mkProbe moves score]).

Definition rotation_variants (fuel : nat) (board : Board)
    (acc : list string * gmap Z (list string) * list probe)
  : M (list string * gmap Z (list string) * list probe) :=
  for_each (seq 0 3) (λ _, rotation_variant fuel board) acc.

(** The body of the loop [for i in range(0, 12)]; the variable [block] of
    the program is the object [board.block]. *)
Definition shift_round (fuel : nat) (board : Board) (i : nat)
    (acc : gmap Z (list string) * list probe)
  : M (gmap Z (list string) * list probe) :=
  let '(choices, log) := acc in
  moves ← while fuel (Block_checked_left (block board) board)
                     (λ moves, mret (moves ++ ["left"])) [];
  let moves := moves ++ replicate i "right" in
  moves ← while fuel (Block_checked_down (block board) board)
                     (λ moves, mret (moves ++ ["down"])) moves;
  '(_, choices, log) ← rotation_variants fuel board (moves, choices, log);
  mret (choices, log).

Definition search_loop (fuel : nat) (board : Board)
  : M (gmap Z (list string) * list probe) :=
  for_each (seq 0 12) (shift_round fuel board) (∅, []).

(** The search: the move list printed, and the probes made. *)
Definition search (fuel : nat) (board : Board) : M (list string * list probe) :=
  '(choices, log) ← search_loop fuel board;
  best ← read (λ _, max_key choices);
  todo ← read (λ _, match choices !! best with
                    | Some moves => Ok moves
                    | None => Fail (Exn KeyError)
                    end);
  print (String.concat newline todo);;
  mret (todo, log).

(** ** [class Board]: printing *)

(** ['X' if elt else '.']. *)
Definition symbol (elt : Z) : string := if truthy elt then "X" else ".".

(** The lines of [Board.__str__], one for each row of the bitmap. *)
Fixpoint Board_str_rows (bm : list row_ref) (s : State) : outcome (list string) :=
  match bm with
  | [] => Ok []
  | r :: rest =>
      row ← get_row r s;
      lines ← Board_str_rows rest s;
      mret (String.concat " " (symbol <$> row) :: lines)
  end.

(** [Board.__str__]; [Board.__repr__] returns the same string. *)
Definition Board_str (self : Board) (s : State) : outcome string :=
  lines ← Board_str_rows (bitmap self) s;
  mret (String.concat newline lines).

(** * Specification vocabulary *)

(** The grid a bitmap denotes in a state: the rows its references point
    to, or nothing if one of them is not in the store. *)
Definition grid (s : State) (bm : list row_ref) : option (list (list Z)) :=
  mapM (λ r, row_objs s !! r) bm.

(** A grid of [Board.rows] rows of [Board.cols] cells. *)
Definition full_size (g : list (list Z)) : Prop :=
  Z.of_nat (length g) = Board_rows ∧ Forall (λ row, Z.of_nat (length row) = Board_cols) g.

(** Four calls of [rotate] on the block object [self]. *)
Definition rotate_four_times (self : block_ref) : M unit :=
  Block_rotate self;; Block_rotate self;; Block_rotate self;; Block_rotate self.

(** A cell of a grid is free: inside the board and holding 0. *)
Definition free_cell (g : list (list Z)) (square : Point) : bool :=
  bool_decide (0 ≤ Point_i square < Board_rows)%Z
  && bool_decide (0 ≤ Point_j square < Board_cols)%Z
  && match g !! Z.to_nat (Point_i square) ≫= (.!! Z.to_nat (Point_j square)) with
     | Some v => negb (truthy v)
     | None => false
     end.

(** The four comparisons that [Board.check] makes before it indexes the
    bitmap: true when the square is outside the board. *)
Definition outside (square : Point) : bool :=
  ((Point_i square <? 0) || (Point_i square >=? Board_rows)
   || (Point_j square <? 0) || (Point_j square >=? Board_cols))%Z.

(** The closed set of move tokens of the specification. *)
Inductive move := Step (d : direction) | Drop.

Definition token (m : move) : string :=
  match m with
  | Step Left => "left"
  | Step Right => "right"
  | Step Up => "up"
  | Step Down => "down"
  | Step Rotate => "rotate"
  | Drop => "drop"
  end.

Definition primitive (d : direction) : block_ref → M unit :=
  match d with
  | Left => Block_left
  | Right => Block_right
  | Up => Block_up
  | Down => Block_down
  | Rotate => Block_rotate
  end.

(** The state with other row objects. *)
Definition with_rows (s : State) (rs : list (list Z)) : State :=
  mkState rs (block_objs s) (stdout s).

(** The rows that row removal keeps are those with a zero cell; the rows
    it deletes are those without one. *)
Definition survivors (g : list (list Z)) : list (list Z) := filter (λ row, 0%Z ∈ row) g.
Definition full_rows (g : list (list Z)) : list (list Z) := filter (λ row, 0%Z ∉ row) g.

(** The grid after row removal: one all-zero row, as wide as row 0, on top
    for each deleted row, then the kept rows in their order. *)
Definition cleared (g : list (list Z)) : list (list Z) :=
  replicate (length (full_rows g)) (replicate (length (default [] (head g))) 0%Z)
  ++ survivors g.

(** The grid that the result of a bitmap computation denotes. *)
Definition denote (r : outcome (list row_ref) * State) : outcome (list (list Z)) :=
  match r with
  | (Ok bm, s) => match grid s bm with Some g => Ok g | None => Fail Dangling end
  | (Fail f, _) => Fail f
  end.

(** The state with the block object [r] replaced. *)
Definition with_block (s : State) (r : block_ref) (b : Block) : State :=
  mkState (row_objs s) (<[r := b]> (block_objs s)) (stdout s).

(** A pose is legal on a grid when all its squares are free cells. *)
Definition legal (g : list (list Z)) (b : Block) : bool :=
  forallb (free_cell g) (squares_of b).

(** The hard drop: one row down while the pose one row down is legal, at
    most [limit] times. *)
Fixpoint fall (g : list (list Z)) (b : Block) (limit : nat) : Block :=
  match limit with
  | O => b
  | S limit' => if legal g (shift 1 0 b) then fall g (shift 1 0 b) limit' else b
  end.

Definition dropped (g : list (list Z)) (b : Block) : Block := fall g b 33.

(** The first square of a block, the one that bounds its loops. *)
Definition first_square (b : Block) : Point :=
  default (mkPoint 0 0) (head (squares_of b)).

(** The grid with the cell at a square set to 1. *)
Definition mark_cell (g : list (list Z)) (square : Point) : list (list Z) :=
  match g !! Z.to_nat (Point_i square) with
  | Some row =>
      <[Z.to_nat (Point_i square) := <[Z.to_nat (Point_j square) := 1%Z]> row]> g
  | None => g
  end.

Definition marked (g : list (list Z)) (squares : list Point) : list (list Z) :=
  foldl mark_cell g squares.

(** The grid that a commit produces from the grid [g] and the block [b]:
    the cells of the dropped block are set, then full rows are removed. *)
Definition committed (g : list (list Z)) (b : Block) : list (list Z) :=
  cleared (marked g (squares_of (dropped g b))).

(** The primitive of a direction, on a block value. *)
Definition step (d : direction) : Block → Block :=
  match d with
  | Left => shift 0 (-1)
  | Right => shift 0 1
  | Up => shift (-1) 0
  | Down => shift 1 0
  | Rotate => turn 1
  end.

(** What the search keeps true of the state: the bitmap of the board
    denotes [g], nothing has been printed beyond [out], and the block of the
    board has the offsets it started with. *)
Definition search_inv (board : Board) (g : list (list Z)) (offs : list Point)
    (out : list string) (s : State) : Prop :=
  grid s (bitmap board) = Some g
  ∧ stdout s = out
  ∧ ∃ b, block_objs s !! block board = Some b ∧ offsets b = offs.

(** The dict [choices] after a probe, and after a sequence of probes: a
    probe that ran stores its move list under its score, replacing what
    was stored there. *)
Definition record (choices : gmap Z (list string)) (p : probe) : gmap Z (list string) :=
  match probe_score p with
  | Some cur => <[cur := probe_moves p]> choices
  | None => choices
  end.

Definition replay (log : list probe) : gmap Z (list string) := foldl record ∅ log.

(** The move list of the probe for shift [i] and rotation variant [r]
    (0, 1 or 2): some [left]s, [i] [right]s, some [down]s and [r + 1]
    [rotate]s. *)
Definition candidate_shape (i r : nat) (moves : list string) : Prop :=
  ∃ lefts downs,
    moves = replicate lefts "left" ++ replicate i "right" ++ replicate downs "down"
            ++ replicate (S r) "rotate".

(** The probes of the search, in order: 12 shifts by 3 rotation variants. *)
Definition variants : list (nat * nat) := list_prod (seq 0 12) (seq 0 3).

(** A token of a primitive. *)
Definition is_step (command : string) : Prop := ∃ d, command = token (Step d).

(** The state with [text] printed. *)
Definition with_print (s : State) (text : string) : State :=
  mkState (row_objs s) (block_objs s) (stdout s ++ [text]).

(** An empty board of full size with a one-cell block at the top, column
    5, and one more block in the preview list; and the same with an empty
    preview list. *)
Definition empty_rows : list (list Z) := replicate 33 (replicate 12 0%Z).
Definition unit_block : Block := mkBlock (mkPoint 0 5) [mkPoint 0 0] (mkPoint 0 0) 0.
Definition example_state : State := mkState empty_rows [unit_block; unit_block] [].
Definition example_board : Board := mkBoard (seq 0 33) 0 [1].
Definition last_board : Board := mkBoard (seq 0 33) 0 [].

(** A small bitmap with one full row, for the examples on row removal. *)
Definition two_rows_state : State := mkState [[1; 1]; [0; 1]]%Z [] [].

(** A state holding one block and no rows, for the examples on poses. *)
Definition pose_example : State :=
  mkState [] [mkBlock (mkPoint 0 0) [mkPoint 1 0] (mkPoint 0 0) 0] [].

(** ** Vocabulary of the further properties *)

(** The primitive that undoes the primitive of a direction. *)
Definition inverse (d : direction) : block_ref → M unit :=
  match d with
  | Left => Block_right
  | Right => Block_left
  | Up => Block_down
  | Down => Block_up
  | Rotate => Block_unrotate
  end.

(** How often a token occurs in a command list. *)
Definition occurrences (tok : string) (commands : list string) : Z :=
  Z.of_nat (length (filter (λ command, command = tok) commands)).

(** The block after a list of commands, by the number of times each token
    occurs. *)
Definition moved (commands : list string) (b : Block) : Block :=
  mkBlock (center b) (offsets b)
    (mkPoint
       (Point_i (translation b) + occurrences "down" commands - occurrences "up" commands)
       (Point_j (translation b) + occurrences "right" commands
        - occurrences "left" commands))
    (rotation b + occurrences "rotate" commands).

(** The displacement of a translating direction. *)
Definition delta (d : direction) : Z * Z :=
  match d with
  | Left => (0, -1)
  | Right => (0, 1)
  | Up => (-1, 0)
  | Down => (1, 0)
  | Rotate => (0, 0)
  end%Z.

(** A quarter turn of an offset about the origin, and [k] of them. *)
Definition quarter_turn (o : Point) : Point := mkPoint (Point_j o) (- Point_i o).

Fixpoint quarter_turns (k : nat) (o : Point) : Point :=
  match k with
  | O => o
  | S k' => quarter_turn (quarter_turns k' o)
  end.

(** The spawn pose of a block. *)
Definition spawn (b : Block) : Block := mkBlock (center b) (offsets b) (mkPoint 0 0) 0.

(** The pose after a list of primitives, and whether the pose after each
    of them is legal. *)
Definition after_steps (steps : list direction) (b : Block) : Block :=
  foldl (λ b d, step d b) b steps.

Fixpoint path_legal (g : list (list Z)) (b : Block) (steps : list direction) : bool :=
  match steps with
  | [] => true
  | d :: steps' => legal g (step d b) && path_legal g (step d b) steps'
  end.

(** The pose at which the executor stops a walk begun at the pose [b]: the
    first pose that is not legal, be it [b] itself or the pose after one of
    the primitives; none when all of them are legal. *)
Fixpoint first_illegal (g : list (list Z)) (b : Block) (steps : list direction)
  : option Block :=
  if legal g b then
    match steps with
    | [] => None
    | d :: rest => first_illegal g (step d b) rest
    end
  else Some b.

#[global] Instance Point_eq_dec : EqDecision Point.
Proof. solve_decision. Defined.

(** A grid of zeros and ones. *)
Definition binary (g : list (list Z)) : Prop :=
  Forall (Forall (λ v, v = 0 ∨ v = 1)%Z) g.

(** The value of a cell of a grid, if the grid has it. *)
Definition at_cell (g : list (list Z)) (i j : nat) : option Z := g !! i ≫= (.!! j).

(** A grid of [rows] rows of [cols] cells. *)
Definition rectangular (rows cols : nat) (g : list (list Z)) : Prop :=
  length g = rows ∧ Forall (λ row, length row = cols) g.

(** The value of a cell, 0 outside the grid. *)
Definition cell_value (g : list (list Z)) (r c : nat) : Z := default 0%Z (at_cell g r c).

(** Some cell above row [r] in column [c] is occupied; and the cell at
    row [r] is a hole: it holds 0 below an occupied cell of its column. *)
Definition occupied_above (g : list (list Z)) (r c : nat) : bool :=
  existsb (λ r', negb (cell_value g r' c =? 0)%Z) (seq 0 r).

Definition covered (g : list (list Z)) (r c : nat) : bool :=
  (cell_value g r c =? 0)%Z && occupied_above g r c.

(** The number of [k < n] with [P k], and the sum of [f k] for [k < n]. *)
Fixpoint count_upto (P : nat → bool) (n : nat) : Z :=
  match n with
  | O => 0
  | S n' => count_upto P n' + (if P n' then 1 else 0)
  end%Z.

Fixpoint sum_upto (f : nat → Z) (n : nat) : Z :=
  match n with
  | O => 0
  | S n' => sum_upto f n' + f n'
  end%Z.

(** The number of holes of a grid. *)
Definition holes_of (g : list (list Z)) (rows cols : nat) : Z :=
  sum_upto (λ r, count_upto (covered g r) cols) rows.

(** The height of a column of the rows [rows_left]: the number of rows
    from its first occupied cell to the bottom, 0 if it has none. *)
Fixpoint top_height (rows_left : list (list Z)) (col : nat) : Z :=
  match rows_left with
  | [] => 0%Z
  | row :: rest =>
      if negb (default 0 (row !! col) =? 0)%Z then Z.of_nat (length rows_left)
      else top_height rest col
  end.

(** The greatest of 0 and the [f k] for [k < n]; and the sum of the
    differences [|f k - f (k - 1)|] for [0 < k < n]. *)
Fixpoint max_upto (f : nat → Z) (n : nat) : Z :=
  match n with
  | O => 0%Z
  | S n' => Z.max (max_upto f n') (f n')
  end.

Fixpoint variation_upto (f : nat → Z) (n : nat) : Z :=
  match n with
  | O => 0%Z
  | S n' =>
      (variation_upto f n' + match n' with O => 0 | S p => Z.abs (f n' - f p) end)%Z
  end.

(** A state whose only block has no offsets, and a board on it. *)
Definition no_cells_state : State :=
  mkState [] [mkBlock (mkPoint 0 0) [] (mkPoint 0 0) 0] [].

(** The weighted count of [height_penalty]: every occupied cell of row [r]
    counts [rows - r]. *)
Definition penalty_of (g : list (list Z)) (rows cols : nat) : Z :=
  sum_upto (λ r, (Z.of_nat rows - Z.of_nat r)
                 * count_upto (λ c, negb (cell_value g r c =? 0)%Z) cols)%Z rows.

(** A bitmap with one hole and columns of heights 2, 3 and 0, and a bitmap
    of two rows without cells, for the examples on the heuristic. *)
Definition uneven_rows : list (list Z) := [[0; 1; 0]; [1; 0; 0]; [1; 1; 0]]%Z.
Definition uneven_state : State := mkState uneven_rows [] [].
Definition uneven_board : Board := mkBoard [0; 1; 2] 0 [].
Definition narrow_state : State := mkState [[]; []] [] [].
Definition narrow_board : Board := mkBoard [0; 1] 0 [].

(** The score of a grid of 33 rows of 12 cells: minus its holes, its
    greatest column height and the variation of its column heights. *)
Definition evaluation (g : list (list Z)) : Z :=
  (- holes_of g 33 12 - max_upto (top_height g) 12 - variation_upto (top_height g) 12)%Z.

(** The score of a list of primitives for the block [b] on the grid [g]:
    that of the commit of the pose the list leads to from the spawn pose,
    when the spawn pose and the pose after each primitive are legal. *)
Definition score_of (g : list (list Z)) (b : Block) (steps : list direction) : option Z :=
  if legal g (spawn b) && path_legal g (spawn b) steps
  then Some (evaluation (committed g (after_steps steps (spawn b))))
  else None.

(** The probe of a list of primitives. *)
Definition scored (g : list (list Z)) (b : Block) (steps : list direction) : probe :=
  mkProbe (token ∘ Step <$> steps) (score_of g b steps).

(** The log holds probes of lists of primitives, and [choices] is what the
    log replays to. *)
Definition logged (g : list (list Z)) (b : Block)
    (choices : gmap Z (list string)) (log : list probe) : Prop :=
  choices = replay log ∧ Forall (λ p, ∃ steps, p = scored g b steps) log.

(** What the probes of the search keep true of the state: the bitmap of
    the board denotes [g], [out] is what has been printed, and the block of
    the board has the center and the offsets of [b]. *)
Definition probing (board : Board) (g : list (list Z)) (b : Block)
    (out : list string) (s : State) : Prop :=
  grid s (bitmap board) = Some g
  ∧ stdout s = out
  ∧ ∃ b', block_objs s !! block board = Some b'
          ∧ center b' = center b ∧ offsets b' = offsets b.

(** What the search does from the state [s], where the bitmap of the
    board denotes [g] and its block is [b].  Its loop makes the probes
    [log], one for each of the 36 variants in order, each with a move list
    of the shape of its variant.  A probe has a score exactly when its
    list executes, that is when the spawn pose and the pose after each of
    its primitives are legal, and the score is then the one [evaluate]
    gives the board committed; [choices] ends as the replay of the log, in
    which a probe with a score stores its list under the score.  Nothing is
    printed meanwhile.  Then either no probe has a score and [max] raises
    [ValueError]; or the move list printed, one token a line, is that of
    the last probe with the greatest score, and holds no [drop]. *)
Definition search_outcome (fuel : nat) (board : Board) (g : list (list Z)) (b : Block)
    (s : State) : Prop :=
  ∃ log s1,
    search_loop fuel board s = (Ok (replay log, log), s1)
    ∧ Forall2 (λ v p, candidate_shape v.1 v.2 (probe_moves p)) variants log
    ∧ length log = 36
    ∧ Forall (λ p, ∃ steps, probe_moves p = token ∘ Step <$> steps
                            ∧ probe_score p = score_of g b steps) log
    ∧ stdout s1 = stdout s
    ∧ ((Forall (λ p, probe_score p = None) log
        ∧ search fuel board s = (Fail (Exn ValueError), s1))
       ∨ ∃ best todo earlier winner later,
           search fuel board s = (Ok (todo, log), with_print s1 (String.concat newline todo))
           ∧ replay log !! best = Some todo
           ∧ log = earlier ++ winner :: later
           ∧ probe_score winner = Some best
           ∧ probe_moves winner = todo
           ∧ Forall (λ q, probe_score q ≠ Some best) later
           ∧ Forall (λ q, ∀ k, probe_score q = Some k → (k ≤ best)%Z) log
           ∧ "drop" ∉ todo).

(** * Properties *)

(** ** The monad *)

Lemma M_bind_unfold {A B} (m : M A) (f : A → M B) s :
  (m ≫= f) s = match m s with (Ok a, s') => f a s' | (Fail e, s') => (Fail e, s') end.
Proof. reflexivity. Qed.

Lemma update_block_Some r f s b :
  block_objs s !! r = Some b →
  update_block r f s = (Ok tt, mkState (row_objs s) (<[r := f b]> (block_objs s)) (stdout s)).
Proof. intros H. unfold update_block. by rewrite H. Qed.

Lemma update_block_inv r f s o s' :
  update_block r f s = (o, s') →
  (∃ b, block_objs s !! r = Some b ∧ o = Ok tt ∧
        s' = mkState (row_objs s) (<[r := f b]> (block_objs s)) (stdout s))
  ∨ (block_objs s !! r = None ∧ o = Fail Dangling ∧ s' = s).
Proof.
  unfold update_block. destruct (block_objs s !! r) eqn:E; intros [= <- <-]; eauto.
Qed.

(** ** Poses *)

Lemma shift_shift di dj di' dj' b :
  shift di' dj' (shift di dj b) = shift (di + di') (dj + dj') b.
Proof. unfold shift; simpl. do 2 f_equal; lia. Qed.

Lemma shift_zero b : shift 0 0 b = b.
Proof. destruct b as [c os [ti tj] r]. unfold shift; simpl. do 2 f_equal; lia. Qed.

Lemma turn_turn dr dr' b : turn dr' (turn dr b) = turn (dr + dr') b.
Proof. unfold turn; simpl. f_equal; lia. Qed.

Lemma turn_zero b : turn 0 b = b.
Proof. destruct b. unfold turn; simpl. f_equal; lia. Qed.

Lemma squares_of_fourth_turn c os t :
  squares_of (turn 4 (mkBlock c os t 0)) =
  map (λ o, mkPoint (Point_i c + Point_i t - 3 * Point_i o)
                    (Point_j c + Point_j t - 3 * Point_j o)) os.
Proof. unfold squares_of, turn; simpl. apply map_ext. intros o. f_equal; lia. Qed.

Lemma squares_of_spawn c os t :
  squares_of (mkBlock c os t 0) =
  map (λ o, mkPoint (Point_i c + Point_i t + Point_i o)
                    (Point_j c + Point_j t + Point_j o)) os.
Proof. unfold squares_of; simpl. apply map_ext. intros [oi oj]; simpl. f_equal; lia. Qed.

Lemma rotate_four_times_Some self s b :
  block_objs s !! self = Some b →
  rotate_four_times self s =
  (Ok tt, mkState (row_objs s) (<[self := turn 4 b]> (block_objs s)) (stdout s)).
Proof.
  intros H. pose proof (lookup_lt_Some _ _ _ H) as Hlt.
  unfold rotate_four_times, Block_rotate.
  rewrite M_bind_unfold, (update_block_Some _ _ _ _ H).
  rewrite M_bind_unfold. unfold update_block at 1; simpl.
  rewrite list_lookup_insert_eq by done. rewrite list_insert_insert_eq.
  rewrite M_bind_unfold. unfold update_block at 1; simpl.
  rewrite list_lookup_insert_eq by done. rewrite list_insert_insert_eq.
  unfold update_block; simpl.
  rewrite list_lookup_insert_eq by done. rewrite list_insert_insert_eq.
  by rewrite !turn_turn.
Qed.

(** C1 (as amended).  From rotation 0, four calls of [rotate] leave every
    cell at center + translation - 3 * offset: the result is the spawn
    cells only when every offset is (0, 0). *)
Theorem rotate_four_times_cells self s c os t :
  block_objs s !! self = Some (mkBlock c os t 0) →
  ∃ s', rotate_four_times self s = (Ok tt, s')
    ∧ Block_squares self s' =
        Ok (map (λ o, mkPoint (Point_i c + Point_i t - 3 * Point_i o)
                              (Point_j c + Point_j t - 3 * Point_j o)) os)
    ∧ (Block_squares self s' = Block_squares self s ↔ Forall (λ o, o = mkPoint 0 0) os).
Proof.
  intros H. eexists. split; [by apply rotate_four_times_Some|].
  pose proof (lookup_lt_Some _ _ _ H) as Hlt.
  unfold Block_squares, get_block; simpl.
  rewrite list_lookup_insert_eq by done. rewrite H. simpl.
  rewrite squares_of_fourth_turn, squares_of_spawn.
  split; [done|]. unfold mret, outcome_ret. split.
  - intros [= Heq]. clear H Hlt. induction os as [|[oi oj] os IH]; [constructor|].
    simpl in Heq. injection Heq as Hi Hj Hrest. constructor; [|by apply IH].
    f_equal; lia.
  - intros Hall. f_equal. apply map_ext_Forall.
    eapply Forall_impl; [exact Hall|]. intros o ->. simpl. f_equal; lia.
Qed.

Lemma rotate_four_times_cells_witness :
  ∃ s', rotate_four_times 0 pose_example = (Ok tt, s')
    ∧ Block_squares 0 s' = Ok [mkPoint (-3) 0]
    ∧ (Block_squares 0 s' = Block_squares 0 pose_example
       ↔ Forall (λ o, o = mkPoint 0 0) [mkPoint 1 0]).
Proof.
  exact (rotate_four_times_cells 0 pose_example (mkPoint 0 0) [mkPoint 1 0] (mkPoint 0 0)
           eq_refl).
Defined.

(** C1 as stated fails: the block with the single offset (1, 0) occupies
    (1, 0) at spawn and (-3, 0) after four calls of [rotate]. *)
Lemma rotate_four_times_not_identity :
  Block_squares 0 pose_example = Ok [mkPoint 1 0]
  ∧ ∃ s', rotate_four_times 0 pose_example = (Ok tt, s')
      ∧ Block_squares 0 s' = Ok [mkPoint (-3) 0]
      ∧ Block_squares 0 s' ≠ Block_squares 0 pose_example.
Proof.
  split; [reflexivity|]. eexists. split; [reflexivity|]. split; [reflexivity|].
  discriminate.
Qed.

(** ** Checked moves *)

(** The shape shared by the five checked moves: a primitive [f], the
    legality check, and the primitive [g] that undoes [f]. *)
Lemma guarded_move_sound (f g : Block → Block) self board s ok s' :
  (∀ b, g (f b) = b) →
  (update_block self f;;
   legal ← read (Board_check board self);
   if legal : bool then mret true else update_block self g;; mret false) s = (Ok ok, s') →
  if ok then Board_check board self s' = Ok true else s' = s.
Proof.
  intros Hgf. rewrite M_bind_unfold.
  destruct (update_block self f s) as [o1 s1] eqn:E1.
  apply update_block_inv in E1 as [(b & Hb & -> & ->)|(_ & -> & _)]; [|discriminate].
  rewrite M_bind_unfold. unfold read at 1.
  destruct (Board_check board self _) as [[|]|e] eqn:Echeck; [| |discriminate].
  - intros [= <- <-]. exact Echeck.
  - pose proof (lookup_lt_Some _ _ _ Hb) as Hlt.
    rewrite M_bind_unfold. unfold update_block; simpl.
    rewrite list_lookup_insert_eq by done. intros [= <- <-].
    rewrite list_insert_insert_eq, Hgf, list_insert_id by done. by destruct s.
Qed.

(** C5.  A checked move that reports success leaves the block in a legal
    pose; one that reports failure leaves the whole state, the pose of the
    block included, as it was before the attempt. *)
Theorem checked_move_sound d self board s ok s' :
  checked_move d self board s = (Ok ok, s') →
  if ok then Board_check board self s' = Ok true else s' = s.
Proof.
  destruct d; apply guarded_move_sound; intros b;
    rewrite ?shift_shift, ?turn_turn; simpl;
    first [apply shift_zero | apply turn_zero].
Qed.

Lemma checked_move_sound_witness :
  Board_check example_board 0 (with_block example_state 0 (shift 0 (-1) unit_block)) = Ok true
  ∧ example_state = example_state.
Proof.
  split.
  - exact (checked_move_sound Left 0 example_board example_state true
             (with_block example_state 0 (shift 0 (-1) unit_block)) eq_refl).
  - exact (checked_move_sound Up 0 example_board example_state false example_state eq_refl).
Defined.

(** ** The heuristic on the test board *)

(** C7.  On the grid [[1,1,1],[1,0,1],[1,1,1]] the heuristic finds one
    hole, maximum height 3 and height variance 0, whatever else the board
    and the state hold. *)
Theorem test_board_features blk pv blocks out :
  let s := mkState test_rows blocks out in
  let test_board := mkBoard [0; 1; 2] blk pv in
  Board_num_holes test_board s = Ok 1%Z
  ∧ Board_max_height test_board s = Ok 3%Z
  ∧ Board_height_variance test_board s = Ok 0%Z.
Proof. repeat split; reflexivity. Qed.

Example test_board_height_penalty blk pv blocks out :
  Board_height_penalty (mkBoard [0; 1; 2] blk pv) (mkState test_rows blocks out) = Ok 16%Z.
Proof. reflexivity. Qed.

(** ** Grids and indexing *)

Lemma grid_Forall2 s bm g :
  grid s bm = Some g ↔ Forall2 (λ r row, row_objs s !! r = Some row) bm g.
Proof. apply mapM_Some. Qed.

Lemma grid_length s bm g : grid s bm = Some g → length g = length bm.
Proof. intros H. symmetry. by eapply length_mapM. Qed.

Lemma grid_lookup s bm g k row :
  grid s bm = Some g → g !! k = Some row →
  ∃ r, bm !! k = Some r ∧ row_objs s !! r = Some row.
Proof.
  intros Hg Hk. apply grid_Forall2 in Hg.
  destruct (Forall2_lookup_r _ _ _ _ _ Hg Hk) as (r & ? & ?). eauto.
Qed.

Lemma py_norm_in_range n (i : Z) :
  (0 ≤ i < Z.of_nat n)%Z → py_norm n i = Some (Z.to_nat i).
Proof.
  intros Hi. unfold py_norm.
  destruct (i <? 0)%Z eqn:E1; [lia|]. rewrite E1.
  destruct (i <? Z.of_nat n)%Z eqn:E2; [done|lia].
Qed.

Lemma py_index_in_range {A} (l : list A) (i : Z) x :
  (0 ≤ i)%Z → l !! Z.to_nat i = Some x → py_index l i = Ok x.
Proof.
  intros Hi Hx. pose proof (lookup_lt_Some _ _ _ Hx).
  unfold py_index. rewrite py_norm_in_range by lia. by rewrite Hx.
Qed.

Lemma cell_in_range board s g i j row v :
  grid s (bitmap board) = Some g →
  (0 ≤ i)%Z → (0 ≤ j)%Z →
  g !! Z.to_nat i = Some row → row !! Z.to_nat j = Some v →
  cell board i j s = Ok v.
Proof.
  intros Hg Hi Hj Hrow Hv.
  destruct (grid_lookup _ _ _ _ _ Hg Hrow) as (r & Hr & Hobj).
  unfold cell. rewrite (py_index_in_range _ _ _ Hi Hr). simpl.
  unfold get_row. rewrite Hobj. simpl. by apply py_index_in_range.
Qed.

(** Inside the bounds that [Board.check] tests, a full-size grid has a
    cell. *)
Lemma full_size_lookup g square :
  full_size g → outside square = false →
  (0 ≤ Point_i square < Board_rows)%Z ∧ (0 ≤ Point_j square < Board_cols)%Z
  ∧ ∃ row v, g !! Z.to_nat (Point_i square) = Some row
             ∧ row !! Z.to_nat (Point_j square) = Some v.
Proof.
  intros [Hrows Hcols] Hin. unfold outside in Hin.
  apply orb_false_elim in Hin as [Hin H4]. apply orb_false_elim in Hin as [Hin H3].
  apply orb_false_elim in Hin as [H1 H2].
  assert (0 ≤ Point_i square < Board_rows)%Z as Hi by lia.
  assert (0 ≤ Point_j square < Board_cols)%Z as Hj by lia.
  split; [done|]. split; [done|].
  destruct (lookup_lt_is_Some_2 g (Z.to_nat (Point_i square))) as [row Hrow]; [lia|].
  pose proof (Forall_lookup_1 _ _ _ _ Hcols Hrow) as Hlen. simpl in Hlen.
  destruct (lookup_lt_is_Some_2 row (Z.to_nat (Point_j square))) as [v Hv]; [lia|].
  eauto.
Qed.

Lemma free_cell_outside g square : outside square = true → free_cell g square = false.
Proof.
  unfold outside, free_cell. intros H.
  repeat (apply orb_true_iff in H as [H|H]);
    (rewrite andb_false_iff; left; rewrite andb_false_iff);
    [left|left|right|right]; apply bool_decide_eq_false; lia.
Qed.

Lemma check_squares_full_size board s g squares :
  grid s (bitmap board) = Some g → full_size g →
  check_squares board squares s = Ok (forallb (free_cell g) squares).
Proof.
  intros Hg Hfull. induction squares as [|square rest IH]; [done|].
  simpl. fold (outside square).
  destruct (outside square) eqn:Hout.
  - by rewrite (free_cell_outside _ _ Hout).
  - destruct (full_size_lookup _ _ Hfull Hout) as (Hi & Hj & row & v & Hrow & Hv).
    rewrite (cell_in_range _ _ _ _ _ _ _ Hg (proj1 Hi) (proj1 Hj) Hrow Hv). simpl.
    unfold free_cell. rewrite Hrow. simpl. rewrite Hv.
    rewrite !bool_decide_eq_true_2 by done. simpl.
    destruct (truthy v); [done|]. exact IH.
Qed.

Lemma Board_check_full_size board s g self b :
  grid s (bitmap board) = Some g → full_size g →
  block_objs s !! self = Some b →
  Board_check board self s = Ok (forallb (free_cell g) (squares_of b)).
Proof.
  intros Hg Hfull Hb. unfold Board_check, Block_squares, get_block. rewrite Hb. simpl.
  by apply check_squares_full_size.
Qed.

(** C10.  On a board of 33 rows of 12 cells the legality check returns a
    boolean for every pose of the block, and every square that passes the
    four comparisons is read at a row and a column the grid has, counted
    from the start of the lists. *)
Theorem Board_check_total board s g self b :
  grid s (bitmap board) = Some g → full_size g →
  block_objs s !! self = Some b →
  (∃ legal, Board_check board self s = Ok legal)
  ∧ ∀ square, square ∈ squares_of b → outside square = false →
      (0 ≤ Point_i square < Z.of_nat (length g))%Z
      ∧ ∃ row v, g !! Z.to_nat (Point_i square) = Some row
          ∧ (0 ≤ Point_j square < Z.of_nat (length row))%Z
          ∧ row !! Z.to_nat (Point_j square) = Some v
          ∧ cell board (Point_i square) (Point_j square) s = Ok v.
Proof.
  intros Hg Hfull Hb. split.
  - eexists. by eapply Board_check_full_size.
  - intros square _ Hout.
    destruct (full_size_lookup _ _ Hfull Hout) as (Hi & Hj & row & v & Hrow & Hv).
    pose proof (lookup_lt_Some _ _ _ Hrow). pose proof (lookup_lt_Some _ _ _ Hv).
    split; [lia|]. exists row, v. repeat split; try done; try lia.
    eapply cell_in_range; [done|lia|lia|done|done].
Qed.

(** ** The move executor *)

Lemma token_step_not_drop d : token (Step d) ≠ "drop".
Proof. by destruct d. Qed.

Lemma Block_do_command_token self d :
  Block_do_command self (token (Step d)) = primitive d self.
Proof. by destruct d. Qed.

Lemma run_commands_cons fuel board command rest :
  run_commands fuel board (command :: rest) =
  if decide (command = "drop") then Board_place fuel board
  else
    Block_do_command (block board) command;;
    ok ← read (Board_check board (block board));
    if ok : bool then run_commands fuel board rest else raise InvalidMoveError.
Proof. reflexivity. Qed.

Lemma run_commands_step fuel board d rest s :
  run_commands fuel board (token (Step d) :: rest) s =
  (primitive d (block board);;
   legal ← read (Board_check board (block board));
   if legal : bool then run_commands fuel board rest else raise InvalidMoveError) s.
Proof.
  rewrite run_commands_cons.
  destruct (decide (token (Step d) = "drop")) as [Heq|_];
    [by apply token_step_not_drop in Heq|].
  by rewrite Block_do_command_token.
Qed.

(** ** Row removal *)

Lemma forallb_truthy row : forallb truthy row = bool_decide (0%Z ∉ row).
Proof.
  destruct (forallb truthy row) eqn:E; symmetry.
  - apply bool_decide_eq_true_2. intros Hin%list_elem_of_In.
    by apply (proj1 (forallb_forall _ _) E) in Hin.
  - apply bool_decide_eq_false_2. intros Hnin.
    assert (forallb truthy row = true) as E'; [|congruence].
    apply forallb_forall. intros x Hx%list_elem_of_In. unfold truthy.
    destruct (Z.eqb_spec x 0) as [->|]; [done|done].
Qed.

Lemma grid_cons s r bm :
  grid s (r :: bm) = row ← row_objs s !! r; g ← grid s bm; Some (row :: g).
Proof. reflexivity. Qed.

Lemma grid_cons_Some s r bm row g :
  row_objs s !! r = Some row → grid s bm = Some g → grid s (r :: bm) = Some (row :: g).
Proof. intros Hr Hg. by rewrite grid_cons, Hr, Hg. Qed.

Lemma grid_cons_inv s r bm g :
  grid s (r :: bm) = Some g →
  ∃ row g', g = row :: g' ∧ row_objs s !! r = Some row ∧ grid s bm = Some g'.
Proof.
  rewrite grid_cons. destruct (row_objs s !! r) as [row|]; [|done]. simpl.
  destruct (grid s bm) as [g'|]; [|done]. simpl. intros [= <-]. eauto.
Qed.

Lemma grid_app s bm1 bm2 g1 g2 :
  grid s bm1 = Some g1 → grid s bm2 = Some g2 → grid s (bm1 ++ bm2) = Some (g1 ++ g2).
Proof.
  rewrite !grid_Forall2. apply Forall2_app.
Qed.

(** A bitmap denotes the same grid in a store that agrees on its rows. *)
Lemma grid_agree s s' bm g :
  grid s bm = Some g →
  (∀ r row, r ∈ bm → row_objs s !! r = Some row → row_objs s' !! r = Some row) →
  grid s' bm = Some g.
Proof.
  rewrite !grid_Forall2. intros Hg Hagree.
  induction Hg as [|r row bm g Hr Hg IH]; constructor.
  - apply Hagree; [left|done].
  - apply IH. intros r' row' Hin. apply Hagree. by right.
Qed.

Lemma grid_extend s bm g ext :
  grid s bm = Some g → grid (with_rows s (row_objs s ++ ext)) bm = Some g.
Proof.
  intros Hg. eapply grid_agree; [done|]. intros r row _ Hr. simpl.
  by apply lookup_app_l_Some.
Qed.

Lemma grid_fresh s pre ext :
  row_objs s = pre ++ ext → grid s (seq (length pre) (length ext)) = Some ext.
Proof.
  intros Hs. apply grid_Forall2. apply Forall2_same_length_lookup. split.
  - by rewrite length_seq.
  - intros k r row Hr Hrow. apply lookup_seq in Hr as [-> _].
    rewrite Hs, lookup_app_r by lia. by replace (length pre + k - length pre) with k by lia.
Qed.

Lemma keep_rows_spec s bm g :
  grid s bm = Some g →
  ∃ kept, keep_rows bm s = Ok kept ∧ grid s kept = Some (survivors g)
          ∧ ∀ r, r ∈ kept → r ∈ bm.
Proof.
  revert g. induction bm as [|r bm IH]; intros g Hg.
  - injection Hg as <-. exists []. split; [done|]. split; [done|].
    intros r Hr. by apply elem_of_nil in Hr.
  - apply grid_cons_inv in Hg as (row & g' & -> & Hr & Hg').
    destruct (IH _ Hg') as (kept & Hkept & Hgrid & Hsub).
    simpl. unfold get_row. rewrite Hr. simpl. rewrite Hkept. simpl.
    rewrite forallb_truthy. unfold survivors. rewrite filter_cons.
    case_bool_decide as Hfull; destruct (decide (0%Z ∈ row)) as [Hin|Hnin]; try done.
    + exists kept. split; [done|]. split; [done|]. intros r' Hr'. right. by apply Hsub.
    + exists (r :: kept). split; [done|]. split.
      * by apply grid_cons_Some.
      * intros r' [->|Hr']%elem_of_cons; [left|right; by apply Hsub].
Qed.

Lemma alloc_rows_spec n row s :
  alloc_rows n row s =
  (Ok (seq (length (row_objs s)) n), with_rows s (row_objs s ++ replicate n row)).
Proof.
  revert s. induction n as [|n IH]; intros s.
  - simpl. unfold mret, M_ret, with_rows. rewrite app_nil_r. by destruct s.
  - cbn [alloc_rows]. rewrite M_bind_unfold. unfold alloc_row at 1.
    rewrite M_bind_unfold, IH. unfold mret, M_ret, with_rows; simpl.
    rewrite length_app, <- (assoc_L (++)). simpl.
    by replace (length (row_objs s) + 1) with (S (length (row_objs s))) by lia.
Qed.

Lemma length_full_rows g : length (full_rows g) = length g - length (survivors g).
Proof.
  unfold full_rows, survivors. induction g as [|row g IH]; [done|].
  rewrite !filter_cons. pose proof (length_filter (λ row, 0%Z ∈ row) g).
  destruct (decide (0%Z ∈ row)), (decide (0%Z ∉ row)); simpl; try done; lia.
Qed.

Lemma length_cleared g : length (cleared g) = length g.
Proof.
  unfold cleared. rewrite length_app, length_replicate, length_full_rows.
  pose proof (length_filter (λ row, 0%Z ∈ row) g). unfold survivors. lia.
Qed.

(** Row removal on a bitmap with at least one row: the store only grows,
    by the new all-zero rows, and the result denotes [cleared]. *)
Lemma Board_remove_rows_spec s bm g :
  grid s bm = Some g → g ≠ [] →
  ∃ bm' ext,
    Board_remove_rows bm s = (Ok bm', with_rows s (row_objs s ++ ext))
    ∧ grid (with_rows s (row_objs s ++ ext)) bm' = Some (cleared g)
    ∧ ∀ r, r ∈ bm' → r ∈ bm ∨ length (row_objs s) ≤ r.
Proof.
  intros Hg Hne.
  destruct (keep_rows_spec _ _ _ Hg) as (kept & Hkept & Hgrid & Hsub).
  destruct g as [|first g]; [done|]. destruct bm as [|r0 bm]; [done|].
  pose proof Hg as Hg0. apply grid_cons_inv in Hg0 as (? & ? & [= <- <-] & Hr0 & _).
  set (zeros := replicate (length (full_rows (first :: g))) (replicate (length first) 0%Z)).
  exists (seq (length (row_objs s)) (length zeros) ++ kept), zeros.
  assert (length (r0 :: bm) - length kept = length zeros) as Hcount.
  { unfold zeros. rewrite length_replicate, length_full_rows.
    rewrite <- (grid_length _ _ _ Hg), <- (grid_length _ _ _ Hgrid). done. }
  split; [|split].
  - unfold Board_remove_rows. rewrite M_bind_unfold. unfold read at 1.
    change (py_index (r0 :: bm) 0) with (Ok (A:=row_ref) r0). simpl mbind at 1.
    unfold get_row at 1. rewrite Hr0.
    rewrite M_bind_unfold. unfold read at 1. rewrite Hkept.
    rewrite M_bind_unfold, alloc_rows_spec, Hcount.
    unfold mret, M_ret. do 3 f_equal. unfold zeros. by rewrite length_replicate.
  - unfold cleared. simpl head. simpl default. fold zeros.
    apply grid_app; [by apply grid_fresh|by apply grid_extend].
  - intros r [Hr|Hr]%elem_of_app.
    + right. apply elem_of_seq in Hr. lia.
    + left. by apply Hsub.
Qed.

Lemma Board_remove_rows_empty s :
  Board_remove_rows [] s = (Fail (Exn IndexError), s).
Proof. reflexivity. Qed.

Lemma survivors_idemp g : survivors (survivors g) = survivors g.
Proof.
  unfold survivors. induction g as [|row g IH]; [done|].
  rewrite filter_cons. destruct (decide (0%Z ∈ row)) as [Hin|Hnin]; [|done].
  rewrite filter_cons. destruct (decide (0%Z ∈ row)); [|done]. by rewrite IH.
Qed.

Lemma full_rows_survivors g : full_rows (survivors g) = [].
Proof.
  unfold survivors, full_rows. induction g as [|row g IH]; [done|].
  rewrite filter_cons. destruct (decide (0%Z ∈ row)) as [Hin|Hnin]; [|done].
  rewrite filter_cons. destruct (decide (0%Z ∉ row)); [done|]. exact IH.
Qed.

Lemma survivors_replicate k row :
  survivors (replicate k row) = if decide (0%Z ∈ row) then replicate k row else [].
Proof.
  unfold survivors. induction k as [|k IH]; [by destruct (decide _)|].
  cbn [replicate]. rewrite filter_cons, IH. by destruct (decide (0%Z ∈ row)).
Qed.

Lemma full_rows_replicate k row :
  full_rows (replicate k row) = if decide (0%Z ∈ row) then [] else replicate k row.
Proof.
  unfold full_rows. induction k as [|k IH]; [by destruct (decide _)|].
  cbn [replicate]. rewrite filter_cons, IH.
  destruct (decide (0%Z ∉ row)), (decide (0%Z ∈ row)); done.
Qed.

Lemma cleared_zeros_app k w kept :
  survivors kept = kept → full_rows kept = [] →
  cleared (replicate k (replicate w 0%Z) ++ kept) = replicate k (replicate w 0%Z) ++ kept.
Proof.
  intros Hkept Hfull. unfold cleared.
  assert (survivors (replicate k (replicate w 0%Z) ++ kept) =
          survivors (replicate k (replicate w 0%Z)) ++ kept) as ->.
  { unfold survivors at 1. rewrite filter_app. fold (survivors kept). by rewrite Hkept. }
  assert (full_rows (replicate k (replicate w 0%Z) ++ kept) =
          full_rows (replicate k (replicate w 0%Z))) as ->.
  { unfold full_rows at 1. rewrite filter_app. fold (full_rows kept).
    by rewrite Hfull, app_nil_r. }
  rewrite survivors_replicate, full_rows_replicate.
  destruct (decide (0%Z ∈ replicate w 0%Z)) as [Hin|Hnin]; [done|].
  assert (w = 0) as ->.
  { destruct w; [done|]. exfalso. apply Hnin. left. }
  rewrite length_replicate. by destruct k.
Qed.

Lemma cleared_idemp g : cleared (cleared g) = cleared g.
Proof.
  unfold cleared at 2 3. apply cleared_zeros_app.
  - apply survivors_idemp.
  - apply full_rows_survivors.
Qed.

Lemma Forall_cleared (P : list Z → Prop) g :
  Forall P g → P (replicate (length (default [] (head g))) 0%Z) → Forall P (cleared g).
Proof.
  intros Hg Hz. unfold cleared. apply Forall_app. split.
  - by apply Forall_replicate.
  - unfold survivors. apply Forall_forall. intros row [_ Hrow]%list_elem_of_filter.
    by apply (proj1 (Forall_forall _ _) Hg).
Qed.

(** C4.  On a bitmap of at least one row whose rows all have [cols]
    cells, [remove_rows] returns a bitmap that denotes: one all-zero row
    for each input row without a zero cell, followed by the input rows with
    a zero cell, in their order.  It has as many rows as the input, all of
    [cols] cells, and the input bitmap still denotes the input grid. *)
Theorem Board_remove_rows_correct s bm g cols :
  grid s bm = Some g → g ≠ [] → Forall (λ row, length row = cols) g →
  ∃ bm' s' g',
    Board_remove_rows bm s = (Ok bm', s')
    ∧ grid s' bm' = Some g'
    ∧ g' = replicate (length (filter (λ row, 0%Z ∉ row) g)) (replicate cols 0%Z)
           ++ filter (λ row, 0%Z ∈ row) g
    ∧ length g' = length g
    ∧ Forall (λ row, length row = cols) g'
    ∧ grid s' bm = Some g.
Proof.
  intros Hg Hne Hcols.
  destruct (Board_remove_rows_spec _ _ _ Hg Hne) as (bm' & ext & Hrun & Hgrid & _).
  assert (length (default [] (head g)) = cols) as Hwidth.
  { destruct g as [|first g]; [done|]. by apply Forall_cons in Hcols as [? _]. }
  eexists bm', _, (cleared g). split; [exact Hrun|]. split; [exact Hgrid|].
  split; [|split; [|split]].
  - unfold cleared. by rewrite Hwidth.
  - apply length_cleared.
  - apply Forall_cleared; [done|]. by rewrite length_replicate.
  - by apply grid_extend.
Qed.

(** C8.  Row removal is idempotent: removing rows from the result of a
    row removal gives a bitmap that denotes the same grid (and on the
    bitmap without rows both raise [IndexError]). *)
Theorem Board_remove_rows_idempotent s bm g :
  grid s bm = Some g →
  denote ((Board_remove_rows bm ≫= Board_remove_rows) s) = denote (Board_remove_rows bm s).
Proof.
  intros Hg. destruct (decide (g = [])) as [->|Hne].
  - apply grid_length in Hg. destruct bm; [done|done].
  - destruct (Board_remove_rows_spec _ _ _ Hg Hne) as (bm1 & ext1 & Hrun1 & Hgrid1 & _).
    assert (cleared g ≠ []) as Hne1.
    { intros Hnil. apply (f_equal length) in Hnil. rewrite length_cleared in Hnil.
      by destruct g. }
    destruct (Board_remove_rows_spec _ _ _ Hgrid1 Hne1) as (bm2 & ext2 & Hrun2 & Hgrid2 & _).
    rewrite M_bind_unfold, Hrun1, Hrun2. unfold denote.
    by rewrite Hgrid1, Hgrid2, cleared_idemp.
Qed.

(** ** Translated poses *)

Lemma squares_of_shift di dj b :
  squares_of (shift di dj b) =
  map (λ p, mkPoint (Point_i p + di) (Point_j p + dj)) (squares_of b).
Proof.
  unfold squares_of, shift; simpl.
  destruct (negb (rotation b mod 2 =? 0)%Z); rewrite map_map; apply map_ext;
    intros o; simpl; f_equal; lia.
Qed.

Lemma squares_of_nil b : squares_of b = [] ↔ offsets b = [].
Proof.
  unfold squares_of. destruct (negb _); split; intros H.
  1,3: by apply map_eq_nil in H.
  all: by rewrite H.
Qed.

Lemma first_square_shift di dj b :
  offsets b ≠ [] →
  first_square (shift di dj b) =
  mkPoint (Point_i (first_square b) + di) (Point_j (first_square b) + dj).
Proof.
  intros Hne. unfold first_square. rewrite squares_of_shift.
  destruct (squares_of b) as [|sq rest] eqn:E; [|done].
  by apply squares_of_nil in E.
Qed.

Lemma free_cell_bounds g square :
  free_cell g square = true →
  (0 ≤ Point_i square < Board_rows)%Z ∧ (0 ≤ Point_j square < Board_cols)%Z.
Proof.
  unfold free_cell. intros H.
  apply andb_true_iff in H as [H _]. apply andb_true_iff in H as [H1 H2].
  apply bool_decide_eq_true in H1. apply bool_decide_eq_true in H2. done.
Qed.

Lemma free_cell_inside g square : free_cell g square = true → outside square = false.
Proof.
  intros H. destruct (outside square) eqn:E; [|done].
  by rewrite (free_cell_outside _ _ E) in H.
Qed.

Lemma legal_first_square g b :
  legal g b = true → offsets b ≠ [] →
  (0 ≤ Point_i (first_square b) < Board_rows)%Z
  ∧ (0 ≤ Point_j (first_square b) < Board_cols)%Z.
Proof.
  intros Hlegal Hne. unfold legal in Hlegal. unfold first_square.
  destruct (squares_of b) as [|sq rest] eqn:E; [by apply squares_of_nil in E|].
  simpl in Hlegal. apply andb_true_iff in Hlegal as [Hsq _].
  by apply free_cell_bounds in Hsq.
Qed.

(** ** Commit: the drop loop *)

Lemma with_block_lookup s r b :
  r < length (block_objs s) → block_objs (with_block s r b) !! r = Some b.
Proof. intros H. simpl. by apply list_lookup_insert_eq. Qed.

Lemma with_block_twice s r b b' :
  with_block (with_block s r b) r b' = with_block s r b'.
Proof. unfold with_block; simpl. by rewrite list_insert_insert_eq. Qed.

Lemma with_block_same s r b : block_objs s !! r = Some b → with_block s r b = s.
Proof. intros H. unfold with_block. rewrite list_insert_id by done. by destruct s. Qed.

Lemma update_block_with s r f b :
  block_objs s !! r = Some b → update_block r f s = (Ok tt, with_block s r (f b)).
Proof. apply update_block_Some. Qed.

Lemma Board_check_legal board s g self b :
  grid s (bitmap board) = Some g → full_size g →
  block_objs s !! self = Some b →
  Board_check board self s = Ok (legal g b).
Proof. apply Board_check_full_size. Qed.

Lemma fall_loop board self g limit :
  full_size g →
  ∀ fuel s b,
    limit < fuel →
    grid s (bitmap board) = Some g →
    block_objs s !! self = Some b →
    legal g b = true → offsets b ≠ [] →
    (Board_rows - Point_i (first_square b) ≤ Z.of_nat limit)%Z →
    while fuel (read (Board_check board self)) (λ _, Block_down self) tt s =
    (Ok tt, with_block s self (shift 1 0 (fall g b limit))).
Proof.
  intros Hfull. induction limit as [|limit IH]; intros fuel s b Hfuel Hg Hb Hlegal Hne Hrow.
  - destruct (legal_first_square _ _ Hlegal Hne) as [? _]. lia.
  - pose proof (lookup_lt_Some _ _ _ Hb) as Hlt.
    destruct fuel as [|fuel]; [lia|]. cbn [while].
    rewrite M_bind_unfold. unfold read at 1.
    rewrite (Board_check_legal _ _ _ _ _ Hg Hfull Hb), Hlegal.
    rewrite M_bind_unfold. unfold Block_down at 1.
    rewrite (update_block_with _ _ _ _ Hb).
    cbn [fall]. destruct (legal g (shift 1 0 b)) eqn:Hnext.
    + rewrite (IH fuel (with_block s self (shift 1 0 b)) (shift 1 0 b)); try done.
      * by rewrite with_block_twice.
      * lia.
      * by apply with_block_lookup.
      * rewrite first_square_shift by done. simpl. lia.
    + destruct fuel as [|fuel]; [lia|]. cbn [while].
      rewrite M_bind_unfold. unfold read at 1.
      rewrite (Board_check_legal board _ g self (shift 1 0 b)); [|done|done|].
      * by rewrite Hnext.
      * by apply with_block_lookup.
Qed.

Lemma fall_legal g b limit : legal g b = true → legal g (fall g b limit) = true.
Proof.
  revert b. induction limit as [|limit IH]; intros b Hb; [done|].
  simpl. destruct (legal g (shift 1 0 b)) eqn:E; [by apply IH|done].
Qed.

Lemma fall_fixed g b limit :
  center (fall g b limit) = center b ∧ offsets (fall g b limit) = offsets b
  ∧ rotation (fall g b limit) = rotation b.
Proof.
  revert b. induction limit as [|limit IH]; intros b; [done|].
  simpl. destruct (legal g (shift 1 0 b)); [|done]. apply (IH (shift 1 0 b)).
Qed.

(** ** Commit: the copy and the marks *)

Lemma copy_rows_spec bm :
  ∀ s g, grid s bm = Some g →
    copy_rows bm s =
    (Ok (seq (length (row_objs s)) (length g)), with_rows s (row_objs s ++ g)).
Proof.
  induction bm as [|r bm IH]; intros s g Hg.
  - injection Hg as <-. simpl. unfold mret, M_ret, with_rows.
    rewrite app_nil_r. by destruct s.
  - apply grid_cons_inv in Hg as (row & g' & -> & Hr & Hg').
    cbn [copy_rows]. rewrite M_bind_unfold. unfold read at 1, get_row. rewrite Hr.
    rewrite M_bind_unfold. unfold alloc_row at 1.
    rewrite M_bind_unfold.
    change (mkState (row_objs s ++ [row]) (block_objs s) (stdout s))
      with (with_rows s (row_objs s ++ [row])).
    rewrite (IH (with_rows s (row_objs s ++ [row])) g') by (by apply grid_extend).
    unfold mret, M_ret, with_rows; simpl.
    rewrite length_app, <- (assoc_L (++)). simpl.
    by replace (length (row_objs s) + 1) with (S (length (row_objs s))) by lia.
Qed.

Lemma length_mark_cell g square : length (mark_cell g square) = length g.
Proof. unfold mark_cell. destruct (g !! _); [by rewrite length_insert|done]. Qed.

Lemma full_size_mark_cell g square : full_size g → full_size (mark_cell g square).
Proof.
  intros [Hrows Hcols]. split; [by rewrite length_mark_cell|].
  unfold mark_cell. destruct (g !! _) as [row|] eqn:E; [|done].
  apply Forall_insert; [done|]. rewrite length_insert.
  by apply (Forall_lookup_1 _ _ _ _ Hcols E).
Qed.

Lemma full_size_marked g squares : full_size g → full_size (marked g squares).
Proof.
  revert g. induction squares as [|sq rest IH]; intros g Hg; [done|].
  apply IH. by apply full_size_mark_cell.
Qed.

Lemma mark_spec s pre g square :
  row_objs s = pre ++ g → full_size g → outside square = false →
  mark (seq (length pre) (length g)) square s =
  (Ok tt, with_rows s (pre ++ mark_cell g square)).
Proof.
  intros Hs Hfull Hin.
  destruct (full_size_lookup _ _ Hfull Hin) as (Hi & Hj & row & v & Hrow & Hv).
  pose proof (lookup_lt_Some _ _ _ Hrow) as Hilt.
  pose proof (lookup_lt_Some _ _ _ Hv) as Hjlt.
  unfold mark. rewrite M_bind_unfold. unfold read at 1.
  rewrite (py_index_in_range _ _ (length pre + Z.to_nat (Point_i square)));
    [|lia|by apply lookup_seq].
  unfold set_cell. rewrite Hs, lookup_app_r by lia.
  replace (length pre + Z.to_nat (Point_i square) - length pre)
    with (Z.to_nat (Point_i square)) by lia.
  rewrite Hrow, py_norm_in_range by lia.
  unfold with_rows, mark_cell. rewrite Hrow. do 2 f_equal.
  rewrite insert_app_r_alt by lia. do 2 f_equal. lia.
Qed.

Lemma mark_loop squares :
  ∀ s pre g,
    row_objs s = pre ++ g → full_size g →
    Forall (λ square, outside square = false) squares →
    for_each squares (λ square _, mark (seq (length pre) (length g)) square) tt s =
    (Ok tt, with_rows s (pre ++ marked g squares)).
Proof.
  induction squares as [|sq rest IH]; intros s pre g Hs Hfull Hin.
  - simpl. unfold mret, M_ret, with_rows. rewrite <- Hs. by destruct s.
  - apply Forall_cons in Hin as [Hsq Hrest].
    cbn [for_each]. rewrite M_bind_unfold, (mark_spec _ _ _ _ Hs Hfull Hsq).
    rewrite <- (length_mark_cell g sq).
    rewrite (IH (with_rows s (pre ++ mark_cell g sq)) pre (mark_cell g sq));
      [done|done|by apply full_size_mark_cell|done].
Qed.

Lemma legal_inside g b :
  legal g b = true → Forall (λ square, outside square = false) (squares_of b).
Proof.
  unfold legal. intros H. apply Forall_forall. intros sq Hsq%list_elem_of_In.
  apply free_cell_inside with g. by apply (proj1 (forallb_forall _ _) H).
Qed.

Lemma full_size_nonempty g : full_size g → g ≠ [].
Proof. intros [Hrows _] ->. done. Qed.

Lemma full_size_cleared g : full_size g → full_size (cleared g).
Proof.
  intros Hfull. pose proof Hfull as [Hrows Hcols]. split.
  - by rewrite length_cleared.
  - apply Forall_cleared; [done|]. rewrite length_replicate.
    destruct g as [|first g]; [done|]. by apply Forall_cons in Hcols as [? _].
Qed.

(** ** Commit *)

(** [place] on a full-size board whose block has a cell and is in a legal
    pose, with fuel for 33 rows: the store only grows, the block ends in
    the dropped pose, the new bitmap is made of new row objects and
    denotes the committed grid; with an empty preview list the message is
    printed and [None] returned. *)
Lemma Board_place_spec fuel board s g b :
  33 < fuel →
  grid s (bitmap board) = Some g → full_size g →
  block_objs s !! block board = Some b → offsets b ≠ [] → legal g b = true →
  ∃ bm' ext s',
    Board_place fuel board s =
      (Ok match preview board with
          | [] => None
          | next :: rest => Some (mkBoard bm' next rest)
          end, s')
    ∧ row_objs s' = row_objs s ++ ext
    ∧ block_objs s' = <[block board := dropped g b]> (block_objs s)
    ∧ stdout s' = stdout s ++ match preview board with
                              | [] => [no_preview_message]
                              | _ => []
                              end
    ∧ grid s' bm' = Some (committed g b)
    ∧ Forall (λ r, length (row_objs s) ≤ r) bm'.
Proof.
  intros Hfuel Hg Hfull Hb Hne Hlegal.
  pose proof (lookup_lt_Some _ _ _ Hb) as Hlt.
  set (d := dropped g b).
  assert (legal g d = true) as Hd by (by apply fall_legal).
  set (s2 := with_block s (block board) d).
  assert (grid s2 (bitmap board) = Some g) as Hg2 by exact Hg.
  set (s3 := with_rows s2 (row_objs s ++ g)).
  set (g' := marked g (squares_of d)).
  assert (full_size g') as Hfull' by (by apply full_size_marked).
  assert (length g' = length g) as Hlen.
  { destruct Hfull as [H1 _], Hfull' as [H2 _]. lia. }
  set (s4 := with_rows s3 (row_objs s ++ g')).
  assert (grid s4 (seq (length (row_objs s)) (length g)) = Some g') as Hg4.
  { rewrite <- Hlen. by apply grid_fresh. }
  destruct (Board_remove_rows_spec _ _ _ Hg4 (full_size_nonempty _ Hfull'))
    as (bm' & ext & Hremove & Hgrid & Hfresh).
  exists bm', (g' ++ ext).
  unfold Board_place. rewrite M_bind_unfold.
  rewrite (fall_loop board (block board) g 33 Hfull fuel s b); try done; cycle 1.
  { destruct (legal_first_square _ _ Hlegal Hne) as [? _]. unfold Board_rows in *. lia. }
  rewrite M_bind_unfold. unfold Block_up at 1.
  rewrite (update_block_with _ _ _ (shift 1 0 (fall g b 33)))
    by (by apply with_block_lookup).
  rewrite with_block_twice, shift_shift, shift_zero. fold (dropped g b). fold d. fold s2.
  rewrite M_bind_unfold, (copy_rows_spec _ _ _ Hg2).
  change (row_objs s2) with (row_objs s). fold s3.
  rewrite M_bind_unfold. unfold read at 1, Block_squares, get_block.
  change (block_objs s3) with (<[block board := d]> (block_objs s)).
  rewrite list_lookup_insert_eq by done. simpl mbind at 1.
  change (mret (squares_of d)) with (Ok (squares_of d)). cbv iota.
  rewrite M_bind_unfold.
  rewrite (mark_loop _ s3 (row_objs s) g eq_refl Hfull (legal_inside _ _ Hd)).
  fold g'. fold s4.
  rewrite M_bind_unfold, Hremove.
  assert (Forall (λ r, length (row_objs s) ≤ r) bm') as Hbm'.
  { apply Forall_forall. intros r Hr. destruct (Hfresh r Hr) as [Hin|Hge].
    - apply elem_of_seq in Hin. lia.
    - simpl in Hge. rewrite length_app in Hge. lia. }
  destruct (preview board) as [|next rest].
  - eexists. split; [reflexivity|]. simpl.
    rewrite <- (assoc_L (++)). repeat split; try done.
    eapply grid_agree; [exact Hgrid|]. intros r row _ Hr. simpl in *.
    by rewrite <- (assoc_L (++)) in Hr.
  - eexists. split; [reflexivity|]. simpl.
    rewrite <- (assoc_L (++)), app_nil_r. repeat split; try done.
    eapply grid_agree; [exact Hgrid|]. intros r row _ Hr. simpl in *.
    by rewrite <- (assoc_L (++)) in Hr.
Qed.

(** Without a cell the drop loop never ends: the check of a block with no
    squares is true in every pose. *)
Lemma drop_loop_without_cells board self fuel :
  ∀ s b, block_objs s !! self = Some b → offsets b = [] →
    (while fuel (read (Board_check board self)) (λ _, Block_down self) tt s).1 =
    Fail OutOfFuel.
Proof.
  induction fuel as [|fuel IH]; intros s b Hb Hnil; [done|].
  cbn [while]. rewrite M_bind_unfold. unfold read at 1, Board_check, Block_squares, get_block.
  rewrite Hb. simpl mbind at 1. rewrite (proj2 (squares_of_nil b) Hnil).
  cbn [check_squares]. rewrite M_bind_unfold. unfold Block_down at 1.
  rewrite (update_block_with _ _ _ _ Hb).
  apply (IH _ (shift 1 0 b)); [|done].
  apply with_block_lookup. by eapply lookup_lt_Some.
Qed.

Lemma Board_place_without_cells fuel board s b :
  block_objs s !! block board = Some b → offsets b = [] →
  (Board_place fuel board s).1 = Fail OutOfFuel.
Proof.
  intros Hb Hnil. pose proof (drop_loop_without_cells board (block board) fuel s b Hb Hnil).
  unfold Board_place. rewrite M_bind_unfold.
  destruct (while fuel _ _ tt s) as [[[]|f] s']; simpl in *; [done|congruence].
Qed.

Lemma full_size_empty_rows : full_size empty_rows.
Proof. split; [reflexivity|]. apply Forall_replicate. reflexivity. Qed.

Lemma Board_check_true_legal board s g b :
  grid s (bitmap board) = Some g → full_size g →
  block_objs s !! block board = Some b →
  Board_check board (block board) s = Ok true → legal g b = true.
Proof.
  intros Hg Hfull Hb Hcheck.
  rewrite (Board_check_legal _ _ _ _ _ Hg Hfull Hb) in Hcheck. by injection Hcheck.
Qed.

(** C2 (as amended).  On a full-size board whose block has a cell and is
    in a legal pose, [place] returns with fuel for 33 rows.  With an empty
    preview list it prints a message and returns [None]: a value, not an
    exception.  With a preview list [next :: rest] it returns a board
    whose block is [next] and whose preview list is [rest], and prints
    nothing. *)
Theorem Board_place_preview fuel board s g b :
  33 < fuel →
  grid s (bitmap board) = Some g → full_size g →
  block_objs s !! block board = Some b → offsets b ≠ [] →
  Board_check board (block board) s = Ok true →
  ∃ s',
    match preview board with
    | [] =>
        Board_place fuel board s = (Ok None, s')
        ∧ stdout s' = stdout s ++ [no_preview_message]
    | next :: rest =>
        ∃ new_bitmap,
          Board_place fuel board s = (Ok (Some (mkBoard new_bitmap next rest)), s')
          ∧ stdout s' = stdout s
    end.
Proof.
  intros Hfuel Hg Hfull Hb Hne Hcheck.
  pose proof (Board_check_true_legal _ _ _ _ Hg Hfull Hb Hcheck) as Hlegal.
  destruct (Board_place_spec _ _ _ _ _ Hfuel Hg Hfull Hb Hne Hlegal)
    as (bm' & ext & s' & Hrun & _ & _ & Hout & _).
  exists s'. destruct (preview board) as [|next rest].
  - done.
  - exists bm'. by rewrite app_nil_r in Hout.
Qed.

Lemma Board_place_preview_witness :
  ∃ s' new_bitmap,
    Board_place 34 example_board example_state = (Ok (Some (mkBoard new_bitmap 1 [])), s')
    ∧ stdout s' = [].
Proof.
  destruct (Board_place_preview 34 example_board example_state empty_rows unit_block)
    as (s' & new_bitmap & H).
  - lia.
  - reflexivity.
  - exact full_size_empty_rows.
  - reflexivity.
  - discriminate.
  - vm_compute. reflexivity.
  - exists s', new_bitmap. exact H.
Defined.

(** C2 as stated fails: with an empty preview list [place] raises nothing;
    it prints the message and returns [None]. *)
Lemma Board_place_empty_preview_returns_None :
  (Board_place 34 last_board example_state).1 = Ok None
  ∧ stdout (Board_place 34 last_board example_state).2 = [no_preview_message].
Proof. split; vm_compute; reflexivity. Qed.

(** C9.  On a full-size board whose block has a cell and is in a legal
    pose, with a non-empty preview list, [place] returns a board whose
    bitmap denotes the grid with the cells of the dropped block set and
    the full rows removed.  That bitmap shares no row object with the
    bitmap of the original board, no row object that existed before the
    call has changed, and the original bitmap denotes the grid it denoted
    before. *)
Theorem Board_place_frame fuel board s g b :
  33 < fuel →
  grid s (bitmap board) = Some g → full_size g →
  block_objs s !! block board = Some b → offsets b ≠ [] →
  Board_check board (block board) s = Ok true →
  preview board ≠ [] →
  ∃ new_board s',
    Board_place fuel board s = (Ok (Some new_board), s')
    ∧ grid s' (bitmap new_board) =
        Some (cleared (marked g (squares_of (dropped g b))))
    ∧ (∀ r, r ∈ bitmap new_board → r ∉ bitmap board)
    ∧ row_objs s `prefix_of` row_objs s'
    ∧ grid s' (bitmap board) = Some g.
Proof.
  intros Hfuel Hg Hfull Hb Hne Hcheck Hpreview.
  pose proof (Board_check_true_legal _ _ _ _ Hg Hfull Hb Hcheck) as Hlegal.
  destruct (Board_place_spec _ _ _ _ _ Hfuel Hg Hfull Hb Hne Hlegal)
    as (bm' & ext & s' & Hrun & Hrows & _ & _ & Hgrid & Hfresh).
  destruct (preview board) as [|next rest]; [done|].
  exists (mkBoard bm' next rest), s'. split; [done|]. split; [done|].
  split; [|split].
  - intros r Hnew Hold. simpl in Hnew.
    pose proof (proj1 (Forall_forall _ _) Hfresh r Hnew) as Hge.
    apply list_elem_of_lookup in Hold as [k Hk].
    apply grid_Forall2 in Hg.
    destruct (Forall2_lookup_l _ _ _ _ _ Hg Hk) as (row & _ & Hrow).
    apply lookup_lt_Some in Hrow. simpl in Hge. lia.
  - rewrite Hrows. by apply prefix_app_r.
  - eapply grid_agree; [exact Hg|]. intros r row _ Hr. rewrite Hrows.
    by apply lookup_app_l_Some.
Qed.

Lemma Board_place_frame_witness :
  ∃ new_board s',
    Board_place 34 example_board example_state = (Ok (Some new_board), s')
    ∧ grid s' (bitmap new_board) =
        Some (cleared (marked empty_rows (squares_of (dropped empty_rows unit_block))))
    ∧ (∀ r, r ∈ bitmap new_board → r ∉ bitmap example_board)
    ∧ row_objs example_state `prefix_of` row_objs s'
    ∧ grid s' (bitmap example_board) = Some empty_rows.
Proof.
  apply (Board_place_frame 34 example_board example_state empty_rows unit_block).
  - lia.
  - reflexivity.
  - exact full_size_empty_rows.
  - reflexivity.
  - discriminate.
  - vm_compute. reflexivity.
  - discriminate.
Defined.

(** ** Witnesses on the example boards *)

Lemma Board_check_total_witness :
  (∃ legal, Board_check example_board 0 example_state = Ok legal)
  ∧ ∀ square, square ∈ squares_of unit_block → outside square = false →
      (0 ≤ Point_i square < Z.of_nat (length empty_rows))%Z
      ∧ ∃ row v, empty_rows !! Z.to_nat (Point_i square) = Some row
          ∧ (0 ≤ Point_j square < Z.of_nat (length row))%Z
          ∧ row !! Z.to_nat (Point_j square) = Some v
          ∧ cell example_board (Point_i square) (Point_j square) example_state = Ok v.
Proof.
  apply (Board_check_total example_board example_state empty_rows 0 unit_block).
  - reflexivity.
  - exact full_size_empty_rows.
  - reflexivity.
Defined.

Lemma Board_remove_rows_correct_witness :
  ∃ bm' s' g',
    Board_remove_rows [0; 1] two_rows_state = (Ok bm', s')
    ∧ grid s' bm' = Some g'
    ∧ g' = [[0; 0]; [0; 1]]%Z
    ∧ length g' = 2
    ∧ Forall (λ row, length row = 2) g'
    ∧ grid s' [0; 1] = Some [[1; 1]; [0; 1]]%Z.
Proof.
  apply (Board_remove_rows_correct two_rows_state [0; 1] [[1; 1]; [0; 1]]%Z 2).
  - reflexivity.
  - discriminate.
  - repeat constructor.
Defined.

Lemma Board_remove_rows_idempotent_witness :
  denote ((Board_remove_rows [0; 1] ≫= Board_remove_rows) two_rows_state) =
  denote (Board_remove_rows [0; 1] two_rows_state).
Proof.
  exact (Board_remove_rows_idempotent two_rows_state [0; 1] [[1; 1]; [0; 1]]%Z eq_refl).
Defined.

(** ** The heuristic is total on a full-size grid *)

Lemma for_each_outcome_inv {A B} (P : B → Prop) (xs : list A) (body : A → B → outcome B) acc :
  (∀ x a, x ∈ xs → P a → ∃ a', body x a = Ok a' ∧ P a') →
  P acc → ∃ a', for_each xs body acc = Ok a' ∧ P a'.
Proof.
  revert acc. induction xs as [|x xs IH]; intros acc Hbody Hacc.
  - exists acc. done.
  - destruct (Hbody x acc) as (a1 & Hx & Ha1); [left|done|].
    cbn [for_each]. rewrite Hx. simpl. apply IH; [|done].
    intros y a Hy. apply Hbody. by right.
Qed.

Lemma outcome_bind_Ok {A B} (a : A) (f : A → outcome B) : (Ok a ≫= f) = f a.
Proof. reflexivity. Qed.

Section heuristic_total.
Variables (self : Board) (s : State) (g : list (list Z)).
Hypothesis Hg : grid s (bitmap self) = Some g.
Hypothesis Hfull : full_size g.

Lemma full_size_nat : length g = 33 ∧ Forall (λ row, length row = 12) g.
Proof.
  destruct Hfull as [Hrows Hcols]. unfold Board_rows, Board_cols in *. split; [lia|].
  eapply Forall_impl; [exact Hcols|]. simpl. intros row Hrow. lia.
Qed.

Lemma Board_size_full : Board_size self s = Ok (33, 12).
Proof.
  destruct full_size_nat as [Hrows Hcols].
  destruct (lookup_lt_is_Some_2 g 0) as [first Hfirst]; [lia|].
  destruct (grid_lookup _ _ _ _ _ Hg Hfirst) as (r & Hr & Hobj).
  unfold Board_size. rewrite (py_index_in_range _ 0 r); [|lia|done]. simpl.
  unfold get_row. rewrite Hobj. simpl.
  rewrite <- (grid_length _ _ _ Hg), Hrows.
  by rewrite (Forall_lookup_1 _ _ _ _ Hcols Hfirst).
Qed.

Lemma cell_full (row col : nat) :
  row < 33 → col < 12 → ∃ v, cell self (Z.of_nat row) (Z.of_nat col) s = Ok v.
Proof.
  intros Hrow Hcol. destruct full_size_nat as [Hrows Hcols].
  destruct (lookup_lt_is_Some_2 g row) as [cells Hcells]; [lia|].
  pose proof (Forall_lookup_1 _ _ _ _ Hcols Hcells) as Hlen. simpl in Hlen.
  destruct (lookup_lt_is_Some_2 cells col) as [v Hv]; [lia|].
  exists v. eapply cell_in_range; [done|lia|lia| |]; by rewrite Nat2Z.id.
Qed.

Lemma Board_num_holes_total : ∃ holes, Board_num_holes self s = Ok holes.
Proof.
  unfold Board_num_holes. rewrite Board_size_full, outcome_bind_Ok. cbv beta iota.
  destruct (for_each_outcome_inv (λ acc : Z * list Z, length acc.2 = 12) (seq 0 33)
    (λ row acc,
      for_each (seq 0 12) (λ col '(holes, column_occupied),
        v ← cell self (Z.of_nat row) (Z.of_nat col) s;
        if (v =? 0)%Z then
          occupied ← py_index column_occupied (Z.of_nat col);
          mret (if truthy occupied then (holes + 1)%Z else holes, column_occupied)
        else
          occupied ← py_index column_occupied (Z.of_nat col);
          mret (holes, <[col := (occupied + 1)%Z]> column_occupied))
      acc)
    (0%Z, replicate 12 0%Z)) as ([holes occ] & Hrun & _).
  - intros row acc Hrow%elem_of_seq Hacc.
    apply for_each_outcome_inv; [|done].
    intros col [holes occ] Hcol%elem_of_seq Hocc. simpl in Hocc.
    destruct (cell_full row col) as [v Hv]; [lia|lia|]. rewrite Hv. simpl.
    destruct (lookup_lt_is_Some_2 occ col) as [o Ho]; [lia|].
    rewrite (py_index_in_range occ (Z.of_nat col) o) by (by rewrite ?Nat2Z.id; try lia).
    destruct (v =? 0)%Z; simpl; eexists; (split; [reflexivity|]); simpl; [done|].
    by rewrite length_insert.
  - reflexivity.
  - rewrite Hrun. by exists holes.
Qed.

Lemma col_height_scan_total (col : nat) todo :
  col < 12 → Forall (λ row, row < 33) todo →
  ∃ h, col_height_scan self (Z.of_nat col) 33 todo s = Ok h.
Proof.
  intros Hcol. induction todo as [|row rest IH]; intros Hrows.
  - by exists 0%Z.
  - apply Forall_cons in Hrows as [Hrow Hrest].
    destruct (cell_full row col) as [v Hv]; [done|done|].
    cbn [col_height_scan]. rewrite Hv. simpl.
    destruct (negb (v =? 0)%Z); [by eexists|by apply IH].
Qed.

Lemma Board_col_height_total (col : nat) :
  col < 12 → ∃ h, Board_col_height self (Z.of_nat col) s = Ok h.
Proof.
  intros Hcol. unfold Board_col_height. rewrite Board_size_full, outcome_bind_Ok. cbv beta iota.
  apply col_height_scan_total; [done|].
  apply Forall_forall. intros row Hrow%elem_of_seq. lia.
Qed.

Lemma Board_max_height_total : ∃ h, Board_max_height self s = Ok h.
Proof.
  unfold Board_max_height. rewrite Board_size_full, outcome_bind_Ok. cbv beta iota.
  destruct (for_each_outcome_inv (λ _ : Z, True) (seq 0 12)
    (λ col m_height,
       h ← Board_col_height self (Z.of_nat col) s; mret (Z.max m_height h)) 0%Z)
    as (h & Hrun & _); [|done|by exists h].
  intros col m Hcol%elem_of_seq _.
  destruct (Board_col_height_total col) as [h Hh]; [lia|]. rewrite Hh. by eexists.
Qed.

Lemma Board_height_variance_total : ∃ v, Board_height_variance self s = Ok v.
Proof.
  unfold Board_height_variance. rewrite Board_size_full, outcome_bind_Ok. cbv beta iota.
  destruct (Board_col_height_total 0) as [prev Hprev]; [lia|].
  change (Z.of_nat 0) with 0%Z in Hprev. rewrite Hprev, outcome_bind_Ok.
  destruct (for_each_outcome_inv (λ _ : Z * Z, True) (seq 0 12)
    (λ col '(variance, prev),
       cur ← Board_col_height self (Z.of_nat col) s;
       mret ((variance + Z.abs (cur - prev))%Z, cur)) (0%Z, prev))
    as ([v p] & Hrun & _); [|done|rewrite Hrun; by exists v].
  intros col [v p] Hcol%elem_of_seq _.
  destruct (Board_col_height_total col) as [h Hh]; [lia|]. rewrite Hh. by eexists.
Qed.

Lemma Board_evaluate_total : ∃ score, Board_evaluate self s = Ok score.
Proof.
  unfold Board_evaluate.
  destruct Board_num_holes_total as [holes ->].
  destruct Board_max_height_total as [height ->].
  destruct Board_height_variance_total as [variance ->].
  by eexists.
Qed.

End heuristic_total.

(** ** The probing loops of the search *)

Lemma primitive_step d self s b :
  block_objs s !! self = Some b →
  primitive d self s = (Ok tt, with_block s self (step d b)).
Proof. intros Hb. destruct d; by apply update_block_with. Qed.

(** A checked move on a full-size board moves the block exactly when the
    moved pose is legal. *)
Lemma checked_move_spec d board self s g b :
  grid s (bitmap board) = Some g → full_size g →
  block_objs s !! self = Some b →
  checked_move d self board s =
  (Ok (legal g (step d b)), if legal g (step d b) then with_block s self (step d b) else s).
Proof.
  intros Hg Hfull Hb. pose proof (lookup_lt_Some _ _ _ Hb) as Hlt.
  assert (∀ f f' : Block → Block, f' (step d b) = b → f = step d →
    (update_block self f;;
     ok ← read (Board_check board self);
     if ok : bool then mret true else update_block self f';; mret false) s =
    (Ok (legal g (step d b)),
     if legal g (step d b) then with_block s self (step d b) else s)) as Hshape.
  { intros f f' Hinv ->. rewrite M_bind_unfold, (update_block_with _ _ _ _ Hb).
    rewrite M_bind_unfold. unfold read at 1.
    rewrite (Board_check_legal board _ g self (step d b));
      [|done|done|by apply with_block_lookup].
    destruct (legal g (step d b)); [done|].
    rewrite M_bind_unfold, (update_block_with _ _ _ (step d b))
      by (by apply with_block_lookup).
    by rewrite with_block_twice, Hinv, with_block_same. }
  destruct d; apply Hshape; try done; simpl;
    rewrite ?shift_shift, ?turn_turn; first [apply shift_zero|apply turn_zero].
Qed.

Section probe_loop.
Variables (board : Board) (g : list (list Z)) (d : direction) (tok : string).
Variables (measure : Block → Z) (bound : nat).
Hypothesis Hfull : full_size g.
Hypothesis measure_legal :
  ∀ b, legal g b = true → offsets b ≠ [] → (0 ≤ measure b ≤ Z.of_nat bound)%Z.
Hypothesis measure_step :
  ∀ b, offsets b ≠ [] → measure (step d b) = (measure b - 1)%Z.
Hypothesis offsets_step : ∀ b, offsets (step d b) = offsets b.

Lemma probe_loop_bounded m :
  ∀ fuel s b acc,
    m < fuel →
    grid s (bitmap board) = Some g →
    block_objs s !! block board = Some b → offsets b ≠ [] →
    (measure b ≤ Z.of_nat m)%Z →
    ∃ n b',
      while fuel (checked_move d (block board) board) (λ moves, mret (moves ++ [tok])) acc s =
      (Ok (acc ++ replicate n tok), with_block s (block board) b')
      ∧ offsets b' = offsets b.
Proof.
  induction m as [|m IH]; intros fuel s b acc Hfuel Hg Hb Hne Hm;
    (destruct fuel as [|fuel]; [lia|]); cbn [while];
    rewrite M_bind_unfold, (checked_move_spec _ _ _ _ _ _ Hg Hfull Hb);
    destruct (legal g (step d b)) eqn:Hnext.
  - assert (offsets (step d b) ≠ []) as Hne' by (by rewrite offsets_step).
    pose proof (measure_legal _ Hnext Hne'). rewrite measure_step in * by done. lia.
  - exists 0, b. by rewrite app_nil_r, with_block_same.
  - assert (offsets (step d b) ≠ []) as Hne' by (by rewrite offsets_step).
    pose proof (lookup_lt_Some _ _ _ Hb) as Hlt.
    destruct (IH fuel (with_block s (block board) (step d b)) (step d b) (acc ++ [tok]))
      as (n & b' & Hrun & Hoff); try done.
    + lia.
    + by apply with_block_lookup.
    + rewrite measure_step by done. lia.
    + exists (S n), b'. split; [|by rewrite Hoff, offsets_step].
      rewrite with_block_twice, <- (assoc_L (++)) in Hrun. exact Hrun.
  - exists 0, b. by rewrite app_nil_r, with_block_same.
Qed.

Lemma probe_loop_total fuel s b acc :
  S bound < fuel →
  grid s (bitmap board) = Some g →
  block_objs s !! block board = Some b → offsets b ≠ [] →
  ∃ n b',
    while fuel (checked_move d (block board) board) (λ moves, mret (moves ++ [tok])) acc s =
    (Ok (acc ++ replicate n tok), with_block s (block board) b')
    ∧ offsets b' = offsets b.
Proof.
  intros Hfuel Hg Hb Hne. destruct fuel as [|fuel]; [lia|]. cbn [while].
  rewrite M_bind_unfold, (checked_move_spec _ _ _ _ _ _ Hg Hfull Hb).
  destruct (legal g (step d b)) eqn:Hnext.
  - assert (offsets (step d b) ≠ []) as Hne' by (by rewrite offsets_step).
    pose proof (lookup_lt_Some _ _ _ Hb) as Hlt.
    destruct (probe_loop_bounded bound fuel (with_block s (block board) (step d b))
                (step d b) (acc ++ [tok])) as (n & b' & Hrun & Hoff); try done.
    + lia.
    + by apply with_block_lookup.
    + by apply measure_legal.
    + exists (S n), b'. split; [|by rewrite Hoff, offsets_step].
      rewrite with_block_twice, <- (assoc_L (++)) in Hrun. exact Hrun.
  - exists 0, b. by rewrite app_nil_r, with_block_same.
Qed.

End probe_loop.

Lemma left_loop fuel board g s b acc :
  33 < fuel → full_size g →
  grid s (bitmap board) = Some g →
  block_objs s !! block board = Some b → offsets b ≠ [] →
  ∃ n b',
    while fuel (Block_checked_left (block board) board) (λ moves, mret (moves ++ ["left"]))
          acc s =
    (Ok (acc ++ replicate n "left"), with_block s (block board) b')
    ∧ offsets b' = offsets b.
Proof.
  intros Hfuel Hfull Hg Hb Hne.
  apply (probe_loop_total board g Left "left" (λ b, Point_j (first_square b)) 11);
    try done; try lia.
  - intros b0 Hlegal Hne0. destruct (legal_first_square _ _ Hlegal Hne0) as [_ Hj].
    unfold Board_cols in Hj. lia.
  - intros b0 Hne0. simpl. rewrite first_square_shift by done. simpl. lia.
Qed.

Lemma down_loop fuel board g s b acc :
  33 < fuel → full_size g →
  grid s (bitmap board) = Some g →
  block_objs s !! block board = Some b → offsets b ≠ [] →
  ∃ n b',
    while fuel (Block_checked_down (block board) board) (λ moves, mret (moves ++ ["down"]))
          acc s =
    (Ok (acc ++ replicate n "down"), with_block s (block board) b')
    ∧ offsets b' = offsets b.
Proof.
  intros Hfuel Hfull Hg Hb Hne.
  apply (probe_loop_total board g Down "down" (λ b, 32 - Point_i (first_square b))%Z 32);
    try done; try lia.
  - intros b0 Hlegal Hne0. destruct (legal_first_square _ _ Hlegal Hne0) as [Hi _].
    unfold Board_rows in Hi. lia.
  - intros b0 Hne0. simpl. rewrite first_square_shift by done. simpl. lia.
Qed.

(** ** The invariant of the search *)

Lemma search_inv_with_block board g offs out s b' :
  search_inv board g offs out s → offsets b' = offs →
  search_inv board g offs out (with_block s (block board) b').
Proof.
  intros (Hg & Hout & b & Hb & Hoff) Hoff'. split; [done|]. split; [done|].
  exists b'. split; [|done]. apply with_block_lookup. by eapply lookup_lt_Some.
Qed.

Lemma search_inv_grow board g offs out s s' ext b' :
  search_inv board g offs out s →
  row_objs s' = row_objs s ++ ext →
  block_objs s' = <[block board := b']> (block_objs s) →
  stdout s' = stdout s → offsets b' = offs →
  search_inv board g offs out s'.
Proof.
  intros (Hg & Hout & b & Hb & Hoff) Hrows Hblocks Hstdout Hoff'.
  split; [|split].
  - eapply grid_agree; [exact Hg|]. intros r row _ Hr. rewrite Hrows.
    by apply lookup_app_l_Some.
  - congruence.
  - exists b'. split; [|done]. rewrite Hblocks. apply list_lookup_insert_eq.
    by eapply lookup_lt_Some.
Qed.

(** ** The executor returns on a full-size board *)

Lemma offsets_step d b : offsets (step d b) = offsets b.
Proof. by destruct d. Qed.

Lemma is_step_tokens moves :
  Forall is_step moves → ∃ steps, moves = token ∘ Step <$> steps.
Proof.
  induction 1 as [|command moves [d ->] _ (steps & ->)].
  - by exists [].
  - by exists (d :: steps).
Qed.

Section executor_total.
Variables (fuel : nat) (board : Board) (g : list (list Z)).
Variables (offs : list Point) (out : list string) (next : block_ref) (rest : list block_ref).
Hypothesis Hfuel : 33 < fuel.
Hypothesis Hfull : full_size g.
Hypothesis Hoffs : offs ≠ [].
Hypothesis Hpreview : preview board = next :: rest.

Lemma run_commands_total steps :
  ∀ s b,
    search_inv board g offs out s →
    block_objs s !! block board = Some b → legal g b = true →
    ∃ s', search_inv board g offs out s'
      ∧ (run_commands fuel board ((token ∘ Step <$> steps) ++ ["drop"]) s =
           (Fail (Exn InvalidMoveError), s')
         ∨ ∃ bm' g',
             run_commands fuel board ((token ∘ Step <$> steps) ++ ["drop"]) s =
               (Ok (Some (mkBoard bm' next rest)), s')
             ∧ grid s' bm' = Some g' ∧ full_size g').
Proof.
  induction steps as [|d steps IH]; intros s b Hinv Hb Hlegal.
  - pose proof Hinv as (Hg & Hout & b0 & Hb0 & Hoff0).
    assert (b0 = b) as -> by congruence.
    assert (offsets b ≠ []) as Hne by congruence.
    destruct (Board_place_spec _ _ _ _ _ Hfuel Hg Hfull Hb Hne Hlegal)
      as (bm' & ext & s' & Hrun & Hrows & Hblocks & Hstdout & Hgrid & _).
    rewrite Hpreview in Hrun, Hstdout. rewrite app_nil_r in Hstdout.
    exists s'. split.
    + eapply search_inv_grow; [exact Hinv|done|done|done|].
      unfold dropped. by rewrite (proj1 (proj2 (fall_fixed g b 33))).
    + right. exists bm', (committed g b). split; [exact Hrun|]. split; [done|].
      by apply full_size_cleared, full_size_marked.
  - pose proof Hinv as (Hg & Hout & b0 & Hb0 & Hoff0).
    assert (b0 = b) as -> by congruence.
    pose proof (lookup_lt_Some _ _ _ Hb) as Hlt.
    assert (search_inv board g offs out (with_block s (block board) (step d b))) as Hinv1.
    { apply search_inv_with_block; [done|]. by rewrite offsets_step. }
    assert (run_commands fuel board ((token ∘ Step <$> d :: steps) ++ ["drop"]) s =
            if legal g (step d b)
            then run_commands fuel board ((token ∘ Step <$> steps) ++ ["drop"])
                   (with_block s (block board) (step d b))
            else (Fail (Exn InvalidMoveError), with_block s (block board) (step d b)))
      as ->.
    { rewrite fmap_cons, <- app_comm_cons. unfold compose at 1.
      rewrite run_commands_step, M_bind_unfold, (primitive_step _ _ _ _ Hb).
      rewrite M_bind_unfold. unfold read at 1.
      rewrite (Board_check_legal board _ g (block board) (step d b));
        [|done|done|by apply with_block_lookup].
      by destruct (legal g (step d b)). }
    destruct (legal g (step d b)) eqn:Hnext.
    + apply (IH _ (step d b)); [done|by apply with_block_lookup|done].
    + eexists. split; [exact Hinv1|]. by left.
Qed.

Lemma Board_do_commands_total moves s :
  Forall is_step moves →
  search_inv board g offs out s →
  ∃ s', search_inv board g offs out s'
    ∧ (Board_do_commands fuel board moves s = (Fail (Exn InvalidMoveError), s')
       ∨ ∃ bm' g',
           Board_do_commands fuel board moves s = (Ok (Some (mkBoard bm' next rest)), s')
           ∧ grid s' bm' = Some g' ∧ full_size g').
Proof.
  intros (steps & ->)%is_step_tokens Hinv.
  pose proof Hinv as (Hg & Hout & b & Hb & Hoff).
  pose proof (lookup_lt_Some _ _ _ Hb) as Hlt.
  set (b1 := mkBlock (center b) (offsets b) (mkPoint 0 0) 0).
  assert (search_inv board g offs out (with_block s (block board) b1)) as Hinv1.
  { by apply search_inv_with_block. }
  assert (Board_do_commands fuel board (token ∘ Step <$> steps) s =
          if legal g b1
          then run_commands fuel board ((token ∘ Step <$> steps) ++ ["drop"])
                 (with_block s (block board) b1)
          else (Fail (Exn InvalidMoveError), with_block s (block board) b1)) as ->.
  { unfold Board_do_commands, Block_reset_position.
    rewrite M_bind_unfold, (update_block_with _ _ _ _ Hb). fold b1.
    rewrite M_bind_unfold. unfold read at 1.
    rewrite (Board_check_legal board _ g (block board) b1);
      [|done|done|by apply with_block_lookup].
    by destruct (legal g b1). }
  destruct (legal g b1) eqn:Hspawn.
  - apply (run_commands_total steps _ b1); [done|by apply with_block_lookup|done].
  - eexists. split; [exact Hinv1|]. by left.
Qed.

Lemma attempt_total moves choices s :
  Forall is_step moves →
  search_inv board g offs out s →
  ∃ score s',
    attempt fuel board moves choices s =
      (Ok (record choices (mkProbe moves score), score), s')
    ∧ search_inv board g offs out s'.
Proof.
  intros Hmoves Hinv.
  destruct (Board_do_commands_total moves s Hmoves Hinv)
    as (s' & Hinv' & [Hrun|(bm' & g' & Hrun & Hg' & Hfull')]).
  - exists None, s'. split; [|done]. unfold attempt, try_except.
    rewrite M_bind_unfold, Hrun. done.
  - destruct (Board_evaluate_total (mkBoard bm' next rest) s' g' Hg' Hfull')
      as [score Hscore].
    exists (Some score), s'. split; [|done]. unfold attempt, try_except.
    rewrite M_bind_unfold, Hrun, M_bind_unfold. unfold read at 1. rewrite Hscore. done.
Qed.

End executor_total.

(** ** The loops of the search *)

Lemma is_step_replicate n d : Forall is_step (replicate n (token (Step d))).
Proof. apply Forall_replicate. by exists d. Qed.

Section search_total.
Variables (fuel : nat) (board : Board) (g : list (list Z)).
Variables (offs : list Point) (out : list string) (next : block_ref) (rest : list block_ref).
Hypothesis Hfuel : 33 < fuel.
Hypothesis Hfull : full_size g.
Hypothesis Hoffs : offs ≠ [].
Hypothesis Hpreview : preview board = next :: rest.

Lemma rotation_variant_total moves choices log s :
  Forall is_step moves →
  search_inv board g offs out s →
  ∃ score s',
    rotation_variant fuel board (moves, choices, log) s =
      (Ok (moves ++ ["rotate"],
           record choices (mkProbe (moves ++ ["rotate"]) score),
           log ++ [mkProbe (moves ++ ["rotate"]) score]), s')
    ∧ search_inv board g offs out s'.
Proof.
  intros Hmoves Hinv. pose proof Hinv as (Hg & Hout & b & Hb & Hoff).
  set (b1 := mkBlock (center b) (offsets b) (mkPoint 0 0) 0).
  assert (search_inv board g offs out (with_block s (block board) b1)) as Hinv1.
  { by apply search_inv_with_block. }
  assert (Forall is_step (moves ++ ["rotate"])) as Hmoves1.
  { apply Forall_app. split; [done|]. apply (is_step_replicate 1 Rotate). }
  destruct (attempt_total fuel board g offs out next rest Hfuel Hfull Hoffs Hpreview
              (moves ++ ["rotate"]) choices _ Hmoves1 Hinv1) as (score & s' & Hrun & Hinv').
  exists score, s'. split; [|done].
  unfold rotation_variant, Block_reset_position.
  rewrite M_bind_unfold, (update_block_with _ _ _ _ Hb). fold b1.
  rewrite M_bind_unfold, Hrun. done.
Qed.

Lemma rotation_variants_total moves choices log s :
  Forall is_step moves →
  search_inv board g offs out s →
  ∃ probes s',
    rotation_variants fuel board (moves, choices, log) s =
      (Ok (moves ++ replicate 3 "rotate", foldl record choices probes, log ++ probes), s')
    ∧ search_inv board g offs out s'
    ∧ Forall2 (λ r p, probe_moves p = moves ++ replicate (S r) "rotate") (seq 0 3) probes.
Proof.
  intros Hmoves Hinv.
  assert (∀ moves', Forall is_step moves' → Forall is_step (moves' ++ ["rotate"])) as Hrot.
  { intros moves' H. apply Forall_app. split; [done|]. apply (is_step_replicate 1 Rotate). }
  destruct (rotation_variant_total moves choices log s Hmoves Hinv)
    as (score1 & s1 & Hrun1 & Hinv1).
  destruct (rotation_variant_total _ (record choices (mkProbe (moves ++ ["rotate"]) score1))
              (log ++ [mkProbe (moves ++ ["rotate"]) score1]) s1 (Hrot _ Hmoves) Hinv1)
    as (score2 & s2 & Hrun2 & Hinv2).
  destruct (rotation_variant_total _
              (record (record choices (mkProbe (moves ++ ["rotate"]) score1))
                 (mkProbe ((moves ++ ["rotate"]) ++ ["rotate"]) score2))
              ((log ++ [mkProbe (moves ++ ["rotate"]) score1])
                 ++ [mkProbe ((moves ++ ["rotate"]) ++ ["rotate"]) score2])
              s2 (Hrot _ (Hrot _ Hmoves)) Hinv2)
    as (score3 & s3 & Hrun3 & Hinv3).
  exists [mkProbe (moves ++ ["rotate"]) score1;
          mkProbe ((moves ++ ["rotate"]) ++ ["rotate"]) score2;
          mkProbe (((moves ++ ["rotate"]) ++ ["rotate"]) ++ ["rotate"]) score3], s3.
  split; [|split; [done|]].
  - unfold rotation_variants. cbn [seq for_each].
    rewrite M_bind_unfold, Hrun1, M_bind_unfold, Hrun2, M_bind_unfold, Hrun3.
    unfold mret, M_ret. simpl foldl. by rewrite <- !(assoc_L (++)).
  - repeat constructor; simpl; by rewrite <- ?(assoc_L (++)).
Qed.

Lemma shift_round_total i choices log s :
  search_inv board g offs out s →
  ∃ probes s',
    shift_round fuel board i (choices, log) s =
      (Ok (foldl record choices probes, log ++ probes), s')
    ∧ search_inv board g offs out s'
    ∧ Forall2 (λ r p, candidate_shape i r (probe_moves p)) (seq 0 3) probes.
Proof.
  intros Hinv. pose proof Hinv as (Hg & Hout & b & Hb & Hoff).
  assert (offsets b ≠ []) as Hne by congruence.
  destruct (left_loop fuel board g s b [] Hfuel Hfull Hg Hb Hne)
    as (lefts & b1 & Hleft & Hoff1).
  assert (search_inv board g offs out (with_block s (block board) b1)) as Hinv1.
  { apply search_inv_with_block; [done|congruence]. }
  pose proof Hinv1 as (Hg1 & _ & _).
  assert (block_objs (with_block s (block board) b1) !! block board = Some b1) as Hb1.
  { apply with_block_lookup. by eapply lookup_lt_Some. }
  assert (offsets b1 ≠ []) as Hne1 by congruence.
  destruct (down_loop fuel board g _ b1
              (([] ++ replicate lefts "left") ++ replicate i "right")
              Hfuel Hfull Hg1 Hb1 Hne1)
    as (downs & b2 & Hdown & Hoff2).
  rewrite with_block_twice in Hdown.
  assert (search_inv board g offs out (with_block s (block board) b2)) as Hinv2.
  { apply search_inv_with_block; [done|congruence]. }
  set (moves := (([] ++ replicate lefts "left") ++ replicate i "right")
                ++ replicate downs "down") in *.
  assert (Forall is_step moves) as Hmoves.
  { unfold moves. repeat (apply Forall_app; split); [constructor| | |].
    - apply (is_step_replicate lefts Left).
    - apply (is_step_replicate i Right).
    - apply (is_step_replicate downs Down). }
  destruct (rotation_variants_total moves choices log _ Hmoves Hinv2)
    as (probes & s' & Hrun & Hinv' & Hshape).
  exists probes, s'. split; [|split; [done|]].
  - unfold shift_round. rewrite M_bind_unfold, Hleft, M_bind_unfold, Hdown.
    fold moves. rewrite M_bind_unfold, Hrun. done.
  - eapply Forall2_impl; [exact Hshape|]. intros r p ->.
    exists lefts, downs. unfold moves. simpl. by rewrite <- !(assoc_L (++)).
Qed.

Lemma shift_rounds_total shifts :
  ∀ choices log s,
    search_inv board g offs out s →
    ∃ probes s',
      for_each shifts (shift_round fuel board) (choices, log) s =
        (Ok (foldl record choices probes, log ++ probes), s')
      ∧ search_inv board g offs out s'
      ∧ Forall2 (λ v p, candidate_shape v.1 v.2 (probe_moves p))
                (list_prod shifts (seq 0 3)) probes.
Proof.
  induction shifts as [|i shifts IH]; intros choices log s Hinv.
  - exists [], s. rewrite app_nil_r. split; [done|]. split; [done|]. constructor.
  - destruct (shift_round_total i choices log s Hinv)
      as (probes1 & s1 & Hrun1 & Hinv1 & Hshape1).
    destruct (IH (foldl record choices probes1) (log ++ probes1) s1 Hinv1)
      as (probes2 & s2 & Hrun2 & Hinv2 & Hshape2).
    exists (probes1 ++ probes2), s2. split; [|split; [done|]].
    + cbn [for_each]. rewrite M_bind_unfold, Hrun1, Hrun2.
      by rewrite foldl_app, (assoc_L (++)).
    + cbn [list_prod]. apply Forall2_app; [|done].
      apply Forall2_fmap_l. eapply Forall2_impl; [exact Hshape1|]. done.
Qed.

End search_total.

(** ** The dict of choices *)

Lemma foldr_max_spec (k : Z) ks :
  foldr Z.max k ks ∈ k :: ks ∧ ∀ x, x ∈ k :: ks → (x ≤ foldr Z.max k ks)%Z.
Proof.
  induction ks as [|y ks [Hin Hmax]]; simpl.
  - split; [left|]. intros x Hx%list_elem_of_singleton. lia.
  - split.
    + destruct (Z.max_spec y (foldr Z.max k ks)) as [[_ ->]|[_ ->]].
      * apply elem_of_cons in Hin as [->|Hin]; [left|right; by right].
      * right. left.
    + intros x [->|[->|Hx]%elem_of_cons]%elem_of_cons.
      * pose proof (Hmax k ltac:(left)). lia.
      * lia.
      * pose proof (Hmax x ltac:(by right)). lia.
Qed.

Lemma elem_of_keys (m : gmap Z (list string)) k :
  k ∈ (map_to_list m).*1 ↔ is_Some (m !! k).
Proof.
  rewrite list_elem_of_fmap. split.
  - intros ([k' v] & -> & Hin). apply elem_of_map_to_list in Hin. by exists v.
  - intros [v Hv]. exists (k, v). split; [done|]. by apply elem_of_map_to_list.
Qed.

Lemma max_key_Ok (m : gmap Z (list string)) best :
  max_key m = Ok best →
  is_Some (m !! best) ∧ ∀ k, is_Some (m !! k) → (k ≤ best)%Z.
Proof.
  unfold max_key. destruct ((map_to_list m).*1) as [|k ks] eqn:E; [done|].
  intros [= <-]. destruct (foldr_max_spec k ks) as [Hin Hmax]. split.
  - apply elem_of_keys. by rewrite E.
  - intros k' Hk'. apply Hmax. rewrite <- E. by apply elem_of_keys.
Qed.

Lemma max_key_Fail (m : gmap Z (list string)) f :
  max_key m = Fail f → f = Exn ValueError ∧ m = ∅.
Proof.
  unfold max_key. destruct ((map_to_list m).*1) as [|k ks] eqn:E; [|done].
  intros [= <-]. split; [done|].
  apply fmap_nil_inv in E. by apply map_to_list_empty_iff.
Qed.

Lemma replay_snoc log p : replay (log ++ [p]) = record (replay log) p.
Proof. unfold replay. by rewrite foldl_app. Qed.

Lemma replay_lookup_Some log k todo :
  replay log !! k = Some todo →
  ∃ earlier winner later,
    log = earlier ++ winner :: later
    ∧ probe_score winner = Some k ∧ probe_moves winner = todo
    ∧ Forall (λ q, probe_score q ≠ Some k) later.
Proof.
  induction log as [|p log IH] using rev_ind; [done|].
  rewrite replay_snoc. unfold record.
  assert (replay log !! k = Some todo → probe_score p ≠ Some k →
          ∃ earlier winner later,
            log ++ [p] = earlier ++ winner :: later
            ∧ probe_score winner = Some k ∧ probe_moves winner = todo
            ∧ Forall (λ q, probe_score q ≠ Some k) later) as Hold.
  { intros Hk Hp. destruct (IH Hk) as (earlier & winner & later & -> & Hs & Hm & Hlater).
    exists earlier, winner, (later ++ [p]). rewrite <- (assoc_L (++)). split; [done|].
    split; [done|]. split; [done|]. apply Forall_app. split; [done|]. by constructor. }
  destruct (probe_score p) as [cur|] eqn:Hscore; [|intros Hk; by apply Hold].
  destruct (decide (cur = k)) as [->|Hne].
  - rewrite lookup_insert_eq. intros [= <-]. exists log, p, []. by repeat split.
  - rewrite lookup_insert_ne by done. intros Hk. apply Hold; [done|congruence].
Qed.

Lemma replay_lookup_scored log p k :
  p ∈ log → probe_score p = Some k → is_Some (replay log !! k).
Proof.
  induction log as [|q log IH] using rev_ind; [by intros ?%elem_of_nil|].
  intros Hin Hp. rewrite replay_snoc. unfold record.
  apply elem_of_app in Hin as [Hin|Hin%list_elem_of_singleton]; [|subst q].
  - destruct (probe_score q) as [cur|]; [|by apply IH].
    destruct (decide (cur = k)) as [->|Hne].
    + rewrite lookup_insert_eq. by eexists.
    + rewrite lookup_insert_ne by done. by apply IH.
  - rewrite Hp, lookup_insert_eq. by eexists.
Qed.

Lemma candidate_shape_no_drop i r moves : candidate_shape i r moves → "drop" ∉ moves.
Proof.
  intros (lefts & downs & ->).
  rewrite !elem_of_app. intros [H|[H|[H|H]]]; by apply elem_of_replicate in H as [? _].
Qed.

(** ** The search with an empty preview list *)

(** C6 as stated fails on a board with an empty preview list: the first
    probe that runs commits, [place] prints its message and returns [None],
    and [None.evaluate()] ends the search with [AttributeError] after one
    commit; no move list is printed. *)
Lemma search_empty_preview_fails :
  (search 34 last_board example_state).1 = Fail (Exn AttributeError)
  ∧ stdout (search 34 last_board example_state).2 = [no_preview_message].
Proof. split; vm_compute; reflexivity. Qed.

(** * Further properties of the code *)

(** ** Primitives and command lists of a block *)

(** X1.  Each primitive is undone exactly by its opposite: [left] by
    [right], [up] by [down], [rotate] by [unrotate], in either order; the
    whole state is as before. *)
Theorem primitive_inverse d self s b :
  block_objs s !! self = Some b →
  (primitive d self;; inverse d self) s = (Ok tt, s)
  ∧ (inverse d self;; primitive d self) s = (Ok tt, s).
Proof.
  intros Hb. pose proof (lookup_lt_Some _ _ _ Hb) as Hlt.
  assert (∀ f f' : Block → Block, f' (f b) = b →
    (update_block self f;; update_block self f') s = (Ok tt, s)) as Hpair.
  { intros f f' Hinv. rewrite M_bind_unfold, (update_block_with _ _ _ _ Hb).
    rewrite (update_block_with _ _ _ (f b)) by (by apply with_block_lookup).
    by rewrite with_block_twice, Hinv, with_block_same. }
  split; destruct d; apply Hpair; rewrite ?shift_shift, ?turn_turn; simpl;
    first [apply shift_zero | apply turn_zero].
Qed.

Lemma primitive_inverse_witness :
  (primitive Rotate 0;; inverse Rotate 0) pose_example = (Ok tt, pose_example)
  ∧ (inverse Rotate 0;; primitive Rotate 0) pose_example = (Ok tt, pose_example).
Proof. exact (primitive_inverse Rotate 0 pose_example _ eq_refl). Defined.

Lemma occurrences_cons tok command commands :
  occurrences tok (command :: commands) =
  ((if decide (command = tok) then 1 else 0) + occurrences tok commands)%Z.
Proof.
  unfold occurrences. rewrite filter_cons.
  destruct (decide (command = tok)); simpl length; lia.
Qed.

Lemma moved_nil b : moved [] b = b.
Proof.
  destruct b as [c os [ti tj] r]. unfold moved, occurrences. simpl.
  f_equal; [f_equal|]; lia.
Qed.

Lemma moved_cons d commands b :
  moved (token (Step d) :: commands) b = moved commands (step d b).
Proof.
  unfold moved. rewrite !occurrences_cons.
  destruct d; cbn [token step shift turn center offsets translation rotation Point_i Point_j];
    repeat case_decide; try done; (f_equal; first [lia | f_equal; lia]).
Qed.

Lemma is_step_elem_of command :
  is_step command ↔ command ∈ ["left"; "right"; "up"; "down"; "rotate"].
Proof.
  split.
  - intros [d ->]. destruct d; simpl; set_solver.
  - rewrite !elem_of_cons. intros [->|[->|[->|[->|[->|[]%elem_of_nil]]]]].
    + by exists Left.
    + by exists Right.
    + by exists Up.
    + by exists Down.
    + by exists Rotate.
Qed.

Lemma Block_do_commands_cons self command commands s :
  Block_do_commands self (command :: commands) s =
  (Block_do_command self command;; Block_do_commands self commands) s.
Proof.
  unfold Block_do_commands. cbn [for_each]. rewrite !M_bind_unfold.
  by destruct (Block_do_command self command s) as [[[]|e] s'].
Qed.

Lemma Block_do_commands_steps self steps :
  ∀ s b, block_objs s !! self = Some b →
    Block_do_commands self (token ∘ Step <$> steps) s =
    (Ok tt, with_block s self (moved (token ∘ Step <$> steps) b)).
Proof.
  induction steps as [|d steps IH]; intros s b Hb.
  - simpl. rewrite moved_nil, with_block_same by done. done.
  - rewrite fmap_cons, Block_do_commands_cons.
    change ((token ∘ Step) d) with (token (Step d)).
    rewrite M_bind_unfold, Block_do_command_token, (primitive_step _ _ _ _ Hb).
    rewrite (IH _ (step d b)) by (apply with_block_lookup; by eapply lookup_lt_Some).
    by rewrite with_block_twice, moved_cons.
Qed.

(** X2.  A list of valid commands moves the block by the number of times
    each token occurs: rows by [down] minus [up], columns by [right] minus
    [left], the rotation counter by [rotate]; the order of the commands
    does not matter, and nothing else in the state changes. *)
Theorem Block_do_commands_counts self commands s b :
  Forall is_step commands →
  block_objs s !! self = Some b →
  Block_do_commands self commands s = (Ok tt, with_block s self (moved commands b))
  ∧ ∀ commands', commands' ≡ₚ commands →
      Block_do_commands self commands' s = Block_do_commands self commands s.
Proof.
  intros Hsteps Hb.
  assert (∀ l, Forall is_step l →
    Block_do_commands self l s = (Ok tt, with_block s self (moved l b))) as Hrun.
  { intros l (steps & ->)%is_step_tokens. by apply Block_do_commands_steps. }
  split; [by apply Hrun|]. intros commands' Hperm.
  rewrite !Hrun; [|done|by rewrite Hperm].
  unfold moved, occurrences. by rewrite !Hperm.
Qed.

Lemma Block_do_commands_counts_witness :
  Block_do_commands 0 ["down"; "left"; "rotate"; "down"] pose_example =
    (Ok tt, with_block pose_example 0
       (mkBlock (mkPoint 0 0) [mkPoint 1 0] (mkPoint 2 (-1)) 1))
  ∧ ∀ commands', commands' ≡ₚ ["down"; "left"; "rotate"; "down"] →
      Block_do_commands 0 commands' pose_example =
      Block_do_commands 0 ["down"; "left"; "rotate"; "down"] pose_example.
Proof.
  apply (Block_do_commands_counts 0 ["down"; "left"; "rotate"; "down"] pose_example
           (mkBlock (mkPoint 0 0) [mkPoint 1 0] (mkPoint 0 0) 0)).
  - repeat constructor; [by exists Down|by exists Left|by exists Rotate|by exists Down].
  - reflexivity.
Defined.

(** X3.  At the first command that is none of [left], [right], [up],
    [down], [rotate] (so also at [drop] and [unrotate]) the assertion of
    [do_command] fails: [do_commands] raises [AssertionError], the commands
    before it have been applied and those after it have not. *)
Theorem Block_do_commands_unknown self before bad after s b :
  Forall is_step before → ¬ is_step bad →
  block_objs s !! self = Some b →
  Block_do_commands self (before ++ bad :: after) s =
  (Fail (Exn AssertionError), with_block s self (moved before b)).
Proof.
  intros (steps & ->)%is_step_tokens Hbad. revert s b.
  induction steps as [|d steps IH]; intros s b Hb.
  - simpl app. rewrite moved_nil, with_block_same by done.
    rewrite Block_do_commands_cons, M_bind_unfold. unfold Block_do_command.
    destruct (decide (bad ∈ _)) as [Hin|_]; [by apply is_step_elem_of in Hin|done].
  - rewrite fmap_cons, <- app_comm_cons, Block_do_commands_cons.
    change ((token ∘ Step) d) with (token (Step d)).
    rewrite M_bind_unfold, Block_do_command_token, (primitive_step _ _ _ _ Hb).
    rewrite (IH _ (step d b)) by (apply with_block_lookup; by eapply lookup_lt_Some).
    by rewrite with_block_twice, moved_cons.
Qed.

Lemma Block_do_commands_unknown_witness :
  Block_do_commands 0 (["down"] ++ "drop" :: ["left"]) pose_example =
  (Fail (Exn AssertionError),
   with_block pose_example 0 (mkBlock (mkPoint 0 0) [mkPoint 1 0] (mkPoint 1 0) 0)).
Proof.
  apply (Block_do_commands_unknown 0 ["down"] "drop" ["left"] pose_example
           (mkBlock (mkPoint 0 0) [mkPoint 1 0] (mkPoint 0 0) 0)).
  - repeat constructor. by exists Down.
  - intros [d Hd]. by destruct d.
  - reflexivity.
Defined.

(** X4.  [reset_position] forgets the pose: after any list of valid
    commands it leaves the state that it leaves when called at once, and
    in that state the squares of the block are center + offset. *)
Theorem Block_reset_position_spawn self commands s b :
  Forall is_step commands →
  block_objs s !! self = Some b →
  (Block_do_commands self commands;; Block_reset_position self) s =
    Block_reset_position self s
  ∧ ∃ s', Block_reset_position self s = (Ok tt, s')
      ∧ Block_squares self s' =
          Ok (map (λ o, mkPoint (Point_i (center b) + Point_i o)
                                (Point_j (center b) + Point_j o)) (offsets b)).
Proof.
  intros (steps & ->)%is_step_tokens Hb. pose proof (lookup_lt_Some _ _ _ Hb) as Hlt.
  unfold Block_reset_position at 2 3. rewrite (update_block_with _ _ _ _ Hb). split.
  - rewrite M_bind_unfold, (Block_do_commands_steps _ _ _ _ Hb).
    unfold Block_reset_position.
    rewrite (update_block_with _ _ _ (moved (token ∘ Step <$> steps) b))
      by (by apply with_block_lookup).
    by rewrite with_block_twice.
  - eexists. split; [done|]. unfold Block_squares, get_block.
    rewrite with_block_lookup by done. simpl mbind.
    unfold mret, outcome_ret. f_equal. rewrite squares_of_spawn.
    apply map_ext. intros o. simpl. f_equal; lia.
Qed.

Lemma Block_reset_position_spawn_witness :
  (Block_do_commands 0 ["down"; "rotate"];; Block_reset_position 0) pose_example =
    Block_reset_position 0 pose_example
  ∧ ∃ s', Block_reset_position 0 pose_example = (Ok tt, s')
      ∧ Block_squares 0 s' = Ok [mkPoint 1 0].
Proof.
  apply (Block_reset_position_spawn 0 ["down"; "rotate"] pose_example
           (mkBlock (mkPoint 0 0) [mkPoint 1 0] (mkPoint 0 0) 0)).
  - repeat constructor; [by exists Down|by exists Rotate].
  - reflexivity.
Defined.

(** X5.  A translating primitive moves every square of the block by its
    displacement: [left] and [right] change the column by -1 and +1, [up]
    and [down] the row by -1 and +1, whatever the rotation counter is. *)
Theorem primitive_translates_squares d self s b :
  d ≠ Rotate →
  block_objs s !! self = Some b →
  ∃ s', primitive d self s = (Ok tt, s')
    ∧ Block_squares self s' =
        Ok (map (λ p, mkPoint (Point_i p + (delta d).1) (Point_j p + (delta d).2))
                (squares_of b)).
Proof.
  intros Hd Hb. pose proof (lookup_lt_Some _ _ _ Hb) as Hlt.
  eexists. split; [by apply primitive_step|].
  unfold Block_squares, get_block. rewrite with_block_lookup by done. simpl mbind.
  unfold mret, outcome_ret. f_equal.
  destruct d; try done; apply squares_of_shift.
Qed.

Lemma primitive_translates_squares_witness :
  ∃ s', primitive Down 0 pose_example = (Ok tt, s')
    ∧ Block_squares 0 s' = Ok [mkPoint 2 0].
Proof.
  apply (primitive_translates_squares Down 0 pose_example
           (mkBlock (mkPoint 0 0) [mkPoint 1 0] (mkPoint 0 0) 0)).
  - discriminate.
  - reflexivity.
Defined.

Lemma squares_of_turned c os t (k : nat) :
  k ≤ 3 →
  squares_of (mkBlock c os t (0 + Z.of_nat k)) =
  map (λ o, mkPoint (Point_i c + Point_i t + Point_i (quarter_turns k o))
                    (Point_j c + Point_j t + Point_j (quarter_turns k o))) os.
Proof.
  intros Hk. destruct k as [|[|[|[|k]]]]; [| | | |lia];
    unfold squares_of; simpl; apply map_ext; intros [oi oj]; simpl; f_equal; lia.
Qed.

(** X6.  From rotation 0, up to three [rotate] commands turn the block
    about center + translation by quarter turns: each one sends the
    offset (i, j) to (j, -i). *)
Theorem rotate_quarter_turns (k : nat) self s c os t :
  k ≤ 3 →
  block_objs s !! self = Some (mkBlock c os t 0) →
  ∃ s', Block_do_commands self (replicate k "rotate") s = (Ok tt, s')
    ∧ Block_squares self s' =
        Ok (map (λ o, mkPoint (Point_i c + Point_i t + Point_i (quarter_turns k o))
                              (Point_j c + Point_j t + Point_j (quarter_turns k o))) os).
Proof.
  intros Hk Hb. pose proof (lookup_lt_Some _ _ _ Hb) as Hlt.
  assert (replicate k "rotate" = token ∘ Step <$> replicate k Rotate) as ->.
  { by rewrite fmap_replicate. }
  eexists. split; [by apply Block_do_commands_steps|].
  unfold Block_squares, get_block. rewrite with_block_lookup by done. simpl mbind.
  unfold mret, outcome_ret. f_equal. rewrite <- (squares_of_turned c os t k Hk).
  f_equal. unfold moved. simpl center. simpl offsets. simpl translation. simpl rotation.
  assert (∀ tok, tok ≠ "rotate" →
    occurrences tok (token ∘ Step <$> replicate k Rotate) = 0%Z) as Hnone.
  { intros tok Htok. clear -Htok. induction k as [|k IH]; [done|].
    cbn [replicate]. rewrite fmap_cons, occurrences_cons, IH.
    change ((token ∘ Step) Rotate) with "rotate". by case_decide. }
  assert (occurrences "rotate" (token ∘ Step <$> replicate k Rotate) = Z.of_nat k) as ->.
  { clear. induction k as [|k IH]; [done|].
    cbn [replicate]. rewrite fmap_cons, occurrences_cons, IH.
    change ((token ∘ Step) Rotate) with "rotate". case_decide; [lia|done]. }
  rewrite !Hnone by done. destruct t as [ti tj]. simpl. f_equal. f_equal; lia.
Qed.

Lemma rotate_quarter_turns_witness :
  ∃ s', Block_do_commands 0 (replicate 3 "rotate") pose_example = (Ok tt, s')
    ∧ Block_squares 0 s' = Ok [mkPoint 0 1].
Proof.
  apply (rotate_quarter_turns 3 0 pose_example (mkPoint 0 0) [mkPoint 1 0] (mkPoint 0 0)).
  - lia.
  - reflexivity.
Defined.

(** ** The legality check *)

Lemma free_cell_true g square :
  free_cell g square = true ↔
  (0 ≤ Point_i square < Board_rows)%Z ∧ (0 ≤ Point_j square < Board_cols)%Z
  ∧ at_cell g (Z.to_nat (Point_i square)) (Z.to_nat (Point_j square)) = Some 0%Z.
Proof.
  unfold free_cell, at_cell. rewrite !andb_true_iff, !bool_decide_eq_true.
  destruct (g !! Z.to_nat (Point_i square) ≫= _) as [v|].
  - unfold truthy. rewrite negb_involutive. destruct (Z.eqb_spec v 0) as [->|Hv].
    + split; [by intros [[H1 H2] _]|by intros (H1 & H2 & _)].
    + split; [by intros [_ [=]]|]. intros (_ & _ & [= ?]). done.
  - split; [by intros [_ [=]]|by intros (_ & _ & [=])].
Qed.

(** X7.  On a board of 33 rows of 12 cells [check] is exact: it returns
    [True] when every square of the block is inside the board on a cell
    that holds 0, and [False] otherwise. *)
Theorem Board_check_exact board s g self b :
  grid s (bitmap board) = Some g → full_size g →
  block_objs s !! self = Some b →
  ∃ answer, Board_check board self s = Ok answer
    ∧ (answer = true ↔
       ∀ square, square ∈ squares_of b →
         (0 ≤ Point_i square < 33)%Z ∧ (0 ≤ Point_j square < 12)%Z
         ∧ at_cell g (Z.to_nat (Point_i square)) (Z.to_nat (Point_j square)) = Some 0%Z).
Proof.
  intros Hg Hfull Hb. exists (legal g b). split; [by apply Board_check_legal|].
  unfold legal. rewrite forallb_forall. split.
  - intros H square Hsq%list_elem_of_In. by apply free_cell_true, H.
  - intros H square Hsq%list_elem_of_In. by apply free_cell_true, H.
Qed.

Lemma Board_check_exact_witness :
  ∃ answer, Board_check example_board 0 example_state = Ok answer
    ∧ (answer = true ↔
       ∀ square, square ∈ squares_of unit_block →
         (0 ≤ Point_i square < 33)%Z ∧ (0 ≤ Point_j square < 12)%Z
         ∧ at_cell empty_rows (Z.to_nat (Point_i square)) (Z.to_nat (Point_j square))
           = Some 0%Z).
Proof.
  apply (Board_check_exact example_board example_state empty_rows 0 unit_block).
  - reflexivity.
  - exact full_size_empty_rows.
  - reflexivity.
Defined.

(** X8.  The bounds of [check] are the constants 33 and 12, not the size
    of the bitmap: when the bitmap has fewer than 33 rows and the first
    square of the block is at a row from its length up to 32, in a column
    from 0 to 11, [check] raises [IndexError] instead of answering. *)
Theorem Board_check_short_bitmap board s self b square others :
  block_objs s !! self = Some b →
  squares_of b = square :: others →
  (Z.of_nat (length (bitmap board)) ≤ Point_i square < 33)%Z →
  (0 ≤ Point_j square < 12)%Z →
  Board_check board self s = Fail (Exn IndexError).
Proof.
  intros Hb Hsq Hi Hj. unfold Board_check, Block_squares, get_block. rewrite Hb.
  simpl mbind at 1. rewrite Hsq. cbn [check_squares].
  assert (outside square = false) as Hin.
  { unfold outside, Board_rows, Board_cols. repeat (apply orb_false_intro); lia. }
  unfold outside in Hin. rewrite Hin. unfold cell, py_index, py_norm.
  destruct (Point_i square <? 0)%Z eqn:E1; [lia|]. rewrite E1.
  by destruct (Point_i square <? Z.of_nat (length (bitmap board)))%Z eqn:E2; [lia|].
Qed.

Lemma Board_check_short_bitmap_witness :
  Board_check (mkBoard [] 0 []) 0 pose_example = Fail (Exn IndexError).
Proof.
  apply (Board_check_short_bitmap (mkBoard [] 0 []) pose_example 0
           (mkBlock (mkPoint 0 0) [mkPoint 1 0] (mkPoint 0 0) 0) (mkPoint 1 0) []).
  - reflexivity.
  - reflexivity.
  - simpl. lia.
  - simpl. lia.
Defined.

(** X9.  On a board of 33 rows of 12 cells a checked move reports success
    exactly when the moved pose is legal; then the block is in the moved
    pose and nothing else has changed, and otherwise the state is the one
    before the call. *)
Theorem checked_move_exact d board self s g b :
  grid s (bitmap board) = Some g → full_size g →
  block_objs s !! self = Some b →
  checked_move d self board s =
  (Ok (legal g (step d b)), if legal g (step d b) then with_block s self (step d b) else s).
Proof. apply checked_move_spec. Qed.

Lemma checked_move_exact_witness :
  checked_move Down 0 example_board example_state =
  (Ok true, with_block example_state 0 (shift 1 0 unit_block)).
Proof.
  apply (checked_move_exact Down example_board 0 example_state empty_rows unit_block).
  - reflexivity.
  - exact full_size_empty_rows.
  - reflexivity.
Defined.

(** X10.  [place] does not return for a block without offsets: [check] is
    [True] in every pose of a block with no squares, so the drop loop uses
    up any amount of fuel. *)
Theorem Board_place_never_returns_without_cells fuel board s b :
  block_objs s !! block board = Some b → offsets b = [] →
  Board_check board (block board) s = Ok true
  ∧ (Board_place fuel board s).1 = Fail OutOfFuel.
Proof.
  intros Hb Hnil. split.
  - unfold Board_check, Block_squares, get_block. rewrite Hb. simpl mbind at 1.
    by rewrite (proj2 (squares_of_nil b) Hnil).
  - pose proof (drop_loop_without_cells board (block board) fuel s b Hb Hnil).
    unfold Board_place. rewrite M_bind_unfold.
    destruct (while fuel _ _ tt s) as [[[]|f] s']; simpl in *; [done|congruence].
Qed.

Lemma Board_place_never_returns_without_cells_witness :
  Board_check (mkBoard [] 0 []) 0 no_cells_state = Ok true
  ∧ (Board_place 5 (mkBoard [] 0 []) no_cells_state).1 = Fail OutOfFuel.
Proof.
  exact (Board_place_never_returns_without_cells 5 (mkBoard [] 0 []) no_cells_state _
           eq_refl eq_refl).
Defined.

(** ** The hard drop *)

Lemma shift_down_twice (m n : Z) b : shift n 0 (shift m 0 b) = shift (m + n) 0 b.
Proof. rewrite shift_shift. by replace (0 + 0)%Z with 0%Z by lia. Qed.

Lemma fall_rests g limit :
  ∀ b, legal g b = true → offsets b ≠ [] →
    (Board_rows - Point_i (first_square b) ≤ Z.of_nat limit)%Z →
    ∃ n : nat,
      fall g b limit = shift (Z.of_nat n) 0 b
      ∧ (∀ k : nat, k ≤ n → legal g (shift (Z.of_nat k) 0 b) = true)
      ∧ legal g (shift (Z.of_nat n + 1) 0 b) = false.
Proof.
  induction limit as [|limit IH]; intros b Hlegal Hne Hrow.
  - destruct (legal_first_square _ _ Hlegal Hne) as [? _]. lia.
  - cbn [fall]. destruct (legal g (shift 1 0 b)) eqn:Hnext.
    + destruct (IH (shift 1 0 b)) as (n & Hfall & Hway & Hstop); [done|done| |].
      { rewrite first_square_shift by done. simpl. lia. }
      exists (S n). rewrite Hfall, shift_down_twice. split; [f_equal; lia|]. split.
      * intros [|k] Hk; [by rewrite shift_zero|].
        specialize (Hway k ltac:(lia)). rewrite shift_down_twice in Hway.
        by replace (Z.of_nat (S k)) with (1 + Z.of_nat k)%Z by lia.
      * rewrite shift_down_twice in Hstop.
        by replace (Z.of_nat (S n) + 1)%Z with (1 + (Z.of_nat n + 1))%Z by lia.
    + exists 0. rewrite shift_zero. split; [done|]. split; [|done].
      intros k Hk. replace k with 0 by lia. by rewrite shift_zero.
Qed.

(** X11.  [place] drops the block to the first obstruction: on a board of
    33 rows of 12 cells, from a legal pose of a block with a cell, it
    leaves the block some [n] rows lower, in the same columns and at the
    same rotation; every pose on the way down is legal and the pose one
    row further down is not. *)
Theorem Board_place_rests fuel board s g b :
  33 < fuel →
  grid s (bitmap board) = Some g → full_size g →
  block_objs s !! block board = Some b → offsets b ≠ [] →
  Board_check board (block board) s = Ok true →
  ∃ result s' (n : nat),
    Board_place fuel board s = (Ok result, s')
    ∧ block_objs s' !! block board = Some (shift (Z.of_nat n) 0 b)
    ∧ (∀ k : nat, k ≤ n → legal g (shift (Z.of_nat k) 0 b) = true)
    ∧ legal g (shift (Z.of_nat n + 1) 0 b) = false.
Proof.
  intros Hfuel Hg Hfull Hb Hne Hcheck.
  pose proof (Board_check_true_legal _ _ _ _ Hg Hfull Hb Hcheck) as Hlegal.
  destruct (Board_place_spec _ _ _ _ _ Hfuel Hg Hfull Hb Hne Hlegal)
    as (bm' & ext & s' & Hrun & _ & Hblocks & _).
  destruct (fall_rests g 33 b Hlegal Hne) as (n & Hfall & Hway & Hstop).
  { destruct (legal_first_square _ _ Hlegal Hne) as [? _]. unfold Board_rows in *. lia. }
  eexists _, s', n. split; [exact Hrun|]. split; [|done].
  rewrite Hblocks. unfold dropped. rewrite Hfall.
  apply list_lookup_insert_eq. by eapply lookup_lt_Some.
Qed.

Lemma Board_place_rests_witness :
  ∃ result s' (n : nat),
    Board_place 34 example_board example_state = (Ok result, s')
    ∧ block_objs s' !! 0 = Some (shift (Z.of_nat n) 0 unit_block)
    ∧ (∀ k : nat, k ≤ n → legal empty_rows (shift (Z.of_nat k) 0 unit_block) = true)
    ∧ legal empty_rows (shift (Z.of_nat n + 1) 0 unit_block) = false.
Proof.
  apply (Board_place_rests 34 example_board example_state empty_rows unit_block).
  - lia.
  - reflexivity.
  - exact full_size_empty_rows.
  - reflexivity.
  - discriminate.
  - vm_compute. reflexivity.
Defined.

(** ** The grid of a commit *)

Lemma binary_mark_cell g square : binary g → binary (mark_cell g square).
Proof.
  intros Hg. unfold mark_cell. destruct (g !! _) as [row|] eqn:E; [|done].
  apply Forall_insert; [done|]. apply Forall_insert; [|by right].
  by apply (Forall_lookup_1 _ _ _ _ Hg E).
Qed.

Lemma binary_marked g squares : binary g → binary (marked g squares).
Proof.
  revert g. induction squares as [|sq rest IH]; intros g Hg; [done|].
  apply IH. by apply binary_mark_cell.
Qed.

Lemma binary_cleared g : binary g → binary (cleared g).
Proof.
  intros Hg. apply Forall_cleared; [done|]. apply Forall_replicate. by left.
Qed.

Lemma cleared_no_full_row g :
  length (default [] (head g)) ≠ 0 → Forall (λ row, 0%Z ∈ row) (cleared g).
Proof.
  intros Hwidth. unfold cleared. apply Forall_app. split.
  - apply Forall_replicate. destruct (length _); [done|]. left.
  - unfold survivors. apply Forall_forall. by intros row [? _]%list_elem_of_filter.
Qed.

Lemma cleared_unchanged g : Forall (λ row, 0%Z ∈ row) g → cleared g = g.
Proof.
  intros Hg. unfold cleared, full_rows, survivors.
  assert (filter (λ row, 0%Z ∉ row) g = []) as ->.
  { induction Hg as [|row g Hrow _ IH]; [done|].
    rewrite filter_cons. by destruct (decide (0%Z ∉ row)). }
  simpl. induction Hg as [|row g Hrow _ IH]; [done|].
  rewrite filter_cons. destruct (decide (0%Z ∈ row)); [by rewrite IH|done].
Qed.

(** X12.  A commit keeps the board well formed: on a board of 33 rows of
    12 cells holding zeros and ones, from a legal pose of a block with a
    cell and with a non-empty preview list, the new board has again 33
    rows of 12 cells of zeros and ones, and none of its rows is full. *)
Theorem Board_place_keeps_board fuel board s g b :
  33 < fuel →
  grid s (bitmap board) = Some g → full_size g → binary g →
  block_objs s !! block board = Some b → offsets b ≠ [] →
  Board_check board (block board) s = Ok true →
  preview board ≠ [] →
  ∃ new_board s' g',
    Board_place fuel board s = (Ok (Some new_board), s')
    ∧ grid s' (bitmap new_board) = Some g'
    ∧ full_size g' ∧ binary g' ∧ Forall (λ row, 0%Z ∈ row) g'.
Proof.
  intros Hfuel Hg Hfull Hbin Hb Hne Hcheck Hpreview.
  pose proof (Board_check_true_legal _ _ _ _ Hg Hfull Hb Hcheck) as Hlegal.
  destruct (Board_place_spec _ _ _ _ _ Hfuel Hg Hfull Hb Hne Hlegal)
    as (bm' & ext & s' & Hrun & _ & _ & _ & Hgrid & _).
  destruct (preview board) as [|next rest]; [done|].
  pose proof (full_size_marked g (squares_of (dropped g b)) Hfull) as Hfull'.
  exists (mkBoard bm' next rest), s', (committed g b).
  split; [done|]. split; [done|]. split; [by apply full_size_cleared|].
  split; [by apply binary_cleared, binary_marked|].
  apply cleared_no_full_row.
  destruct (marked g _) as [|first rows] eqn:E; [by destruct Hfull' as [? _]|].
  destruct Hfull' as [_ Hcols]. apply Forall_cons in Hcols as [Hfirst _].
  simpl. unfold Board_cols in Hfirst. lia.
Qed.

Lemma Board_place_keeps_board_witness :
  ∃ new_board s' g',
    Board_place 34 example_board example_state = (Ok (Some new_board), s')
    ∧ grid s' (bitmap new_board) = Some g'
    ∧ full_size g' ∧ binary g' ∧ Forall (λ row, 0%Z ∈ row) g'.
Proof.
  apply (Board_place_keeps_board 34 example_board example_state empty_rows unit_block).
  - lia.
  - reflexivity.
  - exact full_size_empty_rows.
  - apply Forall_replicate, Forall_replicate. by left.
  - reflexivity.
  - discriminate.
  - vm_compute. reflexivity.
  - discriminate.
Defined.

Lemma mark_cell_at g square (i j : nat) :
  full_size g → outside square = false →
  at_cell (mark_cell g square) i j =
  if decide (mkPoint (Z.of_nat i) (Z.of_nat j) = square) then Some 1%Z else at_cell g i j.
Proof.
  intros Hfull Hin.
  destruct (full_size_lookup _ _ Hfull Hin) as (Hi & Hj & row & v & Hrow & Hv).
  pose proof (lookup_lt_Some _ _ _ Hrow) as Hilt.
  pose proof (lookup_lt_Some _ _ _ Hv) as Hjlt.
  unfold mark_cell, at_cell. rewrite Hrow.
  destruct (decide (i = Z.to_nat (Point_i square))) as [->|Hne_i].
  - rewrite list_lookup_insert_eq by done. simpl. rewrite Hrow. simpl.
    destruct (decide (j = Z.to_nat (Point_j square))) as [->|Hne_j].
    + rewrite list_lookup_insert_eq by done.
      case_decide as Hne; [done|]. exfalso. apply Hne.
      destruct square as [si sj]. simpl in *. f_equal; lia.
    + rewrite list_lookup_insert_ne by done.
      case_decide as Heq; [|done]. exfalso. apply Hne_j.
      rewrite <- Heq. simpl. lia.
  - rewrite list_lookup_insert_ne by done.
    case_decide as Heq; [|done]. exfalso. apply Hne_i.
    rewrite <- Heq. simpl. lia.
Qed.

Lemma marked_at squares :
  ∀ g (i j : nat) v,
    full_size g → Forall (λ square, outside square = false) squares →
    at_cell g i j = Some v →
    at_cell (marked g squares) i j =
    Some (if decide (mkPoint (Z.of_nat i) (Z.of_nat j) ∈ squares) then 1%Z else v).
Proof.
  induction squares as [|sq rest IH]; intros g i j v Hfull Hin Hv.
  - cbn [marked foldl]. rewrite Hv. by rewrite decide_False by apply not_elem_of_nil.
  - apply Forall_cons in Hin as [Hsq Hrest]. cbn [marked foldl].
    change (foldl mark_cell (mark_cell g sq) rest) with (marked (mark_cell g sq) rest).
    pose proof (mark_cell_at g sq i j Hfull Hsq) as Hcell.
    destruct (decide (mkPoint (Z.of_nat i) (Z.of_nat j) = sq)) as [Heq|Hne].
    + rewrite (IH _ i j 1%Z (full_size_mark_cell _ _ Hfull) Hrest Hcell).
      rewrite (decide_True (P := _ ∈ sq :: rest)) by (rewrite Heq; left).
      by case_decide.
    + rewrite Hv in Hcell.
      rewrite (IH _ i j v (full_size_mark_cell _ _ Hfull) Hrest Hcell).
      destruct (decide (mkPoint (Z.of_nat i) (Z.of_nat j) ∈ rest)) as [Hr|Hr].
      * by rewrite (decide_True (P := _ ∈ sq :: rest)) by (by right).
      * rewrite (decide_False (P := _ ∈ sq :: rest)); [done|].
        by intros [?|?]%elem_of_cons.
Qed.

(** X13.  When the drop completes no row, the new board is the old one
    with exactly the squares of the dropped block set to 1: every other
    cell keeps its value. *)
Theorem Board_place_merges fuel board s g b :
  33 < fuel →
  grid s (bitmap board) = Some g → full_size g →
  block_objs s !! block board = Some b → offsets b ≠ [] →
  Board_check board (block board) s = Ok true →
  preview board ≠ [] →
  Forall (λ row, 0%Z ∈ row) (marked g (squares_of (dropped g b))) →
  ∃ new_board s' g',
    Board_place fuel board s = (Ok (Some new_board), s')
    ∧ grid s' (bitmap new_board) = Some g'
    ∧ ∀ (i j : nat) v, at_cell g i j = Some v →
        at_cell g' i j =
        Some (if decide (mkPoint (Z.of_nat i) (Z.of_nat j) ∈ squares_of (dropped g b))
              then 1%Z else v).
Proof.
  intros Hfuel Hg Hfull Hb Hne Hcheck Hpreview Hnofull.
  pose proof (Board_check_true_legal _ _ _ _ Hg Hfull Hb Hcheck) as Hlegal.
  destruct (Board_place_spec _ _ _ _ _ Hfuel Hg Hfull Hb Hne Hlegal)
    as (bm' & ext & s' & Hrun & _ & _ & _ & Hgrid & _).
  destruct (preview board) as [|next rest]; [done|].
  exists (mkBoard bm' next rest), s', (marked g (squares_of (dropped g b))).
  split; [done|]. split.
  - simpl. rewrite Hgrid. unfold committed. by rewrite cleared_unchanged.
  - intros i j v Hv. apply marked_at; [done| |done].
    apply (legal_inside g). by apply fall_legal.
Qed.

Lemma Board_place_merges_witness :
  ∃ new_board s' g',
    Board_place 34 example_board example_state = (Ok (Some new_board), s')
    ∧ grid s' (bitmap new_board) = Some g'
    ∧ ∀ (i j : nat) v, at_cell empty_rows i j = Some v →
        at_cell g' i j =
        Some (if decide (mkPoint (Z.of_nat i) (Z.of_nat j)
                         ∈ squares_of (dropped empty_rows unit_block))
              then 1%Z else v).
Proof.
  apply (Board_place_merges 34 example_board example_state empty_rows unit_block).
  - lia.
  - reflexivity.
  - exact full_size_empty_rows.
  - reflexivity.
  - discriminate.
  - vm_compute. reflexivity.
  - discriminate.
  - vm_compute. repeat constructor.
Defined.

(** ** Row removal without a full row *)

Lemma keep_rows_all s bm :
  ∀ g, grid s bm = Some g → Forall (λ row, 0%Z ∈ row) g → keep_rows bm s = Ok bm.
Proof.
  induction bm as [|r bm IH]; intros g Hg Hzero; [done|].
  apply grid_cons_inv in Hg as (row & g' & -> & Hr & Hg').
  apply Forall_cons in Hzero as [Hrow Hrest].
  simpl. unfold get_row. rewrite Hr. simpl. rewrite (IH _ Hg' Hrest). simpl.
  rewrite forallb_truthy, bool_decide_eq_false_2; [done|]. by intros H.
Qed.

(** X14.  When no row is full, [remove_rows] makes no new row and changes
    nothing: it returns a list of the very row objects it was given.  Its
    caller gets rows that are shared with the argument. *)
Theorem Board_remove_rows_shares s bm g :
  grid s bm = Some g → g ≠ [] → Forall (λ row, 0%Z ∈ row) g →
  Board_remove_rows bm s = (Ok bm, s).
Proof.
  intros Hg Hne Hzero.
  destruct g as [|first g]; [done|]. destruct bm as [|r0 bm]; [done|].
  pose proof Hg as Hg0. apply grid_cons_inv in Hg0 as (? & ? & [= <- <-] & Hr0 & _).
  unfold Board_remove_rows. rewrite M_bind_unfold. unfold read at 1.
  change (py_index (r0 :: bm) 0) with (Ok (A:=row_ref) r0). simpl mbind at 1.
  unfold get_row at 1. rewrite Hr0.
  rewrite M_bind_unfold. unfold read at 1. rewrite (keep_rows_all _ _ _ Hg Hzero).
  rewrite Nat.sub_diag. simpl. by destruct s.
Qed.

Lemma Board_remove_rows_shares_witness :
  Board_remove_rows [1] two_rows_state = (Ok [1], two_rows_state).
Proof.
  apply (Board_remove_rows_shares two_rows_state [1] [[0; 1]%Z]).
  - reflexivity.
  - discriminate.
  - repeat constructor.
Defined.

(** ** The executor, case by case *)

(** X15.  [do_commands] starts from the spawn pose whatever pose the block
    is in: the translation and the rotation of the block before the call
    have no influence on the outcome or on the state after it. *)
Theorem Board_do_commands_forgets_pose fuel board moves s b t r :
  block_objs s !! block board = Some b →
  Board_do_commands fuel board moves
    (with_block s (block board) (mkBlock (center b) (offsets b) t r)) =
  Board_do_commands fuel board moves s.
Proof.
  intros Hb. pose proof (lookup_lt_Some _ _ _ Hb) as Hlt.
  unfold Board_do_commands, Block_reset_position. rewrite !M_bind_unfold.
  rewrite (update_block_with _ _ _ _ Hb).
  rewrite (update_block_with _ _ _ (mkBlock (center b) (offsets b) t r))
    by (by apply with_block_lookup).
  by rewrite with_block_twice.
Qed.

Lemma Board_do_commands_forgets_pose_witness :
  Board_do_commands 34 example_board ["left"]
    (with_block example_state 0 (mkBlock (mkPoint 0 5) [mkPoint 0 0] (mkPoint 7 3) 2)) =
  Board_do_commands 34 example_board ["left"] example_state.
Proof.
  exact (Board_do_commands_forgets_pose 34 example_board ["left"] example_state
           unit_block (mkPoint 7 3) 2 eq_refl).
Defined.

Lemma center_step d b : center (step d b) = center b.
Proof. by destruct d. Qed.

(** ** The walk of the executor *)

Lemma first_illegal_None g steps :
  ∀ b, first_illegal g b steps = None ↔ legal g b && path_legal g b steps = true.
Proof.
  induction steps as [|d steps IH]; intros b; simpl.
  - by destruct (legal g b).
  - destruct (legal g b); [|done]. apply IH.
Qed.

Lemma offsets_after_steps steps : ∀ b, offsets (after_steps steps b) = offsets b.
Proof.
  induction steps as [|d steps IH]; intros b; [done|].
  simpl. by rewrite IH, offsets_step.
Qed.

Lemma first_illegal_None_legal g steps :
  ∀ b, first_illegal g b steps = None → legal g (after_steps steps b) = true.
Proof.
  induction steps as [|d steps IH]; intros b; simpl; destruct (legal g b) eqn:Hb;
    try done.
  apply IH.
Qed.

(** The pose [first_illegal] gives is the pose after a part [made] of the
    list; it is not legal, and the pose after any shorter part is. *)
Lemma first_illegal_Some g steps :
  ∀ b b', first_illegal g b steps = Some b' →
    ∃ made later,
      steps = made ++ later ∧ b' = after_steps made b ∧ legal g b' = false
      ∧ ∀ fewer, fewer `prefix_of` made → fewer ≠ made →
          legal g (after_steps fewer b) = true.
Proof.
  induction steps as [|d steps IH]; intros b b'; simpl; destruct (legal g b) eqn:Hb.
  - done.
  - intros [= <-]. exists [], []. split; [done|]. split; [done|]. split; [done|].
    by intros fewer ->%prefix_nil_inv.
  - intros (made & later & -> & -> & Hbad & Hfirst)%IH.
    exists (d :: made), later. split; [done|]. split; [done|]. split; [done|].
    intros [|d' fewer] Hprefix Hne; [done|].
    pose proof (prefix_cons_inv_1 _ _ _ _ Hprefix) as ->.
    apply prefix_cons_inv_2 in Hprefix. simpl. apply Hfirst; [done|]. by intros ->.
  - intros [= <-]. exists [], (d :: steps). split; [done|]. split; [done|]. split; [done|].
    by intros fewer ->%prefix_nil_inv.
Qed.

(** The tokens of primitives up to the first [drop] are run as a walk from
    the pose of the block; at its end stands the commit. *)
Lemma run_commands_walk fuel board g steps later :
  full_size g →
  ∀ s b,
    grid s (bitmap board) = Some g →
    block_objs s !! block board = Some b → legal g b = true →
    run_commands fuel board ((token ∘ Step <$> steps) ++ "drop" :: later) s =
    match first_illegal g b steps with
    | Some b' => (Fail (Exn InvalidMoveError), with_block s (block board) b')
    | None => Board_place fuel board (with_block s (block board) (after_steps steps b))
    end.
Proof.
  intros Hfull. induction steps as [|d steps IH]; intros s b Hg Hb Hlegal.
  - change ((token ∘ Step <$> []) ++ "drop" :: later) with ("drop" :: later).
    rewrite run_commands_cons. cbn [first_illegal]. rewrite Hlegal.
    change (after_steps [] b) with b. by rewrite with_block_same.
  - pose proof (lookup_lt_Some _ _ _ Hb) as Hlt.
    rewrite fmap_cons, <- app_comm_cons.
    change ((token ∘ Step) d) with (token (Step d)).
    rewrite run_commands_step, M_bind_unfold, (primitive_step _ _ _ _ Hb).
    rewrite M_bind_unfold. unfold read at 1.
    rewrite (Board_check_legal board _ g (block board) (step d b));
      [|done|done|by apply with_block_lookup].
    cbn [first_illegal]. rewrite Hlegal. cbn [after_steps foldl].
    destruct (legal g (step d b)) eqn:Hnext.
    + rewrite (IH (with_block s (block board) (step d b)) (step d b) Hg
                 (with_block_lookup _ _ _ Hlt) Hnext).
      destruct (first_illegal g (step d b) steps); by rewrite with_block_twice.
    + destruct steps; simpl; by rewrite Hnext.
Qed.

Lemma Board_do_commands_walk fuel board s g b steps tail :
  grid s (bitmap board) = Some g → full_size g →
  block_objs s !! block board = Some b →
  tail = [] ∨ (∃ later, tail = "drop" :: later) →
  Board_do_commands fuel board ((token ∘ Step <$> steps) ++ tail) s =
  match first_illegal g (spawn b) steps with
  | Some b' => (Fail (Exn InvalidMoveError), with_block s (block board) b')
  | None => Board_place fuel board (with_block s (block board) (after_steps steps (spawn b)))
  end.
Proof.
  intros Hg Hfull Hb Htail. pose proof (lookup_lt_Some _ _ _ Hb) as Hlt.
  unfold Board_do_commands, Block_reset_position.
  rewrite M_bind_unfold, (update_block_with _ _ _ _ Hb). fold (spawn b).
  rewrite M_bind_unfold. unfold read at 1.
  rewrite (Board_check_legal board _ g (block board) (spawn b));
    [|done|done|by apply with_block_lookup].
  destruct (legal g (spawn b)) eqn:Hspawn.
  - assert (∃ later, ((token ∘ Step <$> steps) ++ tail) ++ ["drop"]
                     = (token ∘ Step <$> steps) ++ "drop" :: later) as [later ->].
    { destruct Htail as [->|[later ->]].
      - exists []. by rewrite app_nil_r.
      - exists (later ++ ["drop"]). by rewrite <- (assoc_L (++)). }
    rewrite (run_commands_walk fuel board g steps later Hfull
               (with_block s (block board) (spawn b)) (spawn b) Hg
               (with_block_lookup _ _ _ Hlt) Hspawn).
    destruct (first_illegal g (spawn b) steps); by rewrite with_block_twice.
  - destruct steps; simpl; by rewrite Hspawn.
Qed.

Lemma Board_do_commands_commits fuel board s g b steps tail :
  33 < fuel →
  grid s (bitmap board) = Some g → full_size g →
  block_objs s !! block board = Some b → offsets b ≠ [] →
  tail = [] ∨ (∃ later, tail = "drop" :: later) →
  first_illegal g (spawn b) steps = None →
  ∃ new_bitmap ext s',
    Board_do_commands fuel board ((token ∘ Step <$> steps) ++ tail) s =
      (Ok match preview board with
          | [] => None
          | next :: rest => Some (mkBoard new_bitmap next rest)
          end, s')
    ∧ row_objs s' = row_objs s ++ ext
    ∧ block_objs s' = <[block board := dropped g (after_steps steps (spawn b))]> (block_objs s)
    ∧ stdout s' = stdout s ++ match preview board with
                              | [] => [no_preview_message]
                              | _ => []
                              end
    ∧ grid s' new_bitmap = Some (committed g (after_steps steps (spawn b)))
    ∧ grid s' (bitmap board) = Some g
    ∧ Forall (λ r, length (row_objs s) ≤ r) new_bitmap.
Proof.
  intros Hfuel Hg Hfull Hb Hne Htail Hwalk.
  pose proof (lookup_lt_Some _ _ _ Hb) as Hlt.
  rewrite (Board_do_commands_walk fuel board s g b steps tail Hg Hfull Hb Htail), Hwalk.
  destruct (Board_place_spec fuel board
              (with_block s (block board) (after_steps steps (spawn b))) g
              (after_steps steps (spawn b)) Hfuel Hg Hfull (with_block_lookup _ _ _ Hlt))
    as (bm' & ext & s' & Hrun & Hrows & Hblocks & Hstdout & Hgrid & Hfresh).
  { by rewrite offsets_after_steps. }
  { by apply first_illegal_None_legal. }
  exists bm', ext, s'. split; [exact Hrun|]. split; [exact Hrows|].
  split; [by rewrite Hblocks; simpl; rewrite list_insert_insert_eq|].
  split; [exact Hstdout|]. split; [exact Hgrid|]. split; [|exact Hfresh].
  eapply grid_agree; [exact Hg|]. intros r row _ Hr. rewrite Hrows. simpl.
  by apply lookup_app_l_Some.
Qed.

(** C3 (as amended).  On a board of 33 rows of 12 cells whose block has a
    cell, for every list of primitives, followed by nothing or by [drop]
    and any further tokens, [do_commands] resets the block to the spawn
    pose and walks the primitives in order from there.  At the first pose
    that is not legal, the spawn pose included, it raises
    [InvalidMoveError]: the block is left in that pose, and no row and no
    output has been made or changed.  When every pose is legal it commits
    the pose reached: the block is dropped from there, the bitmap returned
    is made of new rows and denotes the commit, the bitmap of the board
    denotes what it denoted; the board returned takes its block and its
    preview from the preview list, and when that list is empty the
    message is printed and [None] is returned instead.  What follows the
    first [drop] has no influence. *)
Theorem Board_do_commands_spec fuel board s g b steps tail :
  33 < fuel →
  grid s (bitmap board) = Some g → full_size g →
  block_objs s !! block board = Some b → offsets b ≠ [] →
  tail = [] ∨ (∃ later, tail = "drop" :: later) →
  match first_illegal g (spawn b) steps with
  | Some b' =>
      Board_do_commands fuel board ((token ∘ Step <$> steps) ++ tail) s =
        (Fail (Exn InvalidMoveError), with_block s (block board) b')
  | None =>
      ∃ new_bitmap ext s',
        Board_do_commands fuel board ((token ∘ Step <$> steps) ++ tail) s =
          (Ok match preview board with
              | [] => None
              | next :: rest => Some (mkBoard new_bitmap next rest)
              end, s')
        ∧ row_objs s' = row_objs s ++ ext
        ∧ block_objs s'
          = <[block board := dropped g (after_steps steps (spawn b))]> (block_objs s)
        ∧ stdout s' = stdout s ++ match preview board with
                                  | [] => [no_preview_message]
                                  | _ => []
                                  end
        ∧ grid s' new_bitmap = Some (committed g (after_steps steps (spawn b)))
        ∧ grid s' (bitmap board) = Some g
        ∧ Forall (λ r, length (row_objs s) ≤ r) new_bitmap
  end.
Proof.
  intros Hfuel Hg Hfull Hb Hne Htail.
  destruct (first_illegal g (spawn b) steps) as [b'|] eqn:Hwalk.
  - by rewrite (Board_do_commands_walk fuel board s g b steps tail Hg Hfull Hb Htail), Hwalk.
  - by apply Board_do_commands_commits.
Qed.

Lemma Board_do_commands_spec_witness :
  (∃ new_bitmap ext s',
     Board_do_commands 34 example_board
       ((token ∘ Step <$> [Left; Rotate]) ++ ["drop"; "up"; "no token"]) example_state =
       (Ok (Some (mkBoard new_bitmap 1 [])), s')
     ∧ row_objs s' = row_objs example_state ++ ext
     ∧ block_objs s'
       = <[0 := dropped empty_rows (after_steps [Left; Rotate] (spawn unit_block))]>
           (block_objs example_state)
     ∧ stdout s' = stdout example_state ++ []
     ∧ grid s' new_bitmap
       = Some (committed empty_rows (after_steps [Left; Rotate] (spawn unit_block)))
     ∧ grid s' (bitmap example_board) = Some empty_rows
     ∧ Forall (λ r, length (row_objs example_state) ≤ r) new_bitmap)
  ∧ Board_do_commands 34 example_board ((token ∘ Step <$> [Left; Up; Right]) ++ [])
      example_state =
    (Fail (Exn InvalidMoveError),
     with_block example_state 0 (shift (-1) 0 (shift 0 (-1) unit_block))).
Proof.
  split.
  - exact (Board_do_commands_spec 34 example_board example_state empty_rows unit_block
             [Left; Rotate] ["drop"; "up"; "no token"]
             ltac:(lia) eq_refl full_size_empty_rows eq_refl ltac:(discriminate)
             (or_intror (ex_intro _ ["up"; "no token"] eq_refl))).
  - exact (Board_do_commands_spec 34 example_board example_state empty_rows unit_block
             [Left; Up; Right] []
             ltac:(lia) eq_refl full_size_empty_rows eq_refl ltac:(discriminate)
             (or_introl eq_refl)).
Defined.

(** C3 as stated fails on a board with an empty preview list: the list
    runs, the block is committed, and [do_commands] returns [None], not a
    board, after [place] has printed its message. *)
Lemma Board_do_commands_empty_preview_returns_None :
  (Board_do_commands 34 last_board ["left"; "drop"] example_state).1 = Ok None
  ∧ stdout (Board_do_commands 34 last_board ["left"; "drop"] example_state).2
    = [no_preview_message].
Proof. split; vm_compute; reflexivity. Qed.

(** X16.  A list of primitives runs through [do_commands] exactly when
    the spawn pose and the pose after each primitive are legal.  Then the
    new board is the commit of the pose after the whole list, the bitmap
    of the old board denotes what it denoted, and nothing is printed.
    Otherwise [InvalidMoveError] is raised with the block left in the first
    illegal pose: the pose after a part of the list, the poses after every
    shorter part being legal; no row object has been made or changed. *)
Theorem Board_do_commands_cases fuel board s g b next rest steps :
  33 < fuel →
  grid s (bitmap board) = Some g → full_size g →
  block_objs s !! block board = Some b → offsets b ≠ [] →
  preview board = next :: rest →
  if legal g (spawn b) && path_legal g (spawn b) steps then
    ∃ new_bitmap s',
      Board_do_commands fuel board (token ∘ Step <$> steps) s =
        (Ok (Some (mkBoard new_bitmap next rest)), s')
      ∧ grid s' new_bitmap = Some (committed g (after_steps steps (spawn b)))
      ∧ grid s' (bitmap board) = Some g
      ∧ stdout s' = stdout s
  else
    ∃ made later,
      steps = made ++ later
      ∧ Board_do_commands fuel board (token ∘ Step <$> steps) s =
          (Fail (Exn InvalidMoveError),
           with_block s (block board) (after_steps made (spawn b)))
      ∧ legal g (after_steps made (spawn b)) = false
      ∧ ∀ fewer, fewer `prefix_of` made → fewer ≠ made →
          legal g (after_steps fewer (spawn b)) = true.
Proof.
  intros Hfuel Hg Hfull Hb Hne Hpreview.
  pose proof (first_illegal_None g steps (spawn b)) as Hnone.
  assert (token ∘ Step <$> steps = (token ∘ Step <$> steps) ++ []) as Htokens
    by (by rewrite app_nil_r).
  destruct (first_illegal g (spawn b) steps) as [b'|] eqn:Hwalk.
  - assert (legal g (spawn b) && path_legal g (spawn b) steps = false) as ->.
    { destruct (legal g (spawn b) && path_legal g (spawn b) steps); [|done].
      discriminate (proj2 Hnone eq_refl). }
    destruct (first_illegal_Some _ _ _ _ Hwalk) as (made & later & -> & -> & Hbad & Hfirst).
    exists made, later. split; [done|]. split; [|done].
    rewrite Htokens.
    rewrite (Board_do_commands_walk fuel board s g b _ [] Hg Hfull Hb (or_introl eq_refl)).
    by rewrite Hwalk.
  - rewrite (proj1 Hnone eq_refl).
    destruct (Board_do_commands_commits fuel board s g b steps [] Hfuel Hg Hfull Hb Hne
                (or_introl eq_refl) Hwalk)
      as (bm' & ext & s' & Hrun & _ & _ & Hstdout & Hgrid & Hold & _).
    rewrite Hpreview in Hrun, Hstdout. rewrite app_nil_r in Hstdout.
    exists bm', s'. by rewrite Htokens.
Qed.

Lemma Board_do_commands_cases_witness :
  (∃ new_bitmap s',
     Board_do_commands 34 example_board (token ∘ Step <$> [Left]) example_state =
       (Ok (Some (mkBoard new_bitmap 1 [])), s')
     ∧ grid s' new_bitmap
       = Some (committed empty_rows (after_steps [Left] (spawn unit_block)))
     ∧ grid s' (bitmap example_board) = Some empty_rows
     ∧ stdout s' = stdout example_state)
  ∧ (∃ made later,
       [Left; Up; Right] = made ++ later
       ∧ Board_do_commands 34 example_board (token ∘ Step <$> [Left; Up; Right])
           example_state =
           (Fail (Exn InvalidMoveError),
            with_block example_state 0 (after_steps made (spawn unit_block)))
       ∧ legal empty_rows (after_steps made (spawn unit_block)) = false
       ∧ ∀ fewer, fewer `prefix_of` made → fewer ≠ made →
           legal empty_rows (after_steps fewer (spawn unit_block)) = true).
Proof.
  split.
  - exact (Board_do_commands_cases 34 example_board example_state empty_rows unit_block 1 []
             [Left] ltac:(lia) eq_refl full_size_empty_rows eq_refl ltac:(discriminate)
             eq_refl).
  - exact (Board_do_commands_cases 34 example_board example_state empty_rows unit_block 1 []
             [Left; Up; Right] ltac:(lia) eq_refl full_size_empty_rows eq_refl
             ltac:(discriminate) eq_refl).
Defined.

(** ** The heuristic on a rectangular grid *)

Lemma for_each_seq_inv {B} (I : nat → B → Prop) (body : nat → B → outcome B) :
  ∀ n start acc,
    I start acc →
    (∀ k a, start ≤ k < start + n → I k a → ∃ a', body k a = Ok a' ∧ I (S k) a') →
    ∃ a', for_each (seq start n) body acc = Ok a' ∧ I (start + n) a'.
Proof.
  induction n as [|n IH]; intros start acc Hacc Hbody.
  - exists acc. by rewrite Nat.add_0_r.
  - destruct (Hbody start acc) as (a1 & Hrun & Ha1); [lia|done|].
    cbn [seq for_each]. rewrite Hrun, outcome_bind_Ok.
    destruct (IH (S start) a1 Ha1) as (a' & Hrest & Ha').
    { intros k a Hk. apply Hbody. lia. }
    exists a'. split; [done|]. by replace (start + S n) with (S start + n) by lia.
Qed.

Section heuristic_rectangular.
Variables (self : Board) (s : State) (g : list (list Z)) (rows cols : nat).
Hypothesis Hg : grid s (bitmap self) = Some g.
Hypothesis Hrect : rectangular rows cols g.
Hypothesis Hrows : 0 < rows.

Lemma Board_size_rect : Board_size self s = Ok (rows, cols).
Proof.
  destruct Hrect as [Hlen Hcols].
  destruct (lookup_lt_is_Some_2 g 0) as [first Hfirst]; [lia|].
  destruct (grid_lookup _ _ _ _ _ Hg Hfirst) as (r & Hr & Hobj).
  unfold Board_size. rewrite (py_index_in_range _ 0 r); [|lia|done].
  rewrite outcome_bind_Ok. unfold get_row. rewrite Hobj, outcome_bind_Ok.
  rewrite <- (grid_length _ _ _ Hg), Hlen.
  by rewrite (Forall_lookup_1 _ _ _ _ Hcols Hfirst).
Qed.

Lemma cell_rect (r c : nat) :
  r < rows → c < cols →
  cell self (Z.of_nat r) (Z.of_nat c) s = Ok (cell_value g r c).
Proof.
  intros Hr Hc. destruct Hrect as [Hlen Hcols].
  destruct (lookup_lt_is_Some_2 g r) as [cells Hcells]; [lia|].
  pose proof (Forall_lookup_1 _ _ _ _ Hcols Hcells) as Hwidth. simpl in Hwidth.
  destruct (lookup_lt_is_Some_2 cells c) as [v Hv]; [lia|].
  unfold cell_value, at_cell. rewrite Hcells. simpl. rewrite Hv. simpl.
  eapply cell_in_range; [done|lia|lia| |]; by rewrite Nat2Z.id.
Qed.

Lemma col_height_scan_rect (c : nat) :
  c < cols →
  ∀ n start, start + n = rows →
    col_height_scan self (Z.of_nat c) rows (seq start n) s =
    Ok (top_height (drop start g) c).
Proof.
  intros Hc. destruct Hrect as [Hlen Hcols].
  induction n as [|n IH]; intros start Hn.
  - rewrite drop_ge by lia. done.
  - destruct (lookup_lt_is_Some_2 g start) as [cells Hcells]; [lia|].
    rewrite (drop_S _ _ _ Hcells). cbn [seq col_height_scan top_height].
    rewrite cell_rect by lia. rewrite outcome_bind_Ok.
    unfold cell_value, at_cell. rewrite Hcells. simpl.
    destruct (negb (default 0%Z (cells !! c) =? 0)%Z).
    + do 2 f_equal. rewrite length_drop. lia.
    + apply IH. lia.
Qed.

Lemma Board_col_height_rect (c : nat) :
  c < cols → Board_col_height self (Z.of_nat c) s = Ok (top_height g c).
Proof.
  intros Hc. unfold Board_col_height. rewrite Board_size_rect, outcome_bind_Ok.
  cbv beta iota. by rewrite (col_height_scan_rect c Hc rows 0).
Qed.

End heuristic_rectangular.

Lemma top_height_bounds l c : (0 ≤ top_height l c ≤ Z.of_nat (length l))%Z.
Proof.
  induction l as [|row l IH]; simpl; [lia|].
  destruct (negb _); lia.
Qed.

Lemma cell_value_cons row l (r c : nat) :
  cell_value (row :: l) (S r) c = cell_value l r c.
Proof. reflexivity. Qed.

Lemma cell_value_head row l (c : nat) :
  cell_value (row :: l) 0 c = default 0%Z (row !! c).
Proof. unfold cell_value, at_cell. simpl. by destruct (row !! c). Qed.

(** The cells above the top of a column hold 0, and the cell at the top
    does not. *)
Lemma top_height_spec l c :
  (∀ r : nat, (Z.of_nat r < Z.of_nat (length l) - top_height l c)%Z → cell_value l r c = 0%Z)
  ∧ (top_height l c ≠ 0%Z →
     cell_value l (length l - Z.to_nat (top_height l c)) c ≠ 0%Z).
Proof.
  induction l as [|row l [IHabove IHtop]].
  - split; [|done]. intros r Hr. simpl in Hr. lia.
  - cbn [top_height]. destruct (Z.eqb_spec (default 0%Z (row !! c)) 0) as [Hzero|Hocc];
      cbn [negb].
    + pose proof (top_height_bounds l c) as Hb. split.
      * intros [|r] Hr; [by rewrite cell_value_head|].
        rewrite cell_value_cons. apply IHabove. simpl length in Hr. lia.
      * intros Hne. specialize (IHtop Hne). simpl length.
        replace (S (length l) - Z.to_nat (top_height l c))
          with (S (length l - Z.to_nat (top_height l c))) by lia.
        by rewrite cell_value_cons.
    + split.
      * intros r Hr. lia.
      * intros _. rewrite Nat2Z.id, Nat.sub_diag. by rewrite cell_value_head.
Qed.

Lemma top_height_zero l c :
  top_height l c = 0%Z ↔ ∀ r : nat, r < length l → cell_value l r c = 0%Z.
Proof.
  split.
  - intros Hzero r Hr. apply (proj1 (top_height_spec l c)). lia.
  - intros Hall. destruct (Z.eq_dec (top_height l c) 0%Z) as [|Hne]; [done|].
    pose proof (top_height_bounds l c) as Hb.
    pose proof (proj2 (top_height_spec l c) Hne) as Htop.
    exfalso. apply Htop, Hall. lia.
Qed.

Lemma max_upto_spec (f : nat → Z) n :
  (∀ k, k < n → (0 ≤ f k)%Z) →
  (∀ k, k < n → (f k ≤ max_upto f n)%Z)
  ∧ (max_upto f n = 0%Z ∨ ∃ k, k < n ∧ f k = max_upto f n)
  ∧ (0 ≤ max_upto f n)%Z.
Proof.
  induction n as [|n IH]; intros Hpos.
  - split; [intros k Hk; lia|]. split; [by left|done].
  - destruct IH as (Hle & Hatt & Hnonneg); [intros k Hk; apply Hpos; lia|].
    cbn [max_upto]. split; [|split].
    + intros k Hk. destruct (decide (k = n)) as [->|Hne]; [lia|].
      specialize (Hle k ltac:(lia)). lia.
    + destruct (Z.max_spec (max_upto f n) (f n)) as [[_ ->]|[_ ->]].
      * right. exists n. split; [lia|done].
      * destruct Hatt as [Hz|(k & Hk & Hfk)]; [by left|].
        right. exists k. split; [lia|done].
    + lia.
Qed.

Lemma variation_upto_nonneg (f : nat → Z) n : (0 ≤ variation_upto f n)%Z.
Proof. induction n as [|[|n] IH]; simpl in *; lia. Qed.

Lemma variation_upto_zero (f : nat → Z) n :
  variation_upto f n = 0%Z ↔ ∀ k, k < n → f k = f 0.
Proof.
  induction n as [|n IH].
  - split; [intros _ k Hk; lia|done].
  - pose proof (variation_upto_nonneg f n) as Hpos. cbn [variation_upto].
    destruct n as [|p].
    + split; [|simpl; lia]. intros _ k Hk. by replace k with 0 by lia.
    + split.
      * intros Hsum k Hk.
        assert (variation_upto f (S p) = 0%Z) as Hprev by lia.
        destruct (decide (k = S p)) as [->|Hne].
        -- pose proof (proj1 IH Hprev p ltac:(lia)). lia.
        -- apply (proj1 IH Hprev). lia.
      * intros Hall.
        assert (variation_upto f (S p) = 0%Z) as ->.
        { apply IH. intros k Hk. apply Hall. lia. }
        rewrite (Hall (S p)), (Hall p) by lia. lia.
Qed.

Lemma occupied_above_S g r c :
  occupied_above g (S r) c = occupied_above g r c || negb (cell_value g r c =? 0)%Z.
Proof.
  unfold occupied_above. rewrite seq_S, existsb_app. simpl. by rewrite orb_false_r.
Qed.

Section heuristic_loops.
Variables (self : Board) (s : State) (g : list (list Z)) (rows cols : nat).
Hypothesis Hg : grid s (bitmap self) = Some g.
Hypothesis Hrect : rectangular rows cols g.
Hypothesis Hrows : 0 < rows.

Lemma Board_max_height_rect :
  Board_max_height self s = Ok (max_upto (top_height g) cols).
Proof.
  unfold Board_max_height.
  rewrite (Board_size_rect self s g rows cols Hg Hrect Hrows), outcome_bind_Ok.
  cbv beta iota.
  destruct (for_each_seq_inv (λ k m, m = max_upto (top_height g) k)
    (λ col m_height,
       h ← Board_col_height self (Z.of_nat col) s; mret (Z.max m_height h))
    cols 0 0%Z) as (m & Hrun & ->); [done| |done].
  intros k m Hk ->.
  rewrite (Board_col_height_rect self s g rows cols Hg Hrect Hrows k) by lia.
  by eexists.
Qed.

Lemma Board_height_variance_rect :
  0 < cols →
  Board_height_variance self s = Ok (variation_upto (top_height g) cols).
Proof.
  intros Hcols. unfold Board_height_variance.
  rewrite (Board_size_rect self s g rows cols Hg Hrect Hrows), outcome_bind_Ok.
  cbv beta iota.
  pose proof (Board_col_height_rect self s g rows cols Hg Hrect Hrows 0 Hcols) as H0.
  change (Z.of_nat 0) with 0%Z in H0. rewrite H0, outcome_bind_Ok.
  destruct (for_each_seq_inv
    (λ k (acc : Z * Z),
       acc.1 = variation_upto (top_height g) k ∧ acc.2 = top_height g (pred k))
    (λ col '(variance, prev),
       cur ← Board_col_height self (Z.of_nat col) s;
       mret ((variance + Z.abs (cur - prev))%Z, cur))
    cols 0 (0%Z, top_height g 0)) as ([v p] & Hrun & Hv & _); [done| |].
  - intros k [v p] Hk [Hv Hp]. simpl in Hv, Hp. subst v p.
    rewrite (Board_col_height_rect self s g rows cols Hg Hrect Hrows k) by lia.
    eexists. split; [reflexivity|]. split; [|done]. simpl.
    destruct k as [|k]; simpl; [|done]. lia.
  - rewrite Hrun, outcome_bind_Ok. simpl in Hv. by rewrite Hv.
Qed.

Lemma Board_num_holes_rect : Board_num_holes self s = Ok (holes_of g rows cols).
Proof.
  unfold Board_num_holes.
  rewrite (Board_size_rect self s g rows cols Hg Hrect Hrows), outcome_bind_Ok.
  cbv beta iota.
  set (counted r c := (holes_of g r cols + count_upto (covered g r) c)%Z).
  set (marks (r c : nat) (occ : list Z) :=
         length occ = cols
         ∧ ∀ c', c' < cols →
             ∃ o, occ !! c' = Some o ∧ (0 ≤ o)%Z
                  ∧ (o ≠ 0%Z ↔ occupied_above g (if decide (c' < c) then S r else r) c' = true)).
  destruct (for_each_seq_inv
    (λ r (acc : Z * list Z), acc.1 = holes_of g r cols ∧ marks r 0 acc.2)
    (λ row acc,
      for_each (seq 0 cols) (λ col '(holes, column_occupied),
        v ← cell self (Z.of_nat row) (Z.of_nat col) s;
        if (v =? 0)%Z then
          occupied ← py_index column_occupied (Z.of_nat col);
          mret (if truthy occupied then (holes + 1)%Z else holes, column_occupied)
        else
          occupied ← py_index column_occupied (Z.of_nat col);
          mret (holes, <[col := (occupied + 1)%Z]> column_occupied))
      acc)
    rows 0 (0%Z, replicate cols 0%Z)) as ([holes occ] & Hrun & Hholes & _).
  - split; [done|]. unfold marks. cbn [snd]. split; [by rewrite length_replicate|].
    intros c' Hc'. exists 0%Z. rewrite lookup_replicate_2 by done.
    split; [done|]. split; [done|]. by split.
  - intros r [holes occ] Hr [Hholes Hocc]. simpl in Hholes, Hocc.
    destruct (for_each_seq_inv
      (λ c (acc : Z * list Z), acc.1 = counted r c ∧ marks r c acc.2)
      (λ col '(holes, column_occupied),
        v ← cell self (Z.of_nat r) (Z.of_nat col) s;
        if (v =? 0)%Z then
          occupied ← py_index column_occupied (Z.of_nat col);
          mret (if truthy occupied then (holes + 1)%Z else holes, column_occupied)
        else
          occupied ← py_index column_occupied (Z.of_nat col);
          mret (holes, <[col := (occupied + 1)%Z]> column_occupied))
      cols 0 (holes, occ)) as ([holes' occ'] & Hrow & Hholes' & Hlen' & Hocc').
    + split; [|done]. unfold counted. simpl. lia.
    + intros c [h oc] Hc [Hh [Hlen Hmarks]]. simpl in Hh, Hlen, Hmarks.
      rewrite (cell_rect self s g rows cols Hg Hrect Hrows r c) by lia.
      rewrite outcome_bind_Ok.
      destruct (Hmarks c ltac:(lia)) as (o & Ho & Hpos & Hiff).
      rewrite decide_False in Hiff by lia.
      rewrite (py_index_in_range oc (Z.of_nat c) o) by (rewrite ?Nat2Z.id; done || lia).
      unfold counted in *. cbn [count_upto]. unfold covered at 2.
      destruct (Z.eqb_spec (cell_value g r c) 0) as [Hzero|Hocc''].
      * rewrite outcome_bind_Ok. eexists. split; [reflexivity|]. simpl. split.
        -- unfold truthy. destruct (Z.eqb_spec o 0) as [->|Hne]; simpl.
           ++ destruct (occupied_above g r c); [|lia].
              exfalso. by apply (proj2 Hiff).
           ++ rewrite (proj1 Hiff Hne). lia.
        -- split; [done|]. intros c' Hc'.
           destruct (Hmarks c' Hc') as (o' & Ho' & Hpos' & Hiff').
           exists o'. split; [done|]. split; [done|].
           destruct (decide (c' = c)) as [->|Hne].
           ++ rewrite decide_True by lia. rewrite occupied_above_S, Hzero. simpl.
              rewrite orb_false_r. rewrite decide_False in Hiff' by lia. done.
           ++ destruct (decide (c' < c)).
              ** by rewrite decide_True by lia.
              ** by rewrite decide_False by lia.
      * rewrite outcome_bind_Ok. eexists. split; [reflexivity|]. simpl. split; [lia|].
        split; [by rewrite length_insert|]. intros c' Hc'.
        destruct (decide (c' = c)) as [->|Hne].
        -- exists (o + 1)%Z. rewrite list_lookup_insert_eq by lia.
           split; [done|]. split; [lia|]. rewrite decide_True by lia.
           rewrite occupied_above_S.
           destruct (Z.eqb_spec (cell_value g r c) 0) as [|_]; [done|].
           rewrite orb_true_r. split; [done|lia].
        -- destruct (Hmarks c' Hc') as (o' & Ho' & Hpos' & Hiff').
           exists o'. rewrite list_lookup_insert_ne by done.
           split; [done|]. split; [done|].
           destruct (decide (c' < c)).
           ++ by rewrite decide_True by lia.
           ++ by rewrite decide_False by lia.
    + exists (holes', occ'). split; [exact Hrow|]. simpl in *. split.
      * rewrite Hholes'. unfold counted, holes_of. by cbn [sum_upto].
      * unfold marks. split; [done|]. intros c' Hc'.
        destruct (Hocc' c' Hc') as (o & Ho & Hpos & Hiff).
        exists o. split; [done|]. split; [done|].
        rewrite decide_True in Hiff by lia. by rewrite decide_False by lia.
  - rewrite Hrun, outcome_bind_Ok. simpl in Hholes. by rewrite Hholes.
Qed.

End heuristic_loops.

(** ** The features of the heuristic *)

Lemma count_upto_nonneg P n : (0 ≤ count_upto P n)%Z.
Proof. induction n as [|n IH]; simpl; [done|]. destruct (P n); lia. Qed.

Lemma count_upto_zero P n : count_upto P n = 0%Z ↔ ∀ k, k < n → P k = false.
Proof.
  induction n as [|n IH]; simpl.
  - split; [intros _ k Hk; lia|done].
  - pose proof (count_upto_nonneg P n) as Hpos. split.
    + intros Hsum k Hk. destruct (P n) eqn:E; [lia|].
      destruct (decide (k = n)) as [->|Hne]; [done|]. apply IH; lia.
    + intros Hall. rewrite (Hall n) by lia.
      rewrite (proj2 IH); [done|]. intros k Hk. apply Hall. lia.
Qed.

Lemma count_upto_pos P n k : k < n → P k = true → (1 ≤ count_upto P n)%Z.
Proof.
  induction n as [|n IH]; intros Hk HP; [lia|]. simpl.
  pose proof (count_upto_nonneg P n) as Hpos.
  destruct (decide (k = n)) as [->|Hne]; [rewrite HP; lia|].
  specialize (IH ltac:(lia) HP). destruct (P n); lia.
Qed.

Lemma sum_upto_nonneg f n : (∀ k, k < n → (0 ≤ f k)%Z) → (0 ≤ sum_upto f n)%Z.
Proof.
  induction n as [|n IH]; intros Hpos; simpl; [done|].
  specialize (Hpos n ltac:(lia)) as Hn. specialize (IH ltac:(intros; apply Hpos; lia)). lia.
Qed.

Lemma sum_upto_term f n k :
  (∀ k, k < n → (0 ≤ f k)%Z) → k < n → (f k ≤ sum_upto f n)%Z.
Proof.
  induction n as [|n IH]; intros Hpos Hk; [lia|]. simpl.
  pose proof (sum_upto_nonneg f n ltac:(intros; apply Hpos; lia)) as Hsum.
  pose proof (Hpos n ltac:(lia)) as Hn.
  destruct (decide (k = n)) as [->|Hne]; [lia|].
  specialize (IH ltac:(intros; apply Hpos; lia) ltac:(lia)). lia.
Qed.

Lemma sum_upto_zero f n :
  (∀ k, k < n → (0 ≤ f k)%Z) → sum_upto f n = 0%Z ↔ ∀ k, k < n → f k = 0%Z.
Proof.
  intros Hpos. split.
  - intros Hsum k Hk. pose proof (sum_upto_term f n k Hpos Hk). specialize (Hpos k Hk). lia.
  - intros Hall. clear Hpos. induction n as [|n IH]; simpl; [done|].
    rewrite IH, (Hall n) by (intros; try apply Hall; lia). done.
Qed.

Lemma occupied_above_true g r c :
  occupied_above g r c = true ↔ ∃ r', r' < r ∧ cell_value g r' c ≠ 0%Z.
Proof.
  unfold occupied_above. rewrite existsb_exists. split.
  - intros (r' & Hin%in_seq & Hocc). exists r'. split; [lia|].
    by destruct (Z.eqb_spec (cell_value g r' c) 0).
  - intros (r' & Hr' & Hocc). exists r'. split; [apply in_seq; lia|].
    by destruct (Z.eqb_spec (cell_value g r' c) 0).
Qed.

Lemma holes_of_nonneg g rows cols : (0 ≤ holes_of g rows cols)%Z.
Proof. apply sum_upto_nonneg. intros. apply count_upto_nonneg. Qed.

Lemma holes_of_zero g rows cols :
  holes_of g rows cols = 0%Z ↔ ∀ r c, r < rows → c < cols → covered g r c = false.
Proof.
  unfold holes_of. rewrite sum_upto_zero by (intros; apply count_upto_nonneg).
  split.
  - intros H r c Hr Hc. by apply (proj1 (count_upto_zero _ _) (H r Hr)).
  - intros H r Hr. apply count_upto_zero. intros c Hc. by apply H.
Qed.

Lemma variation_upto_diff (f : nat → Z) n j k :
  j ≤ k → k < n → (Z.abs (f k - f j) ≤ variation_upto f n)%Z.
Proof.
  revert j k. induction n as [|n IH]; intros j k Hjk Hk; [lia|].
  cbn [variation_upto]. pose proof (variation_upto_nonneg f n) as Hpos.
  destruct (decide (k = n)) as [->|Hne].
  - destruct n as [|p].
    + replace j with 0 by lia. lia.
    + destruct (decide (j = S p)) as [->|Hj]; [lia|].
      specialize (IH j p ltac:(lia) ltac:(lia)). lia.
  - specialize (IH j k Hjk ltac:(lia)). destruct n; lia.
Qed.

Lemma top_height_nonzero g c :
  top_height g c ≠ 0%Z →
  ∃ r, r < length g ∧ cell_value g r c ≠ 0%Z ∧ top_height g c = (Z.of_nat (length g) - Z.of_nat r)%Z.
Proof.
  intros Hne. pose proof (top_height_bounds g c) as Hb.
  exists (length g - Z.to_nat (top_height g c)). split; [lia|].
  split; [by apply top_height_spec|lia].
Qed.

Lemma Board_height_penalty_rect self s g rows cols :
  grid s (bitmap self) = Some g → rectangular rows cols g → 0 < rows →
  Board_height_penalty self s = Ok (penalty_of g rows cols).
Proof.
  intros Hg Hrect Hrows. unfold Board_height_penalty.
  rewrite (Board_size_rect self s g rows cols Hg Hrect Hrows), outcome_bind_Ok.
  cbv beta iota.
  set (occupied r c := negb (cell_value g r c =? 0)%Z).
  set (weighted r := ((Z.of_nat rows - Z.of_nat r) * count_upto (occupied r) cols)%Z).
  destruct (for_each_seq_inv (λ r acc, acc = sum_upto weighted r)
    (λ row penalty,
       for_each (seq 0 cols) (λ col penalty,
         v ← cell self (Z.of_nat row) (Z.of_nat col) s;
         mret (if negb (v =? 0)%Z then (penalty + (Z.of_nat rows - Z.of_nat row))%Z
               else penalty)) penalty)
    rows 0 0%Z) as (p & Hrun & Hp); [done| |].
  - intros r acc Hr ->.
    destruct (for_each_seq_inv
      (λ c acc, acc = sum_upto weighted r
                      + (Z.of_nat rows - Z.of_nat r) * count_upto (occupied r) c)%Z
      (λ col penalty,
         v ← cell self (Z.of_nat r) (Z.of_nat col) s;
         mret (if negb (v =? 0)%Z then (penalty + (Z.of_nat rows - Z.of_nat r))%Z
               else penalty))
      cols 0 (sum_upto weighted r)) as (p & Hrow & Hp); [simpl; lia| |].
    + intros c acc Hc ->.
      rewrite (cell_rect self s g rows cols Hg Hrect Hrows r c) by lia.
      rewrite outcome_bind_Ok. eexists. split; [reflexivity|].
      cbn [count_upto]. unfold occupied.
      destruct (negb (cell_value g r c =? 0)%Z); lia.
    + exists p. split; [exact Hrow|]. by rewrite Hp.
  - rewrite Hrun. by rewrite Hp.
Qed.

Lemma rectangular_uneven_rows : rectangular 3 3 uneven_rows.
Proof. split; [reflexivity|]. repeat constructor. Qed.

Lemma rectangular_narrow_rows : rectangular 2 0 [[]; []].
Proof. split; [reflexivity|]. repeat constructor. Qed.

(** X17.  On a bitmap of [rows] rows of [cols] cells, [rows] at least 1,
    [col_height] of a column below [cols] returns a height between 0 and
    [rows]: every cell of the column above that height holds 0, and unless
    the height is 0 the cell at that height does not. *)
Theorem Board_col_height_top self s g rows cols c :
  grid s (bitmap self) = Some g → rectangular rows cols g → 0 < rows → c < cols →
  ∃ h, Board_col_height self (Z.of_nat c) s = Ok h
    ∧ (0 ≤ h ≤ Z.of_nat rows)%Z
    ∧ (∀ r : nat, (Z.of_nat r < Z.of_nat rows - h)%Z → at_cell g r c = Some 0%Z)
    ∧ (h ≠ 0%Z → ∃ v, at_cell g (rows - Z.to_nat h) c = Some v ∧ v ≠ 0%Z).
Proof.
  intros Hg Hrect Hrows Hc. exists (top_height g c).
  split; [by apply (Board_col_height_rect self s g rows cols)|].
  pose proof (top_height_bounds g c) as Hb.
  pose proof (top_height_spec g c) as [Habove Htop].
  destruct Hrect as [Hlen Hcols]. rewrite Hlen in *.
  split; [done|]. split.
  - intros r Hr. specialize (Habove r Hr). unfold cell_value, at_cell in *.
    destruct (lookup_lt_is_Some_2 g r) as [cells Hcells]; [lia|].
    pose proof (Forall_lookup_1 _ _ _ _ Hcols Hcells) as Hwidth. simpl in Hwidth.
    destruct (lookup_lt_is_Some_2 cells c) as [v Hv]; [lia|].
    rewrite Hcells in *. simpl in *. rewrite Hv in *. simpl in Habove. by subst v.
  - intros Hne. specialize (Htop Hne). unfold cell_value in Htop.
    destruct (at_cell g (rows - Z.to_nat (top_height g c)) c) as [v|]; [|done].
    by exists v.
Qed.

Lemma Board_col_height_top_witness :
  ∃ h, Board_col_height uneven_board (Z.of_nat 0) uneven_state = Ok h
    ∧ (0 ≤ h ≤ Z.of_nat 3)%Z
    ∧ (∀ r : nat, (Z.of_nat r < Z.of_nat 3 - h)%Z → at_cell uneven_rows r 0 = Some 0%Z)
    ∧ (h ≠ 0%Z → ∃ v, at_cell uneven_rows (3 - Z.to_nat h) 0 = Some v ∧ v ≠ 0%Z).
Proof.
  apply (Board_col_height_top uneven_board uneven_state uneven_rows 3 3 0).
  - reflexivity.
  - exact rectangular_uneven_rows.
  - lia.
  - lia.
Defined.

(** X18.  On such a bitmap [max_height] returns a number that no column
    height exceeds, and that is the height of some column unless it is 0. *)
Theorem Board_max_height_greatest self s g rows cols :
  grid s (bitmap self) = Some g → rectangular rows cols g → 0 < rows →
  ∃ m, Board_max_height self s = Ok m
    ∧ (∀ c, c < cols → ∃ h, Board_col_height self (Z.of_nat c) s = Ok h ∧ (h ≤ m)%Z)
    ∧ (m = 0%Z ∨ ∃ c, c < cols ∧ Board_col_height self (Z.of_nat c) s = Ok m).
Proof.
  intros Hg Hrect Hrows. exists (max_upto (top_height g) cols).
  split; [by apply (Board_max_height_rect self s g rows cols)|].
  destruct (max_upto_spec (top_height g) cols) as (Hle & Hatt & _).
  { intros k _. apply top_height_bounds. }
  split.
  - intros c Hc. exists (top_height g c).
    split; [by apply (Board_col_height_rect self s g rows cols)|by apply Hle].
  - destruct Hatt as [Hzero|(c & Hc & Hm)]; [by left|]. right. exists c.
    split; [done|]. rewrite <- Hm. by apply (Board_col_height_rect self s g rows cols).
Qed.

Lemma Board_max_height_greatest_witness :
  ∃ m, Board_max_height uneven_board uneven_state = Ok m
    ∧ (∀ c, c < 3 →
         ∃ h, Board_col_height uneven_board (Z.of_nat c) uneven_state = Ok h ∧ (h ≤ m)%Z)
    ∧ (m = 0%Z ∨
       ∃ c, c < 3 ∧ Board_col_height uneven_board (Z.of_nat c) uneven_state = Ok m).
Proof.
  apply (Board_max_height_greatest uneven_board uneven_state uneven_rows 3 3).
  - reflexivity.
  - exact rectangular_uneven_rows.
  - lia.
Defined.

(** X19.  On such a bitmap with at least one column [height_variance]
    returns a number that is at least the difference of the heights of any
    two columns, and that is 0 exactly when all columns have the height of
    column 0. *)
Theorem Board_height_variance_flat self s g rows cols :
  grid s (bitmap self) = Some g → rectangular rows cols g → 0 < rows → 0 < cols →
  ∃ v, Board_height_variance self s = Ok v
    ∧ (∀ c c' h h', c < cols → c' < cols →
         Board_col_height self (Z.of_nat c) s = Ok h →
         Board_col_height self (Z.of_nat c') s = Ok h' →
         (Z.abs (h - h') ≤ v)%Z)
    ∧ (v = 0%Z ↔
       ∀ c, c < cols →
         Board_col_height self (Z.of_nat c) s = Board_col_height self 0 s).
Proof.
  intros Hg Hrect Hrows Hcols. exists (variation_upto (top_height g) cols).
  split; [by apply (Board_height_variance_rect self s g rows cols)|].
  pose proof (Board_col_height_rect self s g rows cols Hg Hrect Hrows) as Hheight.
  split.
  - intros c c' h h' Hc Hc'. rewrite !Hheight by done. intros [= <-] [= <-].
    destruct (decide (c ≤ c')) as [Hle|Hgt].
    + rewrite <- Z.abs_opp.
      replace (- (top_height g c - top_height g c'))%Z
        with (top_height g c' - top_height g c)%Z by lia.
      by apply variation_upto_diff.
    + apply variation_upto_diff; lia.
  - rewrite variation_upto_zero. pose proof (Hheight 0 Hcols) as Hfirst.
    change (Z.of_nat 0) with 0%Z in Hfirst. rewrite Hfirst. split.
    + intros Hall c Hc. rewrite Hheight by done. f_equal. by apply Hall.
    + intros Hall c Hc. specialize (Hall c Hc). rewrite Hheight in Hall by done.
      by injection Hall.
Qed.

Lemma Board_height_variance_flat_witness :
  ∃ v, Board_height_variance uneven_board uneven_state = Ok v
    ∧ (∀ c c' h h', c < 3 → c' < 3 →
         Board_col_height uneven_board (Z.of_nat c) uneven_state = Ok h →
         Board_col_height uneven_board (Z.of_nat c') uneven_state = Ok h' →
         (Z.abs (h - h') ≤ v)%Z)
    ∧ (v = 0%Z ↔
       ∀ c, c < 3 →
         Board_col_height uneven_board (Z.of_nat c) uneven_state
         = Board_col_height uneven_board 0 uneven_state).
Proof.
  apply (Board_height_variance_flat uneven_board uneven_state uneven_rows 3 3).
  - reflexivity.
  - exact rectangular_uneven_rows.
  - lia.
  - lia.
Defined.

(** X20.  On such a bitmap [num_holes] returns the number of cells that
    hold 0 and have a cell that does not hold 0 somewhere above them in
    their column; it returns 0 exactly when there is no such cell. *)
Theorem Board_num_holes_counts self s g rows cols :
  grid s (bitmap self) = Some g → rectangular rows cols g → 0 < rows →
  Board_num_holes self s = Ok (holes_of g rows cols)
  ∧ (holes_of g rows cols = 0%Z ↔
     ∀ r c, r < rows → c < cols → cell_value g r c = 0%Z →
       ∀ r', r' < r → cell_value g r' c = 0%Z).
Proof.
  intros Hg Hrect Hrows.
  split; [by apply (Board_num_holes_rect self s g rows cols)|].
  rewrite holes_of_zero. split.
  - intros Hnone r c Hr Hc Hzero r' Hr'. specialize (Hnone r c Hr Hc).
    unfold covered in Hnone. rewrite Hzero in Hnone. simpl in Hnone.
    destruct (Z.eq_dec (cell_value g r' c) 0%Z) as [|Hne]; [done|].
    assert (occupied_above g r c = true) as Hocc; [|congruence].
    apply occupied_above_true. by exists r'.
  - intros Hall r c Hr Hc. unfold covered.
    destruct (Z.eqb_spec (cell_value g r c) 0) as [Hzero|]; [|done]. simpl.
    destruct (occupied_above g r c) eqn:Hocc; [|done].
    apply occupied_above_true in Hocc as (r' & Hr' & Hne).
    by destruct Hne; apply (Hall r c).
Qed.

Lemma Board_num_holes_counts_witness :
  Board_num_holes uneven_board uneven_state = Ok (holes_of uneven_rows 3 3)
  ∧ (holes_of uneven_rows 3 3 = 0%Z ↔
     ∀ r c, r < 3 → c < 3 → cell_value uneven_rows r c = 0%Z →
       ∀ r', r' < r → cell_value uneven_rows r' c = 0%Z).
Proof.
  apply (Board_num_holes_counts uneven_board uneven_state uneven_rows 3 3).
  - reflexivity.
  - exact rectangular_uneven_rows.
  - lia.
Defined.

Lemma top_height_all_zero g rows cols :
  rectangular rows cols g →
  (∀ c, c < cols → top_height g c = 0%Z)
  ↔ (∀ r c, r < rows → c < cols → cell_value g r c = 0%Z).
Proof.
  intros [Hlen _]. split.
  - intros Hflat r c Hr Hc. apply (proj1 (top_height_zero g c)); [by apply Hflat|lia].
  - intros Hempty c Hc. apply top_height_zero. intros r Hr. apply Hempty; lia.
Qed.

(** X21.  On such a bitmap with at least one column [evaluate] returns a
    score that is never positive, and that is 0 exactly when every cell of
    the bitmap holds 0. *)
Theorem Board_evaluate_nonpositive self s g rows cols :
  grid s (bitmap self) = Some g → rectangular rows cols g → 0 < rows → 0 < cols →
  ∃ score, Board_evaluate self s = Ok score
    ∧ (score ≤ 0)%Z
    ∧ (score = 0%Z ↔ ∀ r c, r < rows → c < cols → at_cell g r c = Some 0%Z).
Proof.
  intros Hg Hrect Hrows Hcols.
  exists (- holes_of g rows cols - max_upto (top_height g) cols
          - variation_upto (top_height g) cols)%Z.
  split.
  { unfold Board_evaluate.
    rewrite (Board_num_holes_rect self s g rows cols Hg Hrect Hrows), outcome_bind_Ok.
    rewrite (Board_max_height_rect self s g rows cols Hg Hrect Hrows), outcome_bind_Ok.
    by rewrite (Board_height_variance_rect self s g rows cols Hg Hrect Hrows Hcols). }
  pose proof (holes_of_nonneg g rows cols) as Hholes.
  pose proof (variation_upto_nonneg (top_height g) cols) as Hvar.
  destruct (max_upto_spec (top_height g) cols) as (Hle & Hatt & Hmax).
  { intros k _. apply top_height_bounds. }
  split; [lia|].
  assert ((∀ r c, r < rows → c < cols → at_cell g r c = Some 0%Z)
          ↔ (∀ r c, r < rows → c < cols → cell_value g r c = 0%Z)) as ->.
  { destruct Hrect as [Hlen Hwidth]. split.
    - intros Hall r c Hr Hc. unfold cell_value. by rewrite Hall.
    - intros Hall r c Hr Hc. specialize (Hall r c Hr Hc). unfold cell_value, at_cell in *.
      destruct (lookup_lt_is_Some_2 g r) as [cells Hcells]; [lia|].
      pose proof (Forall_lookup_1 _ _ _ _ Hwidth Hcells) as Hcs. simpl in Hcs.
      destruct (lookup_lt_is_Some_2 cells c) as [v Hv]; [lia|].
      rewrite Hcells in *. simpl in *. rewrite Hv in *. simpl in Hall. by subst v. }
  rewrite <- (top_height_all_zero g rows cols Hrect). split.
  - intros Hscore c Hc. pose proof (top_height_bounds g c). specialize (Hle c Hc). lia.
  - intros Hflat.
    assert (max_upto (top_height g) cols = 0%Z) as ->.
    { destruct Hatt as [|(c & Hc & <-)]; [done|]. by apply Hflat. }
    assert (variation_upto (top_height g) cols = 0%Z) as ->.
    { apply variation_upto_zero. intros k Hk. by rewrite !Hflat. }
    assert (holes_of g rows cols = 0%Z) as ->; [|done].
    apply holes_of_zero. intros r c Hr Hc. unfold covered.
    destruct (occupied_above g r c) eqn:Hocc; [|by rewrite andb_false_r].
    apply occupied_above_true in Hocc as (r' & Hr' & Hne). destruct Hne.
    apply (proj1 (top_height_all_zero g rows cols Hrect) Hflat); [lia|done].
Qed.

Lemma Board_evaluate_nonpositive_witness :
  ∃ score, Board_evaluate uneven_board uneven_state = Ok score
    ∧ (score ≤ 0)%Z
    ∧ (score = 0%Z ↔ ∀ r c, r < 3 → c < 3 → at_cell uneven_rows r c = Some 0%Z).
Proof.
  apply (Board_evaluate_nonpositive uneven_board uneven_state uneven_rows 3 3).
  - reflexivity.
  - exact rectangular_uneven_rows.
  - lia.
  - lia.
Defined.

(** X22.  On a bitmap of at least one row whose rows have no cells,
    [num_holes], [max_height] and [height_penalty] return 0, while
    [height_variance] raises [IndexError], because it asks for the height
    of column 0 before its loop, and so does [evaluate]. *)
Theorem heuristic_without_columns self s g rows :
  grid s (bitmap self) = Some g → rectangular rows 0 g → 0 < rows →
  Board_num_holes self s = Ok 0%Z
  ∧ Board_max_height self s = Ok 0%Z
  ∧ Board_height_penalty self s = Ok 0%Z
  ∧ Board_height_variance self s = Fail (Exn IndexError)
  ∧ Board_evaluate self s = Fail (Exn IndexError).
Proof.
  intros Hg Hrect Hrows.
  assert (Board_num_holes self s = Ok 0%Z) as Hholes.
  { rewrite (Board_num_holes_rect self s g rows 0 Hg Hrect Hrows). f_equal.
    by apply holes_of_zero; intros r c _ Hc; lia. }
  assert (Board_max_height self s = Ok 0%Z) as Hmax.
  { by rewrite (Board_max_height_rect self s g rows 0 Hg Hrect Hrows). }
  assert (Board_height_penalty self s = Ok 0%Z) as Hpenalty.
  { rewrite (Board_height_penalty_rect self s g rows 0 Hg Hrect Hrows). f_equal.
    unfold penalty_of. apply sum_upto_zero; intros k Hk; simpl; lia. }
  assert (Board_height_variance self s = Fail (Exn IndexError)) as Hvar.
  { unfold Board_height_variance.
    rewrite (Board_size_rect self s g rows 0 Hg Hrect Hrows), outcome_bind_Ok.
    cbv beta iota. unfold Board_col_height.
    rewrite (Board_size_rect self s g rows 0 Hg Hrect Hrows), outcome_bind_Ok.
    cbv beta iota. destruct rows as [|n]; [lia|]. cbn [seq col_height_scan].
    destruct Hrect as [Hlen Hwidth].
    destruct (lookup_lt_is_Some_2 g 0) as [cells Hcells]; [lia|].
    pose proof (Forall_lookup_1 _ _ _ _ Hwidth Hcells) as Hcs. simpl in Hcs.
    apply nil_length_inv in Hcs. subst cells.
    destruct (grid_lookup _ _ _ _ _ Hg Hcells) as (r & Hr & Hobj).
    unfold cell. change (Z.of_nat 0) with 0%Z.
    rewrite (py_index_in_range _ 0 r); [|lia|done].
    rewrite outcome_bind_Ok. unfold get_row. by rewrite Hobj. }
  repeat (split; [done|]).
  unfold Board_evaluate. rewrite Hholes, outcome_bind_Ok, Hmax, outcome_bind_Ok.
  by rewrite Hvar.
Qed.

Lemma heuristic_without_columns_witness :
  Board_num_holes narrow_board narrow_state = Ok 0%Z
  ∧ Board_max_height narrow_board narrow_state = Ok 0%Z
  ∧ Board_height_penalty narrow_board narrow_state = Ok 0%Z
  ∧ Board_height_variance narrow_board narrow_state = Fail (Exn IndexError)
  ∧ Board_evaluate narrow_board narrow_state = Fail (Exn IndexError).
Proof.
  apply (heuristic_without_columns narrow_board narrow_state [[]; []] 2).
  - reflexivity.
  - exact rectangular_narrow_rows.
  - lia.
Defined.

(** X23.  On a bitmap without rows [size] raises [IndexError], and with it
    every feature of the heuristic and [evaluate]. *)
Theorem heuristic_without_rows self s col :
  bitmap self = [] →
  Board_size self s = Fail (Exn IndexError)
  ∧ Board_num_holes self s = Fail (Exn IndexError)
  ∧ Board_col_height self col s = Fail (Exn IndexError)
  ∧ Board_max_height self s = Fail (Exn IndexError)
  ∧ Board_height_variance self s = Fail (Exn IndexError)
  ∧ Board_height_penalty self s = Fail (Exn IndexError)
  ∧ Board_evaluate self s = Fail (Exn IndexError).
Proof.
  intros Hempty.
  assert (Board_size self s = Fail (Exn IndexError)) as Hsize.
  { unfold Board_size. by rewrite Hempty. }
  assert (Board_num_holes self s = Fail (Exn IndexError)) as Hholes.
  { unfold Board_num_holes. by rewrite Hsize. }
  repeat split; try done.
  - unfold Board_col_height. by rewrite Hsize.
  - unfold Board_max_height. by rewrite Hsize.
  - unfold Board_height_variance. by rewrite Hsize.
  - unfold Board_height_penalty. by rewrite Hsize.
  - unfold Board_evaluate. by rewrite Hholes.
Qed.

Lemma heuristic_without_rows_witness :
  Board_size (mkBoard [] 0 []) uneven_state = Fail (Exn IndexError)
  ∧ Board_num_holes (mkBoard [] 0 []) uneven_state = Fail (Exn IndexError)
  ∧ Board_col_height (mkBoard [] 0 []) 0 uneven_state = Fail (Exn IndexError)
  ∧ Board_max_height (mkBoard [] 0 []) uneven_state = Fail (Exn IndexError)
  ∧ Board_height_variance (mkBoard [] 0 []) uneven_state = Fail (Exn IndexError)
  ∧ Board_height_penalty (mkBoard [] 0 []) uneven_state = Fail (Exn IndexError)
  ∧ Board_evaluate (mkBoard [] 0 []) uneven_state = Fail (Exn IndexError).
Proof.
  apply (heuristic_without_rows (mkBoard [] 0 []) uneven_state 0%Z). reflexivity.
Defined.

(** X24.  On a bitmap of [rows] rows of [cols] cells, [rows] at least 1,
    [height_penalty] returns the sum over the cells that do not hold 0 of
    [rows] minus the row of the cell; no column height exceeds it. *)
Theorem Board_height_penalty_weighs self s g rows cols :
  grid s (bitmap self) = Some g → rectangular rows cols g → 0 < rows →
  Board_height_penalty self s = Ok (penalty_of g rows cols)
  ∧ ∀ c, c < cols →
      ∃ h, Board_col_height self (Z.of_nat c) s = Ok h ∧ (h ≤ penalty_of g rows cols)%Z.
Proof.
  intros Hg Hrect Hrows.
  split; [by apply Board_height_penalty_rect|].
  intros c Hc. exists (top_height g c).
  split; [by apply (Board_col_height_rect self s g rows cols)|].
  assert (∀ k, k < rows →
            (0 ≤ (Z.of_nat rows - Z.of_nat k)
                 * count_upto (λ c, negb (cell_value g k c =? 0)%Z) cols)%Z) as Hpos.
  { intros k Hk. pose proof (count_upto_nonneg (λ c, negb (cell_value g k c =? 0)%Z) cols).
    nia. }
  destruct (Z.eq_dec (top_height g c) 0%Z) as [->|Hne].
  { by apply sum_upto_nonneg. }
  destruct (top_height_nonzero g c Hne) as (r & Hr & Hocc & ->).
  destruct Hrect as [Hlen _]. rewrite Hlen in *.
  etransitivity; [|apply (sum_upto_term _ rows r Hpos Hr)]. cbv beta.
  assert (1 ≤ count_upto (λ c, negb (cell_value g r c =? 0)%Z) cols)%Z as Hone.
  { apply (count_upto_pos _ cols c Hc). by destruct (Z.eqb_spec (cell_value g r c) 0). }
  nia.
Qed.

Lemma Board_height_penalty_weighs_witness :
  Board_height_penalty uneven_board uneven_state = Ok (penalty_of uneven_rows 3 3)
  ∧ ∀ c, c < 3 →
      ∃ h, Board_col_height uneven_board (Z.of_nat c) uneven_state = Ok h
           ∧ (h ≤ penalty_of uneven_rows 3 3)%Z.
Proof.
  apply (Board_height_penalty_weighs uneven_board uneven_state uneven_rows 3 3).
  - reflexivity.
  - exact rectangular_uneven_rows.
  - lia.
Defined.

(** ** The scores of the probes *)

Lemma full_size_rectangular g : full_size g → rectangular 33 12 g.
Proof.
  intros [Hrows Hcols]. unfold Board_rows in Hrows. split; [lia|].
  eapply Forall_impl; [exact Hcols|]. intros row Hrow. unfold Board_cols in Hrow. simpl. lia.
Qed.

Lemma Board_evaluate_full self s g :
  grid s (bitmap self) = Some g → full_size g →
  Board_evaluate self s = Ok (evaluation g).
Proof.
  intros Hg Hrect%full_size_rectangular.
  assert (0 < 33) as Hrows by lia. assert (0 < 12) as Hcols by lia.
  unfold Board_evaluate, evaluation.
  rewrite (Board_num_holes_rect self s g _ _ Hg Hrect Hrows), outcome_bind_Ok.
  rewrite (Board_max_height_rect self s g _ _ Hg Hrect Hrows), outcome_bind_Ok.
  rewrite (Board_height_variance_rect self s g _ _ Hg Hrect Hrows Hcols).
  rewrite outcome_bind_Ok. reflexivity.
Qed.

Lemma spawn_same b b' : center b' = center b → offsets b' = offsets b → spawn b' = spawn b.
Proof. unfold spawn. by intros -> ->. Qed.

Lemma probing_with_block board g b out s b' :
  probing board g b out s → center b' = center b → offsets b' = offsets b →
  probing board g b out (with_block s (block board) b').
Proof.
  intros (Hg & Hout & b0 & Hb0 & _) Hc Ho. split; [done|]. split; [done|].
  exists b'. split; [|done]. apply with_block_lookup. by eapply lookup_lt_Some.
Qed.

Lemma probe_loop_center board g d (tok : string) fuel :
  full_size g →
  ∀ s b acc o s',
    grid s (bitmap board) = Some g → block_objs s !! block board = Some b →
    while fuel (checked_move d (block board) board) (λ moves, mret (moves ++ [tok])) acc s
      = (o, s') →
    ∃ b', s' = with_block s (block board) b' ∧ center b' = center b.
Proof.
  intros Hfull. induction fuel as [|fuel IH]; intros s b acc o s' Hg Hb Hrun.
  - injection Hrun as <- <-. exists b. by rewrite with_block_same.
  - cbn [while] in Hrun.
    rewrite M_bind_unfold, (checked_move_spec _ _ _ _ _ _ Hg Hfull Hb) in Hrun.
    destruct (legal g (step d b)).
    + rewrite M_bind_unfold in Hrun. cbv beta iota in Hrun.
      pose proof (lookup_lt_Some _ _ _ Hb) as Hlt.
      apply (IH _ (step d b)) in Hrun as (b' & -> & Hc);
        [|done|by apply with_block_lookup].
      exists b'. by rewrite with_block_twice, Hc, center_step.
    + injection Hrun as <- <-. exists b. by rewrite with_block_same.
Qed.

Lemma probing_grow board g b out out' s s' ext b' :
  probing board g b out s →
  row_objs s' = row_objs s ++ ext →
  block_objs s' = <[block board := b']> (block_objs s) →
  stdout s' = out' → center b' = center b → offsets b' = offsets b →
  probing board g b out' s'.
Proof.
  intros (Hg & Hout & b0 & Hb0 & _) Hrows Hblocks Hstdout Hc Ho.
  split; [|split; [done|]].
  - eapply grid_agree; [exact Hg|]. intros r row _ Hr. rewrite Hrows.
    by apply lookup_app_l_Some.
  - exists b'. split; [|done]. rewrite Hblocks. apply list_lookup_insert_eq.
    by eapply lookup_lt_Some.
Qed.

Lemma for_each_M_inv {A B} (I : B → State → Prop) (F : failure → State → Prop)
    (body : A → B → M B) (xs : list A) :
  (∀ x acc s, I acc s →
     match body x acc s with (Ok acc', s') => I acc' s' | (Fail f, s') => F f s' end) →
  ∀ acc s, I acc s →
    match for_each xs body acc s with
    | (Ok acc', s') => I acc' s'
    | (Fail f, s') => F f s'
    end.
Proof.
  intros Hbody. induction xs as [|x xs IH]; intros acc s Hacc; [done|].
  cbn [for_each]. rewrite M_bind_unfold. specialize (Hbody x acc s Hacc).
  destruct (body x acc s) as [[acc'|f] s']; [by apply IH|done].
Qed.

Section probes.
Variables (fuel : nat) (board : Board) (g : list (list Z)) (b : Block).
Hypothesis Hfuel : 33 < fuel.
Hypothesis Hfull : full_size g.
Hypothesis Hne : offsets b ≠ [].

Lemma run_commands_probed steps :
  ∀ s b0 out,
    probing board g b out s →
    block_objs s !! block board = Some b0 → legal g b0 = true →
    if path_legal g b0 steps then
      ∃ bm' s',
        run_commands fuel board ((token ∘ Step <$> steps) ++ ["drop"]) s =
          (Ok match preview board with
              | [] => None
              | next :: rest => Some (mkBoard bm' next rest)
              end, s')
        ∧ grid s' bm' = Some (committed g (after_steps steps b0))
        ∧ probing board g b
            (out ++ match preview board with [] => [no_preview_message] | _ => [] end) s'
    else
      ∃ s',
        run_commands fuel board ((token ∘ Step <$> steps) ++ ["drop"]) s =
          (Fail (Exn InvalidMoveError), s')
        ∧ probing board g b out s'.
Proof.
  induction steps as [|d steps IH]; intros s b0 out Hinv Hb Hlegal.
  - cbn [path_legal]. pose proof Hinv as (Hg & Hout & b1 & Hb1 & Hc & Ho).
    assert (b1 = b0) as -> by congruence.
    assert (offsets b0 ≠ []) as Hne0 by congruence.
    destruct (Board_place_spec _ _ _ _ _ Hfuel Hg Hfull Hb Hne0 Hlegal)
      as (bm' & ext & s' & Hrun & Hrows & Hblocks & Hstdout & Hgrid & _).
    exists bm', s'. split; [exact Hrun|]. split; [exact Hgrid|].
    eapply probing_grow; [exact Hinv|exact Hrows|exact Hblocks| | |].
    + by rewrite Hstdout, Hout.
    + unfold dropped. by rewrite (proj1 (fall_fixed g b0 33)).
    + unfold dropped. by rewrite (proj1 (proj2 (fall_fixed g b0 33))).
  - pose proof Hinv as (Hg & Hout & b1 & Hb1 & Hc & Ho).
    assert (b1 = b0) as -> by congruence.
    pose proof (lookup_lt_Some _ _ _ Hb) as Hlt.
    assert (probing board g b out (with_block s (block board) (step d b0))) as Hinv1.
    { apply probing_with_block; [done| |]; by rewrite ?center_step, ?offsets_step. }
    assert (run_commands fuel board ((token ∘ Step <$> d :: steps) ++ ["drop"]) s =
            if legal g (step d b0)
            then run_commands fuel board ((token ∘ Step <$> steps) ++ ["drop"])
                   (with_block s (block board) (step d b0))
            else (Fail (Exn InvalidMoveError), with_block s (block board) (step d b0)))
      as ->.
    { rewrite fmap_cons, <- app_comm_cons.
      change ((token ∘ Step) d) with (token (Step d)).
      rewrite run_commands_step, M_bind_unfold, (primitive_step _ _ _ _ Hb).
      rewrite M_bind_unfold. unfold read at 1.
      rewrite (Board_check_legal board _ g (block board) (step d b0));
        [|done|done|by apply with_block_lookup].
      by destruct (legal g (step d b0)). }
    cbn [path_legal]. destruct (legal g (step d b0)) eqn:Hnext; cbn [andb].
    + apply (IH _ (step d b0) out Hinv1); [by apply with_block_lookup|done].
    + by exists (with_block s (block board) (step d b0)).
Qed.

Lemma Board_do_commands_probed steps s out :
  probing board g b out s →
  if legal g (spawn b) && path_legal g (spawn b) steps then
    ∃ bm' s',
      Board_do_commands fuel board (token ∘ Step <$> steps) s =
        (Ok match preview board with
            | [] => None
            | next :: rest => Some (mkBoard bm' next rest)
            end, s')
      ∧ grid s' bm' = Some (committed g (after_steps steps (spawn b)))
      ∧ probing board g b
          (out ++ match preview board with [] => [no_preview_message] | _ => [] end) s'
  else
    ∃ s',
      Board_do_commands fuel board (token ∘ Step <$> steps) s =
        (Fail (Exn InvalidMoveError), s')
      ∧ probing board g b out s'.
Proof.
  intros Hinv. pose proof Hinv as (Hg & Hout & b0 & Hb & Hc & Ho).
  pose proof (lookup_lt_Some _ _ _ Hb) as Hlt.
  assert (probing board g b out (with_block s (block board) (spawn b))) as Hinv1.
  { by apply probing_with_block. }
  assert (Board_do_commands fuel board (token ∘ Step <$> steps) s =
          if legal g (spawn b)
          then run_commands fuel board ((token ∘ Step <$> steps) ++ ["drop"])
                 (with_block s (block board) (spawn b))
          else (Fail (Exn InvalidMoveError), with_block s (block board) (spawn b))) as ->.
  { unfold Board_do_commands, Block_reset_position.
    rewrite M_bind_unfold, (update_block_with _ _ _ _ Hb). fold (spawn b0).
    rewrite (spawn_same b b0 Hc Ho).
    rewrite M_bind_unfold. unfold read at 1.
    rewrite (Board_check_legal board _ g (block board) (spawn b));
      [|done|done|by apply with_block_lookup].
    by destruct (legal g (spawn b)). }
  destruct (legal g (spawn b)) eqn:Hspawn; cbn [andb].
  - apply (run_commands_probed steps _ (spawn b) out Hinv1);
      [by apply with_block_lookup|done].
  - by exists (with_block s (block board) (spawn b)).
Qed.

End probes.

Lemma tokens_snoc steps d :
  (token ∘ Step <$> steps) ++ [token (Step d)] = token ∘ Step <$> (steps ++ [d]).
Proof. by rewrite fmap_app. Qed.

Lemma logged_snoc g b choices log steps :
  logged g b choices log →
  logged g b (record choices (scored g b steps)) (log ++ [scored g b steps]).
Proof.
  intros [-> Hlog]. split; [by rewrite replay_snoc|].
  apply Forall_app. split; [done|]. apply Forall_singleton. by exists steps.
Qed.

Section scored_probes.
Variables (fuel : nat) (board : Board) (g : list (list Z)) (b : Block).
Variables (out : list string) (next : block_ref) (rest : list block_ref).
Hypothesis Hfuel : 33 < fuel.
Hypothesis Hfull : full_size g.
Hypothesis Hne : offsets b ≠ [].
Hypothesis Hpreview : preview board = next :: rest.

Lemma attempt_scored steps choices s :
  probing board g b out s →
  ∃ s',
    attempt fuel board (token ∘ Step <$> steps) choices s =
      (Ok (record choices (scored g b steps), score_of g b steps), s')
    ∧ probing board g b out s'.
Proof.
  intros Hinv.
  pose proof (Board_do_commands_probed fuel board g b Hfuel Hfull Hne steps s out Hinv)
    as Hcases.
  unfold score_of, scored, score_of.
  destruct (legal g (spawn b) && path_legal g (spawn b) steps).
  - destruct Hcases as (bm' & s' & Hrun & Hgrid & Hinv').
    rewrite Hpreview in Hrun, Hinv'. rewrite app_nil_r in Hinv'.
    exists s'. split; [|done]. unfold attempt, try_except.
    rewrite M_bind_unfold, Hrun, M_bind_unfold. unfold read at 1.
    rewrite (Board_evaluate_full (mkBoard bm' next rest) s' _ Hgrid); [done|].
    by apply full_size_cleared, full_size_marked.
  - destruct Hcases as (s' & Hrun & Hinv').
    exists s'. split; [|done]. unfold attempt, try_except.
    by rewrite M_bind_unfold, Hrun.
Qed.

Lemma rotation_variant_scored steps choices log s :
  probing board g b out s → logged g b choices log →
  ∃ choices' log' s',
    rotation_variant fuel board (token ∘ Step <$> steps, choices, log) s =
      (Ok (token ∘ Step <$> (steps ++ [Rotate]), choices', log'), s')
    ∧ probing board g b out s' ∧ logged g b choices' log'.
Proof.
  intros Hinv Hlog. pose proof Hinv as (Hg & Hout & b0 & Hb & Hc & Ho).
  assert (probing board g b out (with_block s (block board) (spawn b0))) as Hinv1.
  { by apply probing_with_block. }
  destruct (attempt_scored (steps ++ [Rotate]) choices _ Hinv1) as (s' & Hrun & Hinv').
  exists (record choices (scored g b (steps ++ [Rotate]))),
         (log ++ [scored g b (steps ++ [Rotate])]), s'.
  split; [|split; [done|by apply logged_snoc]].
  unfold rotation_variant, Block_reset_position.
  rewrite M_bind_unfold, (update_block_with _ _ _ _ Hb). fold (spawn b0).
  change ["rotate"] with [token (Step Rotate)]. rewrite tokens_snoc.
  by rewrite M_bind_unfold, Hrun.
Qed.

Lemma rotation_variants_scored steps choices log s :
  probing board g b out s → logged g b choices log →
  ∃ moves' choices' log' s',
    rotation_variants fuel board (token ∘ Step <$> steps, choices, log) s =
      (Ok (moves', choices', log'), s')
    ∧ probing board g b out s' ∧ logged g b choices' log'.
Proof.
  intros Hinv Hlog.
  pose proof (for_each_M_inv
    (λ (acc : list string * gmap Z (list string) * list probe) t,
       (∃ steps', acc.1.1 = token ∘ Step <$> steps')
       ∧ probing board g b out t ∧ logged g b acc.1.2 acc.2)
    (λ _ _, False)
    (λ _ : nat, rotation_variant fuel board) (seq 0 3)) as Hloop.
  unfold rotation_variants.
  specialize (Hloop ltac:(
    intros _ [[moves0 choices0] log0] t ([steps0 Hsteps0] & Hinv0 & Hlog0);
    simpl in Hsteps0, Hlog0; subst moves0;
    destruct (rotation_variant_scored steps0 choices0 log0 t Hinv0 Hlog0)
      as (choices' & log' & t' & -> & Hinv' & Hlog');
    split; [by eexists|done])
    (token ∘ Step <$> steps, choices, log) s).
  destruct (for_each (seq 0 3) (λ _ : nat, rotation_variant fuel board)
              (token ∘ Step <$> steps, choices, log) s)
    as [[[[moves' choices'] log']|f] s'].
  - destruct Hloop as (_ & Hinv' & Hlog'); [split; [by eexists|done]|].
    by exists moves', choices', log', s'.
  - destruct Hloop. split; [by eexists|done].
Qed.

Lemma shift_round_scored i choices log s :
  probing board g b out s → logged g b choices log →
  ∃ choices' log' s',
    shift_round fuel board i (choices, log) s = (Ok (choices', log'), s')
    ∧ probing board g b out s' ∧ logged g b choices' log'.
Proof.
  intros Hinv Hlog. pose proof Hinv as (Hg & Hout & b0 & Hb & Hc & Ho).
  assert (offsets b0 ≠ []) as Hne0 by congruence.
  destruct (left_loop fuel board g s b0 [] Hfuel Hfull Hg Hb Hne0)
    as (lefts & b1 & Hleft & Hoff1).
  destruct (probe_loop_center board g Left "left" fuel Hfull _ _ _ _ _ Hg Hb Hleft)
    as (b1' & Hsame & Hc1).
  pose proof (lookup_lt_Some _ _ _ Hb) as Hlt.
  assert (b1' = b1) as ->.
  { apply (f_equal (λ t, block_objs t !! block board)) in Hsame.
    rewrite !with_block_lookup in Hsame by done. congruence. }
  assert (probing board g b out (with_block s (block board) b1)) as Hinv1.
  { apply probing_with_block; [done|congruence|congruence]. }
  pose proof Hinv1 as (Hg1 & _ & _).
  pose proof (with_block_lookup s _ b1 Hlt) as Hb1.
  assert (offsets b1 ≠ []) as Hne1 by congruence.
  destruct (down_loop fuel board g _ b1
              (([] ++ replicate lefts "left") ++ replicate i "right")
              Hfuel Hfull Hg1 Hb1 Hne1)
    as (downs & b2 & Hdown & Hoff2).
  destruct (probe_loop_center board g Down "down" fuel Hfull _ _ _ _ _ Hg1 Hb1 Hdown)
    as (b2' & Hsame2 & Hc2).
  rewrite !with_block_twice in *.
  assert (b2' = b2) as ->.
  { apply (f_equal (λ t, block_objs t !! block board)) in Hsame2.
    rewrite !with_block_lookup in Hsame2 by done. congruence. }
  assert (probing board g b out (with_block s (block board) b2)) as Hinv2.
  { apply probing_with_block; [done|congruence|congruence]. }
  assert ((([] ++ replicate lefts "left") ++ replicate i "right") ++ replicate downs "down"
          = token ∘ Step <$> (replicate lefts Left ++ replicate i Right)
                             ++ replicate downs Down) as Hmoves.
  { by rewrite !fmap_app, !fmap_replicate. }
  rewrite Hmoves in Hdown.
  destruct (rotation_variants_scored
              ((replicate lefts Left ++ replicate i Right) ++ replicate downs Down)
              choices log _ Hinv2 Hlog)
    as (moves' & choices' & log' & s' & Hrun & Hinv' & Hlog').
  exists choices', log', s'. split; [|done].
  unfold shift_round. rewrite M_bind_unfold, Hleft, M_bind_unfold, Hdown.
  by rewrite M_bind_unfold, Hrun.
Qed.

Lemma search_loop_scored s :
  probing board g b out s →
  ∃ log s',
    search_loop fuel board s = (Ok (replay log, log), s')
    ∧ probing board g b out s'
    ∧ Forall (λ p, ∃ steps, p = scored g b steps) log.
Proof.
  intros Hinv.
  pose proof (for_each_M_inv
    (λ (acc : gmap Z (list string) * list probe) t,
       probing board g b out t ∧ logged g b acc.1 acc.2)
    (λ _ _, False)
    (shift_round fuel board) (seq 0 12)) as Hloop.
  unfold search_loop.
  specialize (Hloop ltac:(
    intros i [choices0 log0] t [Hinv0 Hlog0];
    destruct (shift_round_scored i choices0 log0 t Hinv0 Hlog0)
      as (choices' & log' & t' & -> & Hinv' & Hlog'); done)
    (∅, []) s).
  destruct (for_each (seq 0 12) (shift_round fuel board) (∅, []) s)
    as [[[choices' log']|f] s'].
  - destruct Hloop as (Hinv' & Hchoices & Hlog'); [split; [done|]; by split|].
    simpl in Hchoices, Hlog'. subst choices'.
    by exists log', s'.
  - destruct Hloop. split; [done|]. by split.
Qed.

End scored_probes.

Lemma probing_with_print board g b out s text :
  probing board g b out s → probing board g b (out ++ [text]) (with_print s text).
Proof. intros (Hg & <- & Hb). by split. Qed.

Lemma search_scored fuel board s g b next rest :
  33 < fuel →
  grid s (bitmap board) = Some g → full_size g →
  block_objs s !! block board = Some b → offsets b ≠ [] →
  preview board = next :: rest →
  ∃ log s1,
    probing board g b (stdout s) s1
    ∧ Forall (λ p, ∃ steps, p = scored g b steps) log
    ∧ search fuel board s =
      match max_key (replay log) with
      | Ok best =>
          match replay log !! best with
          | Some todo => (Ok (todo, log), with_print s1 (String.concat newline todo))
          | None => (Fail (Exn KeyError), s1)
          end
      | Fail f => (Fail f, s1)
      end.
Proof.
  intros Hfuel Hg Hfull Hb Hne Hpreview.
  assert (probing board g b (stdout s) s) as Hinv.
  { split; [done|]. split; [done|]. by exists b. }
  destruct (search_loop_scored fuel board g b (stdout s) next rest
              Hfuel Hfull Hne Hpreview s Hinv) as (log & s1 & Hrun & Hinv1 & Hlog).
  exists log, s1. split; [done|]. split; [done|].
  unfold search. rewrite M_bind_unfold, Hrun.
  cbv beta iota. rewrite M_bind_unfold. unfold read at 1.
  destruct (max_key (replay log)) as [best|f]; [|done].
  rewrite M_bind_unfold. unfold read at 1. by destruct (replay log !! best).
Qed.

Lemma best_of_log g b log best :
  Forall (λ p, ∃ steps, p = scored g b steps) log →
  max_key (replay log) = Ok best →
  ∃ steps,
    replay log !! best = Some (token ∘ Step <$> steps)
    ∧ score_of g b steps = Some best
    ∧ Forall (λ p, ∀ k, probe_score p = Some k → (k ≤ best)%Z) log.
Proof.
  intros Hlog [[todo Htodo] Hbest]%max_key_Ok.
  destruct (replay_lookup_Some _ _ _ Htodo)
    as (earlier & winner & later & Hsplit & Hscore & Hmoves & _).
  assert (winner ∈ log) as Hin.
  { rewrite Hsplit. apply elem_of_app. right. left. }
  destruct (proj1 (Forall_forall _ _) Hlog winner Hin) as [steps ->].
  exists steps. simpl in Hscore, Hmoves. subst todo. split; [done|]. split; [done|].
  apply Forall_forall. intros q Hq k Hk. apply Hbest. by eapply replay_lookup_scored.
Qed.

(** X25.  On a full-size board whose block has a cell and whose preview
    list is not empty, the search raises [ValueError] or returns a list of
    primitives with this meaning: the score recorded by each probe is the
    score [evaluate] gives the commit of the pose its list leads to from
    the spawn pose on the grid of the board, present exactly when every
    pose on the way is legal; the list returned has the greatest of the
    scores recorded. *)
Theorem search_answer_scored fuel board s g b next rest :
  33 < fuel →
  grid s (bitmap board) = Some g → full_size g →
  block_objs s !! block board = Some b → offsets b ≠ [] →
  preview board = next :: rest →
  match search fuel board s with
  | (Ok (todo, log), _) =>
      Forall (λ p, ∃ steps, probe_moves p = token ∘ Step <$> steps
                            ∧ probe_score p = score_of g b steps) log
      ∧ ∃ steps best,
          todo = token ∘ Step <$> steps
          ∧ score_of g b steps = Some best
          ∧ Forall (λ p, ∀ k, probe_score p = Some k → (k ≤ best)%Z) log
  | (Fail f, _) => f = Exn ValueError
  end.
Proof.
  intros Hfuel Hg Hfull Hb Hne Hpreview.
  destruct (search_scored fuel board s g b next rest Hfuel Hg Hfull Hb Hne Hpreview)
    as (log & s1 & _ & Hlog & ->).
  destruct (max_key (replay log)) as [best|f] eqn:Hmax.
  - destruct (best_of_log g b log best Hlog Hmax) as (steps & -> & Hscore & Hbest).
    split.
    + eapply Forall_impl; [exact Hlog|]. intros p [steps' ->]. by exists steps'.
    + by exists steps, best.
  - by apply max_key_Fail in Hmax as [-> _].
Qed.

Lemma search_answer_scored_witness :
  match search 34 example_board example_state with
  | (Ok (todo, log), _) =>
      Forall (λ p, ∃ steps, probe_moves p = token ∘ Step <$> steps
                            ∧ probe_score p = score_of empty_rows unit_block steps) log
      ∧ ∃ steps best,
          todo = token ∘ Step <$> steps
          ∧ score_of empty_rows unit_block steps = Some best
          ∧ Forall (λ p, ∀ k, probe_score p = Some k → (k ≤ best)%Z) log
  | (Fail f, _) => f = Exn ValueError
  end.
Proof.
  apply (search_answer_scored 34 example_board example_state empty_rows unit_block 1 []).
  - lia.
  - reflexivity.
  - exact full_size_empty_rows.
  - reflexivity.
  - discriminate.
  - reflexivity.
Defined.

(** X26.  The answer of the search can be replayed: in the state the
    search ends in, [do_commands] runs the list returned without
    [InvalidMoveError], and [evaluate] gives the board it returns a score
    that no probe of the search exceeded. *)
Theorem search_answer_replays fuel board s g b next rest :
  33 < fuel →
  grid s (bitmap board) = Some g → full_size g →
  block_objs s !! block board = Some b → offsets b ≠ [] →
  preview board = next :: rest →
  match search fuel board s with
  | (Ok (todo, log), s') =>
      ∃ new_board s'' best,
        Board_do_commands fuel board todo s' = (Ok (Some new_board), s'')
        ∧ Board_evaluate new_board s'' = Ok best
        ∧ Forall (λ p, ∀ k, probe_score p = Some k → (k ≤ best)%Z) log
  | (Fail f, s') => f = Exn ValueError ∧ stdout s' = stdout s
  end.
Proof.
  intros Hfuel Hg Hfull Hb Hne Hpreview.
  destruct (search_scored fuel board s g b next rest Hfuel Hg Hfull Hb Hne Hpreview)
    as (log & s1 & Hinv & Hlog & ->).
  destruct (max_key (replay log)) as [best|f] eqn:Hmax.
  - destruct (best_of_log g b log best Hlog Hmax) as (steps & -> & Hscore & Hbest).
    pose proof (Board_do_commands_probed fuel board g b Hfuel Hfull Hne steps _ _
                  (probing_with_print _ _ _ _ _ (String.concat newline (token ∘ Step <$> steps))
                     Hinv)) as Hcases.
    unfold score_of in Hscore.
    destruct (legal g (spawn b) && path_legal g (spawn b) steps); [|done].
    destruct Hcases as (bm' & s'' & Hrun & Hgrid & _). rewrite Hpreview in Hrun.
    exists (mkBoard bm' next rest), s'', best. split; [done|]. split; [|done].
    rewrite (Board_evaluate_full (mkBoard bm' next rest) s'' _ Hgrid); [congruence|].
    by apply full_size_cleared, full_size_marked.
  - apply max_key_Fail in Hmax as [-> _]. split; [done|]. by destruct Hinv as (_ & -> & _).
Qed.

Lemma search_answer_replays_witness :
  match search 34 example_board example_state with
  | (Ok (todo, log), s') =>
      ∃ new_board s'' best,
        Board_do_commands 34 example_board todo s' = (Ok (Some new_board), s'')
        ∧ Board_evaluate new_board s'' = Ok best
        ∧ Forall (λ p, ∀ k, probe_score p = Some k → (k ≤ best)%Z) log
  | (Fail f, s') => f = Exn ValueError ∧ stdout s' = stdout example_state
  end.
Proof.
  apply (search_answer_replays 34 example_board example_state empty_rows unit_block 1 []).
  - lia.
  - reflexivity.
  - exact full_size_empty_rows.
  - reflexivity.
  - discriminate.
  - reflexivity.
Defined.

Section last_probes.
Variables (fuel : nat) (board : Board) (g : list (list Z)) (b : Block).
Variables (out : list string).
Hypothesis Hfuel : 33 < fuel.
Hypothesis Hfull : full_size g.
Hypothesis Hne : offsets b ≠ [].
Hypothesis Hpreview : preview board = [].

Lemma attempt_last steps choices s :
  probing board g b out s →
  match attempt fuel board (token ∘ Step <$> steps) choices s with
  | (Ok (choices', _), s') => choices' = choices ∧ probing board g b out s'
  | (Fail f, s') => f = Exn AttributeError ∧ stdout s' = out ++ [no_preview_message]
  end.
Proof.
  intros Hinv.
  pose proof (Board_do_commands_probed fuel board g b Hfuel Hfull Hne steps s out Hinv)
    as Hcases.
  destruct (legal g (spawn b) && path_legal g (spawn b) steps).
  - destruct Hcases as (bm' & s' & Hrun & _ & Hinv').
    rewrite Hpreview in Hrun, Hinv'. unfold attempt, try_except.
    rewrite M_bind_unfold, Hrun. rewrite M_bind_unfold. unfold raise. cbv beta iota.
    rewrite decide_False by done. split; [done|]. by destruct Hinv' as (_ & -> & _).
  - destruct Hcases as (s' & Hrun & Hinv'). unfold attempt, try_except.
    rewrite M_bind_unfold, Hrun. by rewrite decide_True.
Qed.

Lemma rotation_variant_last steps choices log s :
  probing board g b out s →
  match rotation_variant fuel board (token ∘ Step <$> steps, choices, log) s with
  | (Ok (moves', choices', _), s') =>
      moves' = token ∘ Step <$> (steps ++ [Rotate])
      ∧ choices' = choices ∧ probing board g b out s'
  | (Fail f, s') => f = Exn AttributeError ∧ stdout s' = out ++ [no_preview_message]
  end.
Proof.
  intros Hinv. pose proof Hinv as (Hg & Hout & b0 & Hb & Hc & Ho).
  assert (probing board g b out (with_block s (block board) (spawn b0))) as Hinv1.
  { by apply probing_with_block. }
  pose proof (attempt_last (steps ++ [Rotate]) choices _ Hinv1) as Hrun.
  unfold rotation_variant, Block_reset_position.
  rewrite M_bind_unfold, (update_block_with _ _ _ _ Hb). fold (spawn b0).
  change ["rotate"] with [token (Step Rotate)]. rewrite tokens_snoc.
  rewrite M_bind_unfold.
  destruct (attempt fuel board (token ∘ Step <$> steps ++ [Rotate]) choices
              (with_block s (block board) (spawn b0))) as [[[choices' score]|f] s'];
    [|done].
  destruct Hrun as [-> Hinv']. done.
Qed.

Lemma rotation_variants_last steps choices log s :
  probing board g b out s →
  match rotation_variants fuel board (token ∘ Step <$> steps, choices, log) s with
  | (Ok (_, choices', _), s') => choices' = choices ∧ probing board g b out s'
  | (Fail f, s') => f = Exn AttributeError ∧ stdout s' = out ++ [no_preview_message]
  end.
Proof.
  intros Hinv.
  pose proof (for_each_M_inv
    (λ (acc : list string * gmap Z (list string) * list probe) t,
       (∃ steps', acc.1.1 = token ∘ Step <$> steps')
       ∧ acc.1.2 = choices ∧ probing board g b out t)
    (λ f t, f = Exn AttributeError ∧ stdout t = out ++ [no_preview_message])
    (λ _ : nat, rotation_variant fuel board) (seq 0 3)) as Hloop.
  unfold rotation_variants.
  specialize (Hloop ltac:(
    intros _ [[moves0 choices0] log0] t ([steps0 Hsteps0] & Hchoices0 & Hinv0);
    simpl in Hsteps0, Hchoices0; subst moves0 choices0;
    pose proof (rotation_variant_last steps0 choices log0 t Hinv0) as Hrun;
    destruct (rotation_variant fuel board (token ∘ Step <$> steps0, choices, log0) t)
      as [[[[moves' choices'] log']|f] t']; [|done];
    destruct Hrun as (-> & -> & Hinv'); split; [by eexists|done])
    (token ∘ Step <$> steps, choices, log) s).
  destruct (for_each (seq 0 3) (λ _ : nat, rotation_variant fuel board)
              (token ∘ Step <$> steps, choices, log) s)
    as [[[[moves' choices'] log']|f] s'].
  - destruct Hloop as (_ & Hchoices & Hinv'); [split; [by eexists|done]|]. done.
  - apply Hloop. split; [by eexists|done].
Qed.

Lemma shift_round_last i choices log s :
  probing board g b out s →
  match shift_round fuel board i (choices, log) s with
  | (Ok (choices', _), s') => choices' = choices ∧ probing board g b out s'
  | (Fail f, s') => f = Exn AttributeError ∧ stdout s' = out ++ [no_preview_message]
  end.
Proof.
  intros Hinv. pose proof Hinv as (Hg & Hout & b0 & Hb & Hc & Ho).
  assert (offsets b0 ≠ []) as Hne0 by congruence.
  destruct (left_loop fuel board g s b0 [] Hfuel Hfull Hg Hb Hne0)
    as (lefts & b1 & Hleft & Hoff1).
  destruct (probe_loop_center board g Left "left" fuel Hfull _ _ _ _ _ Hg Hb Hleft)
    as (b1' & Hsame & Hc1).
  pose proof (lookup_lt_Some _ _ _ Hb) as Hlt.
  assert (b1' = b1) as ->.
  { apply (f_equal (λ t, block_objs t !! block board)) in Hsame.
    rewrite !with_block_lookup in Hsame by done. congruence. }
  assert (probing board g b out (with_block s (block board) b1)) as Hinv1.
  { apply probing_with_block; [done|congruence|congruence]. }
  pose proof Hinv1 as (Hg1 & _ & _).
  pose proof (with_block_lookup s _ b1 Hlt) as Hb1.
  assert (offsets b1 ≠ []) as Hne1 by congruence.
  destruct (down_loop fuel board g _ b1
              (([] ++ replicate lefts "left") ++ replicate i "right")
              Hfuel Hfull Hg1 Hb1 Hne1)
    as (downs & b2 & Hdown & Hoff2).
  destruct (probe_loop_center board g Down "down" fuel Hfull _ _ _ _ _ Hg1 Hb1 Hdown)
    as (b2' & Hsame2 & Hc2).
  rewrite !with_block_twice in *.
  assert (b2' = b2) as ->.
  { apply (f_equal (λ t, block_objs t !! block board)) in Hsame2.
    rewrite !with_block_lookup in Hsame2 by done. congruence. }
  assert (probing board g b out (with_block s (block board) b2)) as Hinv2.
  { apply probing_with_block; [done|congruence|congruence]. }
  assert ((([] ++ replicate lefts "left") ++ replicate i "right") ++ replicate downs "down"
          = token ∘ Step <$> (replicate lefts Left ++ replicate i Right)
                             ++ replicate downs Down) as Hmoves.
  { by rewrite !fmap_app, !fmap_replicate. }
  rewrite Hmoves in Hdown.
  pose proof (rotation_variants_last
                ((replicate lefts Left ++ replicate i Right) ++ replicate downs Down)
                choices log _ Hinv2) as Hrun.
  unfold shift_round. rewrite M_bind_unfold, Hleft, M_bind_unfold, Hdown.
  rewrite M_bind_unfold.
  destruct (rotation_variants fuel board _ (with_block s (block board) b2))
    as [[[[moves' choices'] log']|f] s']; done.
Qed.

Lemma search_loop_last s :
  probing board g b out s →
  match search_loop fuel board s with
  | (Ok (choices, _), s') => choices = ∅ ∧ probing board g b out s'
  | (Fail f, s') => f = Exn AttributeError ∧ stdout s' = out ++ [no_preview_message]
  end.
Proof.
  intros Hinv.
  pose proof (for_each_M_inv
    (λ (acc : gmap Z (list string) * list probe) t,
       acc.1 = ∅ ∧ probing board g b out t)
    (λ f t, f = Exn AttributeError ∧ stdout t = out ++ [no_preview_message])
    (shift_round fuel board) (seq 0 12)) as Hloop.
  unfold search_loop.
  specialize (Hloop ltac:(
    intros i [choices0 log0] t [Hchoices0 Hinv0]; simpl in Hchoices0; subst choices0;
    pose proof (shift_round_last i ∅ log0 t Hinv0) as Hrun;
    destruct (shift_round fuel board i (∅, log0) t) as [[[choices' log']|f] t']; done)
    (∅, []) s).
  destruct (for_each (seq 0 12) (shift_round fuel board) (∅, []) s)
    as [[[choices' log']|f] s']; by apply Hloop.
Qed.

End last_probes.

(** X27.  With an empty preview list the search never returns a move list,
    on any full-size board whose block has a cell: it ends with
    [AttributeError] after [place] has printed its message once, or, when
    no probe ran, with [ValueError] and nothing printed. *)
Theorem search_without_preview fuel board s g b :
  33 < fuel →
  grid s (bitmap board) = Some g → full_size g →
  block_objs s !! block board = Some b → offsets b ≠ [] →
  preview board = [] →
  ∃ e s',
    search fuel board s = (Fail (Exn e), s')
    ∧ ((e = AttributeError ∧ stdout s' = stdout s ++ [no_preview_message])
       ∨ (e = ValueError ∧ stdout s' = stdout s)).
Proof.
  intros Hfuel Hg Hfull Hb Hne Hpreview.
  assert (probing board g b (stdout s) s) as Hinv.
  { split; [done|]. split; [done|]. by exists b. }
  pose proof (search_loop_last fuel board g b (stdout s) Hfuel Hfull Hne Hpreview s Hinv)
    as Hloop.
  unfold search. rewrite M_bind_unfold.
  destruct (search_loop fuel board s) as [[[choices log]|f] s1].
  - destruct Hloop as [-> (_ & Hout & _)]. exists ValueError, s1. split; [done|]. by right.
  - destruct Hloop as [-> Hout]. exists AttributeError, s1. split; [done|]. by left.
Qed.

Lemma search_without_preview_witness :
  ∃ e s',
    search 34 last_board example_state = (Fail (Exn e), s')
    ∧ ((e = AttributeError ∧ stdout s' = stdout example_state ++ [no_preview_message])
       ∨ (e = ValueError ∧ stdout s' = stdout example_state)).
Proof.
  apply (search_without_preview 34 last_board example_state empty_rows unit_block).
  - lia.
  - reflexivity.
  - exact full_size_empty_rows.
  - reflexivity.
  - discriminate.
  - reflexivity.
Defined.

(** ** The probing loops, exactly *)

Lemma probe_loop_exact board g d (tok : string) fuel :
  full_size g →
  ∀ s b acc moves s',
    grid s (bitmap board) = Some g → block_objs s !! block board = Some b →
    while fuel (checked_move d (block board) board) (λ moves, mret (moves ++ [tok])) acc s
      = (Ok moves, s') →
    ∃ n,
      moves = acc ++ replicate n tok
      ∧ s' = with_block s (block board) (Nat.iter n (step d) b)
      ∧ (∀ k, k < n → legal g (Nat.iter (S k) (step d) b) = true)
      ∧ legal g (Nat.iter (S n) (step d) b) = false.
Proof.
  intros Hfull. induction fuel as [|fuel IH]; intros s b acc moves s' Hg Hb Hrun; [done|].
  cbn [while] in Hrun.
  rewrite M_bind_unfold, (checked_move_spec _ _ _ _ _ _ Hg Hfull Hb) in Hrun.
  destruct (legal g (step d b)) eqn:Hnext.
  - rewrite M_bind_unfold in Hrun. cbv beta iota in Hrun.
    pose proof (lookup_lt_Some _ _ _ Hb) as Hlt.
    apply (IH _ (step d b)) in Hrun as (n & -> & -> & Hlegal & Hstop);
      [|done|by apply with_block_lookup].
    exists (S n). rewrite with_block_twice, <- (assoc_L (++)).
    split; [done|]. split; [by rewrite Nat.iter_succ_r|]. split.
    + intros [|k] Hk; [done|]. rewrite Nat.iter_succ_r. apply Hlegal. lia.
    + by rewrite Nat.iter_succ_r.
  - injection Hrun as <- <-. exists 0. rewrite app_nil_r, with_block_same by done.
    split; [done|]. split; [done|]. split; [|done]. intros k Hk. lia.
Qed.

(** X28.  The two [while] loops of the search stop at the first pose that
    is not legal: on a full-size board whose block has a cell, the loop on
    [checked_left] or on [checked_down] appends one token for each of the
    [n] moves made, leaves the block [n] moves from the pose it had, every
    pose passed being legal, and the pose one move further is not legal.
    The pose the loop starts from is not checked. *)
Theorem probing_loop_stops fuel board s g b d acc :
  33 < fuel →
  grid s (bitmap board) = Some g → full_size g →
  block_objs s !! block board = Some b → offsets b ≠ [] →
  d = Left ∨ d = Down →
  ∃ n,
    while fuel (checked_move d (block board) board)
          (λ moves, mret (moves ++ [token (Step d)])) acc s
      = (Ok (acc ++ replicate n (token (Step d))),
         with_block s (block board) (Nat.iter n (step d) b))
    ∧ (∀ k, k < n → legal g (Nat.iter (S k) (step d) b) = true)
    ∧ legal g (Nat.iter (S n) (step d) b) = false.
Proof.
  intros Hfuel Hg Hfull Hb Hne Hd.
  assert (∃ moves s',
            while fuel (checked_move d (block board) board)
                  (λ moves, mret (moves ++ [token (Step d)])) acc s = (Ok moves, s'))
    as (moves & s' & Hrun).
  { destruct Hd as [->| ->].
    - destruct (left_loop fuel board g s b acc Hfuel Hfull Hg Hb Hne) as (n & b' & Hrun & _).
      eexists _, _. exact Hrun.
    - destruct (down_loop fuel board g s b acc Hfuel Hfull Hg Hb Hne) as (n & b' & Hrun & _).
      eexists _, _. exact Hrun. }
  destruct (probe_loop_exact board g d _ fuel Hfull _ _ _ _ _ Hg Hb Hrun)
    as (n & -> & -> & Hlegal & Hstop).
  by exists n.
Qed.

Lemma probing_loop_stops_witness :
  ∃ n,
    while 34 (checked_move Left (block example_board) example_board)
          (λ moves, mret (moves ++ [token (Step Left)])) [] example_state
      = (Ok ([] ++ replicate n (token (Step Left))),
         with_block example_state (block example_board) (Nat.iter n (step Left) unit_block))
    ∧ (∀ k, k < n → legal empty_rows (Nat.iter (S k) (step Left) unit_block) = true)
    ∧ legal empty_rows (Nat.iter (S n) (step Left) unit_block) = false.
Proof.
  apply (probing_loop_stops 34 example_board example_state empty_rows unit_block Left []).
  - lia.
  - reflexivity.
  - exact full_size_empty_rows.
  - reflexivity.
  - discriminate.
  - by left.
Defined.

(** X29.  The search changes nothing of the board it is given but the pose
    of its block: when the preview list is not empty, whether the search
    returns or raises, the bitmap of the board denotes the grid it denoted
    before, and the block has the center and the offsets it had. *)
Theorem search_keeps_board fuel board s g b next rest :
  33 < fuel →
  grid s (bitmap board) = Some g → full_size g →
  block_objs s !! block board = Some b → offsets b ≠ [] →
  preview board = next :: rest →
  ∃ b',
    grid (search fuel board s).2 (bitmap board) = Some g
    ∧ block_objs (search fuel board s).2 !! block board = Some b'
    ∧ center b' = center b ∧ offsets b' = offsets b.
Proof.
  intros Hfuel Hg Hfull Hb Hne Hpreview.
  destruct (search_scored fuel board s g b next rest Hfuel Hg Hfull Hb Hne Hpreview)
    as (log & s1 & (Hg1 & _ & b' & Hb' & Hc & Ho) & _ & ->).
  exists b'.
  destruct (max_key (replay log)) as [best|f]; [|done].
  by destruct (replay log !! best).
Qed.

Lemma search_keeps_board_witness :
  ∃ b',
    grid (search 34 example_board example_state).2 (bitmap example_board) = Some empty_rows
    ∧ block_objs (search 34 example_board example_state).2 !! block example_board = Some b'
    ∧ center b' = center unit_block ∧ offsets b' = offsets unit_block.
Proof.
  apply (search_keeps_board 34 example_board example_state empty_rows unit_block 1 []).
  - lia.
  - reflexivity.
  - exact full_size_empty_rows.
  - reflexivity.
  - discriminate.
  - reflexivity.
Defined.

(** ** Printing a board *)

Lemma string_length_app (a c : string) :
  String.length (a +:+ c) = String.length a + String.length c.
Proof. induction a as [|ch a IH]; simpl; [done|]. by rewrite IH. Qed.

Lemma symbol_char v :
  symbol v = String (if (v =? 0)%Z then "."%char else "X"%char) EmptyString.
Proof. unfold symbol, truthy. by destruct (v =? 0)%Z. Qed.

Lemma concat_cons sep (x y : string) ys :
  String.concat sep (x :: y :: ys) = x +:+ sep +:+ String.concat sep (y :: ys).
Proof. reflexivity. Qed.

Lemma append_char ch (s : string) : String ch EmptyString +:+ s = String ch s.
Proof. reflexivity. Qed.

Lemma line_length (row : list Z) :
  row ≠ [] → String.length (String.concat " " (symbol <$> row)) = 2 * length row - 1.
Proof.
  induction row as [|v [|v' rest] IH]; intros Hne; [done| |].
  - simpl. by rewrite symbol_char.
  - rewrite !fmap_cons, concat_cons, symbol_char. rewrite <- !fmap_cons.
    rewrite !append_char. cbn [String.length]. rewrite IH by done. simpl length. lia.
Qed.

Lemma line_get (row : list Z) :
  ∀ c v, row !! c = Some v →
    String.get (2 * c) (String.concat " " (symbol <$> row))
    = Some (if (v =? 0)%Z then "."%char else "X"%char).
Proof.
  induction row as [|v0 [|v' rest] IH]; intros c v Hc; [done| |].
  - destruct c as [|c]; [|done]. injection Hc as ->. simpl. by rewrite symbol_char.
  - rewrite !fmap_cons, concat_cons, symbol_char. rewrite <- !fmap_cons.
    destruct c as [|c]; [by injection Hc as ->; rewrite !append_char|].
    replace (2 * S c) with (S (S (2 * c))) by lia.
    rewrite !append_char. cbn [String.get]. by apply IH.
Qed.

Lemma line_get_space (row : list Z) :
  ∀ c, S c < length row →
    String.get (2 * c + 1) (String.concat " " (symbol <$> row)) = Some " "%char.
Proof.
  induction row as [|v0 [|v' rest] IH]; intros c Hc; [simpl in Hc; lia|simpl in Hc; lia|].
  rewrite !fmap_cons, concat_cons, symbol_char. rewrite <- !fmap_cons.
  rewrite !append_char. destruct c as [|c]; [done|].
  replace (2 * S c + 1) with (S (S (2 * c + 1))) by lia.
  cbn [String.get]. apply IH. simpl in *. lia.
Qed.

Lemma text_length (lines : list string) width :
  lines ≠ [] → Forall (λ line, String.length line = width) lines →
  String.length (String.concat newline lines) = (width + 1) * length lines - 1.
Proof.
  induction lines as [|line [|line' rest] IH]; intros Hne Hwidth; [done| |].
  - apply Forall_cons in Hwidth as [<- _]. simpl. lia.
  - apply Forall_cons in Hwidth as [Hline Hrest].
    rewrite concat_cons, !string_length_app, IH, Hline by done.
    simpl length. simpl String.length. lia.
Qed.

Lemma text_get (lines : list string) width :
  Forall (λ line, String.length line = width) lines →
  ∀ r line j, lines !! r = Some line → j < width →
    String.get ((width + 1) * r + j) (String.concat newline lines) = String.get j line.
Proof.
  intros Hwidth. induction lines as [|line0 [|line' rest] IH]; intros r line j Hr Hj; [done| |].
  - destruct r as [|r]; [|done]. injection Hr as ->.
    by replace ((width + 1) * 0 + j) with j by lia.
  - apply Forall_cons in Hwidth as [Hline Hrest]. rewrite concat_cons.
    destruct r as [|r].
    + injection Hr as ->. replace ((width + 1) * 0 + j) with j by lia.
      symmetry. apply append_correct1. lia.
    + replace ((width + 1) * S r + j)
        with (S ((width + 1) * r + j) + String.length line0) by lia.
      rewrite <- append_correct2. unfold newline at 1. rewrite append_char.
      cbn [String.get]. by apply IH.
Qed.

Lemma text_get_newline (lines : list string) width :
  Forall (λ line, String.length line = width) lines →
  ∀ r, S r < length lines →
    String.get ((width + 1) * r + width) (String.concat newline lines) = Some "010"%char.
Proof.
  intros Hwidth. induction lines as [|line0 [|line' rest] IH]; intros r Hr;
    [simpl in Hr; lia|simpl in Hr; lia|].
  apply Forall_cons in Hwidth as [Hline Hrest]. rewrite concat_cons.
  destruct r as [|r].
  - replace ((width + 1) * 0 + width) with (0 + String.length line0) by lia.
    rewrite <- append_correct2. unfold newline at 1. by rewrite append_char.
  - replace ((width + 1) * S r + width)
      with (S ((width + 1) * r + width) + String.length line0) by lia.
    rewrite <- append_correct2. unfold newline at 1. rewrite append_char.
    cbn [String.get]. apply IH; [done|]. simpl in *. lia.
Qed.

Lemma Board_str_rows_grid s bm :
  ∀ g, grid s bm = Some g →
    Board_str_rows bm s = Ok ((λ row, String.concat " " (symbol <$> row)) <$> g).
Proof.
  induction bm as [|r bm IH]; intros g Hg.
  - by injection Hg as <-.
  - apply grid_cons_inv in Hg as (row & g' & -> & Hr & Hg').
    cbn [Board_str_rows]. unfold get_row. rewrite Hr, outcome_bind_Ok.
    by rewrite (IH _ Hg'), outcome_bind_Ok.
Qed.

(** X30.  [__str__] draws the bitmap: for a bitmap of [rows] rows of
    [cols] cells, both at least 1, the string has [2 * rows * cols - 1]
    characters; the cell at row [r] and column [c] is drawn at position
    [2 * cols * r + 2 * c], as [X] when it does not hold 0 and as [.]
    when it does; a space follows every cell but the last of its row, and
    a newline every row but the last. *)
Theorem Board_str_draws self s g rows cols :
  grid s (bitmap self) = Some g → rectangular rows cols g → 0 < rows → 0 < cols →
  ∃ text,
    Board_str self s = Ok text
    ∧ String.length text = 2 * rows * cols - 1
    ∧ ∀ r c, r < rows → c < cols →
        String.get (2 * cols * r + 2 * c) text
        = Some (if (cell_value g r c =? 0)%Z then "."%char else "X"%char)
        ∧ (S c < cols → String.get (2 * cols * r + 2 * c + 1) text = Some " "%char)
        ∧ (S r < rows → String.get (2 * cols * r + 2 * cols - 1) text = Some "010"%char).
Proof.
  intros Hg [Hlen Hcols] Hrows Hcols1.
  set (line := λ row : list Z, String.concat " " (symbol <$> row)).
  exists (String.concat newline (line <$> g)).
  assert (Forall (λ l, String.length l = 2 * cols - 1) (line <$> g)) as Hwidth.
  { apply Forall_fmap. eapply Forall_impl; [exact Hcols|]. intros row Hrow.
    cbv beta in Hrow. unfold compose, line. rewrite line_length; [lia|].
    intros ->. simpl in Hrow. lia. }
  split; [|split].
  - unfold Board_str. by rewrite (Board_str_rows_grid _ _ _ Hg).
  - rewrite (text_length _ (2 * cols - 1)); [|destruct g; [simpl in Hlen; lia|done]|done].
    rewrite length_fmap, Hlen. nia.
  - intros r c Hr Hc.
    destruct (lookup_lt_is_Some_2 g r) as [row Hrow]; [lia|].
    pose proof (Forall_lookup_1 _ _ _ _ Hcols Hrow) as Hcells. simpl in Hcells.
    destruct (lookup_lt_is_Some_2 row c) as [v Hv]; [lia|].
    assert ((line <$> g) !! r = Some (line row)) as Hline.
    { by rewrite list_lookup_fmap, Hrow. }
    assert (cell_value g r c = v) as ->.
    { unfold cell_value, at_cell. rewrite Hrow. simpl. by rewrite Hv. }
    split; [|split].
    + replace (2 * cols * r + 2 * c) with ((2 * cols - 1 + 1) * r + 2 * c) by lia.
      rewrite (text_get _ _ Hwidth r (line row)) by (done || lia).
      by apply line_get.
    + intros Hnext.
      replace (2 * cols * r + 2 * c + 1) with ((2 * cols - 1 + 1) * r + (2 * c + 1)) by lia.
      rewrite (text_get _ _ Hwidth r (line row)) by (done || lia).
      apply line_get_space. lia.
    + intros Hnext.
      replace (2 * cols * r + 2 * cols - 1)
        with ((2 * cols - 1 + 1) * r + (2 * cols - 1)) by lia.
      apply (text_get_newline _ _ Hwidth). rewrite length_fmap. lia.
Qed.

Lemma Board_str_draws_witness :
  ∃ text,
    Board_str uneven_board uneven_state = Ok text
    ∧ String.length text = 2 * 3 * 3 - 1
    ∧ ∀ r c, r < 3 → c < 3 →
        String.get (2 * 3 * r + 2 * c) text
        = Some (if (cell_value uneven_rows r c =? 0)%Z then "."%char else "X"%char)
        ∧ (S c < 3 → String.get (2 * 3 * r + 2 * c + 1) text = Some " "%char)
        ∧ (S r < 3 → String.get (2 * 3 * r + 2 * 3 - 1) text = Some "010"%char).
Proof.
  apply (Board_str_draws uneven_board uneven_state uneven_rows 3 3).
  - reflexivity.
  - exact rectangular_uneven_rows.
  - lia.
  - lia.
Defined.

(** ** The search as a whole *)

(** C6 (as amended).  On a full-size board whose block has a cell and
    whose preview list is not empty, with fuel for 33 rows, the search
    returns or raises [ValueError]: it makes exactly the 36 probes of 12
    shifts by 3 rotation variants; a probe gets a score exactly when its
    move list executes, the score [evaluate] gives the board committed,
    and then stores its list under that score, a later probe replacing an
    earlier one of equal score; if some probe has a score, the move list
    printed is the one stored under the greatest score and holds no
    [drop]; if none has, [max] of the empty dict raises [ValueError]. *)
Theorem search_total fuel board s g b :
  33 < fuel →
  grid s (bitmap board) = Some g → full_size g →
  block_objs s !! block board = Some b → offsets b ≠ [] →
  preview board ≠ [] →
  search_outcome fuel board g b s.
Proof.
  intros Hfuel Hg Hfull Hb Hne Hpreview.
  destruct (preview board) as [|next rest] eqn:Hpv; [done|].
  assert (search_inv board g (offsets b) (stdout s) s) as Hinv.
  { split; [done|]. split; [done|]. by exists b. }
  destruct (shift_rounds_total fuel board g (offsets b) (stdout s) next rest
              Hfuel Hfull Hne Hpv (seq 0 12) ∅ [] s Hinv)
    as (log & s1 & Hrun & (_ & Hout & _) & Hshape).
  change (foldl record ∅ log) with (replay log) in Hrun. simpl app in Hrun.
  assert (probing board g b (stdout s) s) as Hprobing.
  { split; [done|]. split; [done|]. by exists b. }
  destruct (search_loop_scored fuel board g b (stdout s) next rest
              Hfuel Hfull Hne Hpv s Hprobing) as (log' & s1' & Hrun' & _ & Hscored).
  unfold search_loop in Hrun'. rewrite Hrun in Hrun'.
  injection Hrun' as _ <- _.
  exists log, s1. split; [exact Hrun|]. split; [exact Hshape|].
  split; [by rewrite <- (Forall2_length _ _ _ Hshape)|].
  split.
  { eapply Forall_impl; [exact Hscored|]. intros p [steps ->]. by exists steps. }
  split; [exact Hout|].
  assert (∀ q k, q ∈ log → probe_score q = Some k → is_Some (replay log !! k)) as Hkept.
  { intros q k. apply replay_lookup_scored. }
  assert (search fuel board s =
          match max_key (replay log) with
          | Ok best =>
              match replay log !! best with
              | Some todo => (Ok (todo, log), with_print s1 (String.concat newline todo))
              | None => (Fail (Exn KeyError), s1)
              end
          | Fail f => (Fail f, s1)
          end) as ->.
  { unfold search. rewrite M_bind_unfold. unfold search_loop. rewrite Hrun.
    cbv beta iota. rewrite M_bind_unfold. unfold read at 1.
    destruct (max_key (replay log)) as [best|f]; [|done].
    rewrite M_bind_unfold. unfold read at 1. by destruct (replay log !! best). }
  destruct (max_key (replay log)) as [best|f] eqn:Hmax.
  - right. apply max_key_Ok in Hmax as [[todo Htodo] Hbest].
    destruct (replay_lookup_Some _ _ _ Htodo)
      as (earlier & winner & later & Hlog & Hscore & Hmoves & Hlater).
    exists best, todo, earlier, winner, later.
    split; [|split; [done|split; [done|split; [done|split; [done|split; [done|split]]]]]].
    + by rewrite Htodo.
    + apply Forall_forall. intros q Hq k Hk. apply Hbest. by eapply Hkept.
    + assert (winner ∈ log) as Hin.
      { rewrite Hlog. apply elem_of_app. right. left. }
      apply list_elem_of_lookup in Hin as [n Hn].
      destruct (Forall2_lookup_r _ _ _ _ _ Hshape Hn) as (v & _ & Hv).
      rewrite <- Hmoves. by eapply candidate_shape_no_drop.
  - left. apply max_key_Fail in Hmax as [-> Hempty]. split; [|done].
    apply Forall_forall. intros q Hq.
    destruct (probe_score q) as [k|] eqn:Hk; [|done].
    destruct (Hkept q k Hq Hk) as [todo Htodo].
    by rewrite Hempty, lookup_empty in Htodo.
Qed.

Lemma search_total_witness :
  search_outcome 34 example_board empty_rows unit_block example_state.
Proof.
  apply (search_total 34 example_board example_state empty_rows unit_block).
  - lia.
  - reflexivity.
  - exact full_size_empty_rows.
  - reflexivity.
  - discriminate.
  - discriminate.
Defined.
